(** * QueryString.js: a shallow embedding and its verified properties

    The development follows src/QueryString.js of timmc/js-tools:
    - JavaScript strings are sequences of 16-bit code units;
    - the three global regular expressions of [QueryString.decode], the one
      of [QueryString.encode] and the tokenizer of the constructor are run by
      one left-to-right scanner, as [String.prototype.replace] and
      [RegExp.prototype.exec] do with the [g] flag;
    - the builtins [encodeURIComponent] and [decodeURIComponent] follow the
      Encode and Decode algorithms of ECMA-262, section 15.1.3;
    - objects and arrays live in a store, so that the sharing between a
      QueryString and the ones derived from it by [plus] and [minus] is
      visible. *)

From Stdlib Require Import ZArith Lia String Ascii.
From stdpp Require Import base list.

Set Default Proof Using "Type".

(** ** Strings *)

Module JS.

Local Open Scope Z_scope.

(** A JavaScript string: its UTF-16 code units. *)
Abbreviation jsstring := (list Z).

Definition code (a : ascii) : Z := Z.of_nat (nat_of_ascii a).

Fixpoint str (s : string) : jsstring :=
  match s with
  | EmptyString => []
  | String a r => code a :: str r
  end.

(** [String.fromCharCode(n)] for an integral [n]: ToUint16. *)
Definition fromCharCode (n : Z) : Z := n mod 65536.

(** Character classes of the regular expressions. *)
Abbreviation charclass := (Z -> bool) (only parsing).

Definition is_char (a : ascii) : charclass := fun c => c =? code a.
Definition in_range (lo hi : ascii) : charclass :=
  fun c => (code lo <=? c) && (c <=? code hi).
Definition one_of (s : string) : charclass :=
  fun c => existsb (Z.eqb c) (str s).

(** [[0-9A-F]], [[EF]], [[CD]], [[89AB]], [[0-7]] *)
Definition cls_HEX : charclass := fun c => in_range "0" "9" c || in_range "A" "F" c.
Definition cls_EF : charclass := one_of "EF".
Definition cls_CD : charclass := one_of "CD".
Definition cls_89AB : charclass := one_of "89AB".
Definition cls_07 : charclass := in_range "0" "7".
Definition cls_pct : charclass := is_char "%".

(** ** The global scan of a regular expression

    [re s] is the anchored match of the expression at the head of [s]: what
    it captured and how many code units it consumed (at least one for every
    expression of this file).  With the [g] flag the subject is walked from
    left to right; where the expression matches, the match is taken and the
    walk resumes after it, elsewhere it moves on by one code unit. *)

Section Scan.
Context {M : Type} (re : jsstring -> option (M * nat)).

Fixpoint scan (skip : nat) (s : jsstring) : list (Z + M) :=
  match s with
  | [] => []
  | c :: t =>
      match skip with
      | S k => scan k t
      | O =>
          match re s with
          | Some (m, len) => inr m :: scan (Nat.pred len) t
          | None => inl c :: scan 0 t
          end
      end
  end.
End Scan.

(** [s.replace(re, f)]: unmatched code units are kept, matches go through [f]. *)
Definition replace_with {M} (re : jsstring -> option (M * nat))
    (f : M -> jsstring) (s : jsstring) : jsstring :=
  flat_map (fun x => match x with inl c => [c] | inr m => f m end) (scan re 0 s).

(** [while (match = re.exec(s))]: the successive matches. *)
Definition exec_all {M} (re : jsstring -> option (M * nat)) (s : jsstring) : list M :=
  omap (fun x => match x with inl _ => None | inr m => Some m end) (scan re 0 s).

(** An expression that is a fixed sequence of character classes. *)
Fixpoint match_classes (pat : list charclass) (s : jsstring) : option jsstring :=
  match pat with
  | [] => Some []
  | p :: pat' =>
      match s with
      | c :: s' => if p c then cons c <$> match_classes pat' s' else None
      | [] => None
      end
  end.

Definition re_seq (pat : list charclass) : jsstring -> option (jsstring * nat) :=
  fun s => (fun m => (m, length m)) <$> match_classes pat s.

(** [s.replace(re, f)] for such an expression with the [g] flag. *)
Definition replace_seq (pat : list charclass) (f : jsstring -> jsstring)
    (s : jsstring) : jsstring :=
  replace_with (re_seq pat) f s.

(** ** parseInt(s, 16) on a run of hexadecimal digits; [None] is NaN. *)

Definition hexval (c : Z) : option Z :=
  if in_range "0" "9" c then Some (c - code "0")
  else if in_range "A" "F" c then Some (c - code "A" + 10)
  else if in_range "a" "f" c then Some (c - code "a" + 10)
  else None.

Fixpoint parseInt16_digits (acc : Z) (s : jsstring) : Z :=
  match s with
  | [] => acc
  | c :: t =>
      match hexval c with
      | Some d => parseInt16_digits (16 * acc + d) t
      | None => acc
      end
  end.

Definition parseInt16 (s : jsstring) : option Z :=
  match s with
  | [] => None
  | c :: _ =>
      match hexval c with
      | Some _ => Some (parseInt16_digits 0 s)
      | None => None
      end
  end.

(** ** Exceptions *)

Inductive exn := URIError | TypeError.

Inductive res (A : Type) :=
  | Ok (a : A)
  | Raise (e : exn).
Arguments Ok {A} a.
Arguments Raise {A} e.

#[global] Instance res_ret : MRet res := fun A a => Ok a.
#[global] Instance res_bind : MBind res := fun A B f m =>
  match m with
  | Ok a => f a
  | Raise e => Raise e
  end.

(** ** encodeURIComponent (ECMA-262 15.1.3, Encode with uriUnescaped) *)

Definition uriUnescaped : charclass := fun c =>
  in_range "a" "z" c || in_range "A" "Z" c || in_range "0" "9" c
  || one_of "-_.!~*'()" c.

Definition hexdigit (n : Z) : Z :=
  if n <? 10 then code "0" + n else code "A" + (n - 10).

Definition pct_octet (b : Z) : jsstring :=
  [code "%"; hexdigit (b / 16); hexdigit (b mod 16)].

(** The UTF-8 transformation of a code point. *)
Definition utf8_octets (V : Z) : list Z :=
  if V <? 0x80 then [V]
  else if V <? 0x800 then [0xC0 + V / 0x40; 0x80 + V mod 0x40]
  else if V <? 0x10000 then
    [0xE0 + V / 0x1000; 0x80 + (V / 0x40) mod 0x40; 0x80 + V mod 0x40]
  else
    [0xF0 + V / 0x40000; 0x80 + (V / 0x1000) mod 0x40;
     0x80 + (V / 0x40) mod 0x40; 0x80 + V mod 0x40].

Definition escape_point (V : Z) : jsstring := flat_map pct_octet (utf8_octets V).

Definition high_surrogate (c : Z) : bool := (0xD800 <=? c) && (c <=? 0xDBFF).
Definition low_surrogate (c : Z) : bool := (0xDC00 <=? c) && (c <=? 0xDFFF).

Fixpoint encodeURIComponent (s : jsstring) : res jsstring :=
  match s with
  | [] => Ok []
  | C :: t =>
      if uriUnescaped C then r ← encodeURIComponent t; Ok (C :: r)
      else if low_surrogate C then Raise URIError
      else if negb (high_surrogate C) then
        r ← encodeURIComponent t; Ok (escape_point C ++ r)
      else
        match t with
        | [] => Raise URIError
        | kChar :: t' =>
            if low_surrogate kChar then
              let V := (C - 0xD800) * 0x400 + (kChar - 0xDC00) + 0x10000 in
              r ← encodeURIComponent t'; Ok (escape_point V ++ r)
            else Raise URIError
        end
  end.

(** ** decodeURIComponent (ECMA-262 15.1.3, Decode with an empty reserved set) *)

(** The octet written [%XY] at the head of [s]. *)
Definition escape_at (s : jsstring) : option Z :=
  match s with
  | p :: a :: b :: _ =>
      if p =? code "%" then x ← hexval a; y ← hexval b; Some (16 * x + y)
      else None
  | _ => None
  end.

(** [n] further escapes, each an octet of the form 10xxxxxx. *)
Fixpoint continuation (n : nat) (s : jsstring) : option (list Z) :=
  match n with
  | O => Some []
  | S n' =>
      B ← escape_at s;
      if (0x80 <=? B) && (B <=? 0xBF) then cons B <$> continuation n' (drop 3 s)
      else None
  end.

(** The escape sequence at the head of [s]: the code units it stands for and
    its length; [None] is the URIError of the Decode algorithm. *)
Definition decode_escape (s : jsstring) : option (jsstring * nat) :=
  B ← escape_at s;
  if B <? 0x80 then Some ([B], 3%nat)
  else if B <? 0xC0 then None
  else if B <? 0xE0 then
    conts ← continuation 1 (drop 3 s);
    let V := fold_left (fun acc b => acc * 0x40 + (b - 0x80)) conts (B - 0xC0) in
    if V <? 0x80 then None else Some ([V], 6%nat)
  else if B <? 0xF0 then
    conts ← continuation 2 (drop 3 s);
    let V := fold_left (fun acc b => acc * 0x40 + (b - 0x80)) conts (B - 0xE0) in
    if (V <? 0x800) || ((0xD800 <=? V) && (V <=? 0xDFFF)) then None
    else Some ([V], 9%nat)
  else if B <? 0xF8 then
    conts ← continuation 3 (drop 3 s);
    let V := fold_left (fun acc b => acc * 0x40 + (b - 0x80)) conts (B - 0xF0) in
    if (V <? 0x10000) || (0x10FFFF <? V) then None
    else
      let L := (V - 0x10000) mod 0x400 + 0xDC00 in
      let H := ((V - 0x10000) / 0x400) mod 0x400 + 0xD800 in
      Some ([H; L], 12%nat)
  else None.

Fixpoint decodeURIComponent_from (skip : nat) (s : jsstring) : res jsstring :=
  match s with
  | [] => Ok []
  | c :: t =>
      match skip with
      | S k => decodeURIComponent_from k t
      | O =>
          if c =? code "%" then
            match decode_escape s with
            | Some (chars, len) =>
                r ← decodeURIComponent_from (Nat.pred len) t; Ok (chars ++ r)
            | None => Raise URIError
            end
          else r ← decodeURIComponent_from 0 t; Ok (c :: r)
      end
  end.

Definition decodeURIComponent (s : jsstring) : res jsstring :=
  decodeURIComponent_from 0 s.

(** ** The tokenizer of the constructor

    Its expression takes one or more code units other than [=] and [&]
    (group 1), then, optionally, [=] and every code unit up to the next [&]
    (group 3). *)

Fixpoint span (p : charclass) (s : jsstring) : jsstring * jsstring :=
  match s with
  | [] => ([], [])
  | c :: t => if p c then let '(a, b) := span p t in (c :: a, b) else ([], s)
  end.

(** [qs.charAt(0) == '?'] and [qs.substring(1)] *)
Definition strip_question (qs : jsstring) : jsstring :=
  match qs with
  | c :: r => if c =? code "?" then r else qs
  | [] => qs
  end.

Definition not_eq_amp : charclass := fun c => negb (one_of "=&" c).
Definition not_amp : charclass := fun c => negb (is_char "&" c).

(** The anchored match: group 1, group 3 when it took part, and the length. *)
Definition re_pair (s : jsstring) : option ((jsstring * option jsstring) * nat) :=
  let '(k, r) := span not_eq_amp s in
  match k with
  | [] => None
  | _ :: _ =>
      match r with
      | c :: r' =>
          if c =? code "=" then
            let '(v, _) := span not_amp r' in
            Some ((k, Some v), (length k + 1 + length v)%nat)
          else Some ((k, None), length k)
      | [] => Some ((k, None), length k)
      end
  end.

End JS.

Module QueryString.

Import JS.
Local Open Scope Z_scope.

(** ** QueryString.decode *)

(** The text of a capture group that starts at offset [i] of the match and
    holds two code units. *)
Definition group2 (code : jsstring) (i : nat) : jsstring := take 2 (drop i code).

(** Arithmetic on NaN yields NaN, every comparison with NaN is false and
    [String.fromCharCode(NaN)] is the code unit 0. *)
Definition nan_char : jsstring := [0].

Definition pat3 : list charclass :=
  [cls_pct; cls_EF; cls_HEX; cls_pct; cls_89AB; cls_HEX; cls_pct; cls_89AB; cls_HEX].
Definition pat2 : list charclass :=
  [cls_pct; cls_CD; cls_HEX; cls_pct; cls_89AB; cls_HEX].
Definition pat1 : list charclass := [cls_pct; cls_07; cls_HEX].

Definition decode3 (code : jsstring) : jsstring :=
  match parseInt16 (group2 code 1), parseInt16 (group2 code 4),
        parseInt16 (group2 code 7) with
  | Some p1, Some p2, Some p3 =>
      let n1 := p1 - 0xE0 in
      let n2 := p2 - 0x80 in
      if (n1 =? 0) && (n2 <? 32) then code
      else
        let n3 := p3 - 0x80 in
        let n := Z.shiftl n1 12 + Z.shiftl n2 6 + n3 in
        if n >? 0xFFFF then code else [fromCharCode n]
  | _, _, _ => nan_char
  end.

Definition decode2 (code : jsstring) : jsstring :=
  match parseInt16 (group2 code 1), parseInt16 (group2 code 4) with
  | Some p1, Some p2 =>
      let n1 := p1 - 0xC0 in
      if n1 <? 2 then code
      else
        let n2 := p2 - 0x80 in
        [fromCharCode (Z.shiftl n1 6 + n2)]
  | _, _ => nan_char
  end.

Definition decode1 (code : jsstring) : jsstring :=
  match parseInt16 (group2 code 1) with
  | Some p => [fromCharCode p]
  | None => nan_char
  end.

Definition plus_to_space (s : jsstring) : jsstring :=
  replace_seq [is_char "+"] (fun _ => str " ") s.

Definition decode (s : jsstring) : jsstring :=
  let s := plus_to_space s in
  let s := replace_seq pat3 decode3 s in
  let s := replace_seq pat2 decode2 s in
  let s := replace_seq pat1 decode1 s in
  s.


(** ** QueryString.encode *)

Definition pat_20 : list charclass := [cls_pct; is_char "2"; is_char "0"].

Definition encode (s : jsstring) : res jsstring :=
  e ← encodeURIComponent s;
  Ok (replace_seq pat_20 (fun _ => str "+") e).


(** ** The store

    A QueryString instance has two fields: [dict], a plain object used as a
    dictionary from decoded keys to arrays of decoded values, and [alist], an
    array of pair records.  Arrays, dictionaries and instances are mutable
    and are shared by reference, so they live in a store; a pair record is
    never assigned to after its creation and is kept as a value. *)

(** A value of a pair: a string or [null]. *)
Inductive val :=
  | Null
  | Str (s : jsstring).

#[global] Instance val_eq_dec : EqDecision val.
Proof. solve_decision. Defined.

Record pair := Pair {
  key_enc : jsstring;
  key_dec : jsstring;
  val_enc : val;
  val_dec : val
}.

Abbreviation loc := nat (only parsing).

Inductive obj :=
  | ArrV (vs : list val)
  | ArrP (ps : list pair)
  | Obj (props : list (jsstring * loc))
  | QS (dict alist : loc).

Abbreviation store := (list obj).

(** The outcome of running a piece of code on a store.  [Stuck] stands for a
    dangling or ill-typed reference; no run from a store built by this code
    ends there. *)
Inductive outcome (A : Type) :=
  | Ret (a : A) (h : store)
  | Throw (e : exn) (h : store)
  | Stuck.
Arguments Ret {A} a h.
Arguments Throw {A} e h.
Arguments Stuck {A}.

Definition M (A : Type) : Type := store -> outcome A.

#[global] Instance M_ret : MRet M := fun A a h => Ret a h.
#[global] Instance M_bind : MBind M := fun A B f m h =>
  match m h with
  | Ret a h' => f a h'
  | Throw e h' => Throw e h'
  | Stuck => Stuck
  end.

Definition throw {A} (e : exn) : M A := fun h => Throw e h.
Definition stuck {A} : M A := fun _ => Stuck.
Definition lift {A} (r : res A) : M A :=
  match r with
  | Ok a => mret a
  | Raise e => throw e
  end.

Definition alloc (o : obj) : M loc := fun h => Ret (length h) (h ++ [o]).
Definition get (l : loc) : M obj := fun h =>
  match h !! l with
  | Some o => Ret o h
  | None => Stuck
  end.
Definition put (l : loc) (o : obj) : M unit := fun h =>
  if decide (l < length h)%nat then Ret tt (<[l:=o]> h) else Stuck.

Fixpoint for_each {A} (xs : list A) (body : A -> M unit) : M unit :=
  match xs with
  | [] => mret tt
  | x :: r => body x;; for_each r body
  end.

(** *** Arrays *)

Class Elem (A : Type) := {
  to_obj : list A -> obj;
  of_obj : obj -> option (list A);
  of_to_obj : forall xs, of_obj (to_obj xs) = Some xs;
  to_of_obj : forall o xs, of_obj o = Some xs -> o = to_obj xs
}.

#[global, refine] Instance val_elem : Elem val := {|
  to_obj := ArrV;
  of_obj o := match o with ArrV vs => Some vs | _ => None end
|}.
Proof.
  - reflexivity.
  - intros [] xs; intros [= ->]; reflexivity.
Defined.

#[global, refine] Instance pair_elem : Elem pair := {|
  to_obj := ArrP;
  of_obj o := match o with ArrP ps => Some ps | _ => None end
|}.
Proof.
  - reflexivity.
  - intros [] xs; intros [= ->]; reflexivity.
Defined.

Definition elems `{Elem A} (arr : loc) : M (list A) :=
  o ← get arr;
  match of_obj o with
  | Some xs => mret xs
  | None => stuck
  end.

Definition array `{Elem A} (xs : list A) : M loc := alloc (to_obj xs).

Definition push `{Elem A} (arr : loc) (x : A) : M unit :=
  xs ← elems arr; put arr (to_obj (xs ++ [x])).

Definition slice `{Elem A} (arr : loc) : M loc :=
  xs ← elems (A:=A) arr; array xs.

(** *** Plain objects as dictionaries *)

(** The own properties are kept in the order in which they were created,
    and [for (k in d)] visits them in that order.  An engine visits the
    keys that are array indices first, in ascending order, and the others
    after them; what is stated on [keys] is stated up to the order, and
    what is stated on [mapDict] relative to the order in which [d] is
    visited. *)

Definition props (d : loc) : M (list (jsstring * loc)) :=
  o ← get d;
  match o with
  | Obj ps => mret ps
  | _ => stuck
  end.

Definition own (ps : list (jsstring * loc)) (k : jsstring) : option loc :=
  snd <$> List.find (fun kv => bool_decide (kv.1 = k)) ps.

Fixpoint set_own (ps : list (jsstring * loc)) (k : jsstring) (l : loc)
    : list (jsstring * loc) :=
  match ps with
  | [] => [(k, l)]
  | (k', l') :: r =>
      if decide (k' = k) then (k, l) :: r else (k', l') :: set_own r k l
  end.

(** The properties that every plain object inherits from [Object.prototype]. *)
Definition Object_prototype : list jsstring :=
  str <$> ["constructor"; "toString"; "toLocaleString"; "valueOf";
           "hasOwnProperty"; "isPrototypeOf"; "propertyIsEnumerable";
           "__proto__"; "__defineGetter__"; "__defineSetter__";
           "__lookupGetter__"; "__lookupSetter__"]%string.

(** [d[k]] read through the prototype chain. *)
Inductive property :=
  | Own (l : loc)
  | Inherited
  | Undefined.

Definition get_prop (ps : list (jsstring * loc)) (k : jsstring) : property :=
  match own ps k with
  | Some l => Own l
  | None => if bool_decide (k ∈ Object_prototype) then Inherited else Undefined
  end.

(** [d.hasOwnProperty(k)].  The method is looked up on [d] itself first: an
    own property of that name, which holds an array here, hides the one of
    [Object.prototype] and cannot be called. *)
Definition hasOwnProperty (d : loc) (k : jsstring) : M bool :=
  ps ← props d;
  match own ps (str "hasOwnProperty") with
  | Some _ => throw TypeError
  | None => mret (bool_decide (is_Some (own ps k)))
  end.

(** [d[k] = l].  Assigning an object to [__proto__] goes to the setter
    inherited from [Object.prototype]: it replaces the prototype of [d] and
    adds no own property. *)
Definition set_prop (d : loc) (k : jsstring) (l : loc) : M unit :=
  ps ← props d;
  if decide (k = str "__proto__") then mret tt
  else put d (Obj (set_own ps k l)).

(** *** Instances *)

Definition fields (this : loc) : M (loc * loc) :=
  o ← get this;
  match o with
  | QS d a => mret (d, a)
  | _ => stuck
  end.

Definition get_dict (this : loc) : M loc := '(d, _) ← fields this; mret d.
Definition get_alist (this : loc) : M loc := '(_, a) ← fields this; mret a.
Definition set_dict (this : loc) (d : loc) : M unit :=
  '(_, a) ← fields this; put this (QS d a).
Definition set_alist (this : loc) (a : loc) : M unit :=
  '(d, _) ← fields this; put this (QS d a).

(** ** The class *)

(** What [encodeURIComponent] makes of its argument first. *)
Definition ToString (v : val) : jsstring :=
  match v with
  | Null => str "null"
  | Str s => s
  end.

Section Class.

(** [location.search], which the constructor reads when it is called
    without an argument. *)
Variable location_search : jsstring.

(** One turn of the constructor's loop, for the match [m] of the tokenizer. *)
Definition add_match (d a : loc) (m : jsstring * option jsstring) : M unit :=
  let key_enc := m.1 in
  let val_enc := match m.2 with None => Null | Some s => Str s end in
  key_dec ← lift (decodeURIComponent (plus_to_space key_enc));
  let val_dec := match val_enc with Null => Null | Str s => Str (decode s) end in
  ps ← props d;
  match get_prop ps key_dec with
  | Own l => push l val_dec
  | Inherited => throw TypeError
  | Undefined => l ← array [val_dec]; set_prop d key_dec l
  end;;
  push a (Pair key_enc key_dec val_enc val_dec).

(** [new QueryString(qs)]; [None] is the call without an argument.  The
    instance is entered in the store once its two fields are set. *)
Definition QueryString (arg : option jsstring) : M loc :=
  let qs := match arg with Some qs => qs | None => location_search end in
  d ← alloc (Obj []);
  a ← array (A:=pair) [];
  this ← alloc (QS d a);
  let qs := strip_question qs in
  for_each (exec_all re_pair qs) (add_match d a);;
  mret this.

(** [fkv] answers [None] for [undefined]. *)
Definition mapDict (d : loc) (fkv : jsstring -> loc -> M (option loc)) : M loc :=
  ret ← alloc (Obj []);
  ps ← props d;
  for_each ps (fun kv =>
    has ← hasOwnProperty d kv.1;
    if negb has then mret tt
    else
      replace ← fkv kv.1 kv.2;
      match replace with
      | Some r => set_prop ret kv.1 r
      | None => mret tt
      end);;
  mret ret.

Definition filter `{Elem A} (arr : loc) (fe : A -> bool) : M loc :=
  ret ← array (A:=A) [];
  xs ← elems arr;
  for_each xs (fun x => if fe x then push ret x else mret tt);;
  mret ret.

(** [None] is [undefined]. *)
Definition value (this : loc) (key : jsstring) : M (option val) :=
  d ← get_dict this;
  has ← hasOwnProperty d key;
  if negb has then mret None
  else
    ps ← props d;
    match own ps key with
    | Some l => vs ← elems l; mret (last vs)
    | None => stuck
    end.

(** The array that [values] returns: the one of the dictionary, or a new
    empty one. *)
Definition values (this : loc) (key : jsstring) : M loc :=
  d ← get_dict this;
  has ← hasOwnProperty d key;
  if (has : bool) then
    ps ← props d;
    match own ps key with
    | Some l => mret l
    | None => stuck
    end
  else array (A:=val) [].

(** The loop of [keys] over the properties [ps] of [d]; [a] is the array
    being filled, kept by its contents. *)
Fixpoint keys_loop (d : loc) (ps : list (jsstring * loc)) (a : list jsstring)
    : M (list jsstring) :=
  match ps with
  | [] => mret a
  | kv :: r =>
      has ← hasOwnProperty d kv.1;
      keys_loop d r (if negb has then a else a ++ [kv.1])
  end.

(** The new array of [keys], by its contents. *)
Definition keys (this : loc) : M (list jsstring) :=
  d ← get_dict this;
  ps ← props d;
  keys_loop d ps [].

Definition plus (this : loc) (k : jsstring) (v : val) : M loc :=
  retQS ← QueryString None;
  d ← get_dict this;
  has ← hasOwnProperty d k;
  ((if (has : bool) then
     nd ← mapDict d (fun ok ovs =>
       if decide (ok ≠ k) then mret (Some ovs)
       else
         retVs ← slice (A:=val) ovs;
         push retVs v;;
         mret (Some retVs));
     set_dict retQS nd
   else
     nd ← mapDict d (fun _ vs => mret (Some vs));
     set_dict retQS nd;;
     rd ← get_dict retQS;
     l ← array [v];
     set_prop rd k l) : M unit);;
  a ← get_alist this;
  na ← slice (A:=pair) a;
  set_alist retQS na;;
  ra ← get_alist retQS;
  ke ← lift (encode k);
  ve ← lift (encode (ToString v));
  push ra (Pair ke k (Str ve) v);;
  mret retQS.

(** [v] is [None] when [minus] is called with one argument. *)
Definition minus (this : loc) (k : jsstring) (v : option val) : M loc :=
  let checkVals := bool_decide (is_Some v) in
  retQS ← QueryString None;
  d ← get_dict this;
  nd ← mapDict d (fun ok ovs =>
    match v with
    | Some v =>
        vs ← filter ovs (fun el => bool_decide (el ≠ v));
        xs ← elems (A:=val) vs;
        mret (if decide (length xs = 0)%nat then None else Some vs)
    | None => mret (if decide (ok = k) then None else Some ovs)
    end);
  set_dict retQS nd;;
  a ← get_alist this;
  na ← filter a (fun pair =>
    let matches :=
      bool_decide (key_dec pair = k)
      && (negb checkVals || bool_decide (Some (val_dec pair) = v)) in
    negb matches);
  set_alist retQS na;;
  mret retQS.

Definition toString (this : loc) : M jsstring :=
  a ← get_alist this;
  al ← elems (A:=pair) a;
  if decide (length al = 0)%nat then mret []
  else
    let ret :=
      fold_left (fun ret pair =>
        let ret := ret ++ str "&" ++ key_enc pair in
        match val_enc pair with
        | Null => ret
        | Str v => ret ++ str "=" ++ v
        end) al [] in
    mret (str "?" ++ drop 1 ret).

End Class.

(** ** The state of an instance, by its contents

    The constructor lays its objects out in the store one after the other:
    the dictionary, the array of pairs, the instance, then one array of
    values per key in the order in which the keys first appear.  [layout]
    is that part of the store for a dictionary that holds the values [D]
    and the pairs [al]; [add_pure] and [build] are what one turn and all the
    turns of the constructor's loop do to [D] and [al]. *)

Abbreviation dictv := (list (jsstring * list val)).

Fixpoint locs_from (n : nat) (D : dictv) : list (jsstring * nat) :=
  match D with
  | [] => []
  | kv :: r => (kv.1, n) :: locs_from (S n) r
  end.

Definition layout (n : nat) (D : dictv) (al : list pair) : list obj :=
  Obj (locs_from (n + 3) D) :: ArrP al :: QS n (n + 1) :: ((fun kv => ArrV kv.2) <$> D).

Fixpoint push_key (D : dictv) (k : jsstring) (v : val) : option dictv :=
  match D with
  | [] => None
  | kv :: r =>
      if decide (kv.1 = k) then Some ((kv.1, kv.2 ++ [v]) :: r)
      else cons kv <$> push_key r k v
  end.

Definition add_pure (st : dictv * list pair) (m : jsstring * option jsstring)
    : res (dictv * list pair) :=
  let key_enc := m.1 in
  let val_enc := match m.2 with None => Null | Some s => Str s end in
  key_dec ← decodeURIComponent (plus_to_space key_enc);
  let val_dec := match val_enc with Null => Null | Str s => Str (decode s) end in
  D' ← match push_key st.1 key_dec val_dec with
       | Some D' => Ok D'
       | None =>
           if bool_decide (key_dec ∈ Object_prototype) then Raise TypeError
           else Ok (st.1 ++ [(key_dec, [val_dec])])
       end;
  Ok (D', st.2 ++ [Pair key_enc key_dec val_enc val_dec]).

Fixpoint build (st : dictv * list pair) (ms : list (jsstring * option jsstring))
    : (dictv * list pair) * option exn :=
  match ms with
  | [] => (st, None)
  | m :: r =>
      match add_pure st m with
      | Ok st' => build st' r
      | Raise e => (st, Some e)
      end
  end.


(** What the constructor parses, and what it builds from it: the state
    reached and the exception that stopped it, if any. *)
Definition source (location_search : jsstring) (arg : option jsstring) : jsstring :=
  match arg with Some qs => qs | None => location_search end.

Definition parsed (qs : jsstring) : (dictv * list pair) * option exn :=
  build ([], []) (exec_all re_pair (strip_question qs)).

(** ** Reading an instance from the store *)

(** The pairs and the dictionary of the instance [q]. *)
Definition alist_of (h : store) (q : loc) : option (list pair) :=
  match h !! q with
  | Some (QS _ a) =>
      match h !! a with
      | Some (ArrP al) => Some al
      | _ => None
      end
  | _ => None
  end.

Definition values_at (h : store) (kv : jsstring * loc) : option (jsstring * list val) :=
  match h !! kv.2 with
  | Some (ArrV vs) => Some (kv.1, vs)
  | _ => None
  end.

Definition dict_of (h : store) (q : loc) : option dictv :=
  match h !! q with
  | Some (QS d _) =>
      match h !! d with
      | Some (Obj ps) => mapM (values_at h) ps
      | _ => None
      end
  | _ => None
  end.

(** The values of the key [k] in the dictionary [D]. *)
Definition own_vals (D : dictv) (k : jsstring) : option (list val) :=
  snd <$> List.find (fun e => bool_decide (e.1 = k)) D.

(** What a call returned or threw, without the store. *)
Definition result {A} (o : outcome A) : option (exn + A) :=
  match o with
  | Ret a _ => Some (inr a)
  | Throw e _ => Some (inl e)
  | Stuck => None
  end.

(** The contents of the array that [values] returns. *)
Definition values_of (this : loc) (key : jsstring) : M (list val) :=
  l ← values this key; elems l.

(** ** Serialization, as the specification words it *)

(** A pair as [toString] writes it: the stored encoded key, then [=] and the
    stored encoded value unless that is [null]. *)
Definition item (p : pair) : jsstring :=
  key_enc p ++ match val_enc p with Null => [] | Str v => str "=" ++ v end.

Fixpoint join_amp (xs : list jsstring) : jsstring :=
  match xs with
  | [] => []
  | [x] => x
  | x :: r => x ++ str "&" ++ join_amp r
  end.

Definition render (al : list pair) : jsstring :=
  match al with
  | [] => []
  | _ :: _ => str "?" ++ join_amp (item <$> al)
  end.

(** The body of the loop of [toString]. *)
Definition toString_body (ret : jsstring) (p : pair) : jsstring :=
  let ret := ret ++ str "&" ++ key_enc p in
  match val_enc p with
  | Null => ret
  | Str v => ret ++ str "=" ++ v
  end.

(** ** Tokens *)

(** The match of the tokenizer that a pair came from, and its text. *)
Definition tok_of (p : pair) : jsstring * option jsstring :=
  (key_enc p, match val_enc p with Null => None | Str s => Some s end).

Definition text (t : jsstring * option jsstring) : jsstring :=
  t.1 ++ match t.2 with None => [] | Some v => str "=" ++ v end.

(** What the tokenizer can match: a key that is not empty and holds neither
    [=] nor [&], and a value without [&]. *)
Definition wf_tok (t : jsstring * option jsstring) : Prop :=
  t.1 <> [] /\ Forall (fun c => not_eq_amp c = true) t.1 /\
  match t.2 with
  | None => True
  | Some v => Forall (fun c => not_amp c = true) v
  end.

(** What may follow a match: the end of the text or a separator. *)
Definition stops (r : jsstring) : Prop := r = [] \/ exists r', r = code "&" :: r'.

(** ** Instances in a store *)

Definition is_arr (h : store) (l : loc) : Prop := exists vs, h !! l = Some (ArrV vs).

(** [q] is a QueryString of the store [h]: its fields are a dictionary of
    arrays of values and an array of pairs. *)
Definition instance (h : store) (q : loc) : Prop :=
  exists d a ps al,
    h !! q = Some (QS d a) /\ h !! d = Some (Obj ps) /\ h !! a = Some (ArrP al) /\
    Forall (fun kv => is_arr h kv.2) ps.

(** A callback of [mapDict] that only adds objects to the store and answers
    with an array of values or [undefined]. *)
Definition callback_ok (fkv : jsstring -> loc -> M (option loc)) : Prop :=
  forall k l h, is_arr h l ->
    exists r ex, fkv k l h = Ret r (h ++ ex) /\
      forall l', r = Some l' -> is_arr (h ++ ex) l'.

(** The store only grew, whether the call returned or threw; on return the
    result satisfies [P]. *)
Definition grows {A} (h : store) (P : A -> store -> Prop) (o : outcome A) : Prop :=
  match o with
  | Ret a h' => h `prefix_of` h' /\ P a h'
  | Throw _ h' => h `prefix_of` h'
  | Stuck => False
  end.

(** What can be observed of [q]: its pairs and what its methods answer. *)
Definition same_observations (h h' : store) (q : loc) : Prop :=
  alist_of h' q = alist_of h q /\
  (forall key, result (value q key h') = result (value q key h)) /\
  (forall key, result (values_of q key h') = result (values_of q key h)) /\
  result (keys q h') = result (keys q h) /\
  result (toString q h') = result (toString q h).

(** The call ended, by a return or by an exception, in a store where [q] is
    observed as before. *)
Definition unchanged_after {A} (h : store) (q : loc) (o : outcome A) : Prop :=
  match o with
  | Ret _ h' => same_observations h h' q
  | Throw _ h' => same_observations h h' q
  | Stuck => False
  end.

(** ** Matches in a context *)

(** [rejects pat B]: matching [pat] at the head of [B] fails on a code unit
    of [B], whatever follows [B]. *)
Fixpoint rejects (pat : list charclass) (B : jsstring) : bool :=
  match pat, B with
  | p :: pat', b :: B' => negb (p b) || rejects pat' B'
  | _, _ => false
  end.

(** [inert pat B]: no match of [pat] starts inside [B]. *)
Fixpoint inert (pat : list charclass) (B : jsstring) : bool :=
  match B with
  | [] => true
  | _ :: B' => rejects pat B && inert pat B'
  end.

(** [blocks pat B]: no match of [pat] that starts before [B] reaches into [B]. *)
Fixpoint blocks (pat : list charclass) (B : jsstring) : bool :=
  match pat with
  | [] => true
  | _ :: pat' => rejects pat B && blocks pat' B
  end.

(** ** Escapes *)

Definition digit (n : Z) : Prop := 0 <= n < 16.

(** The escape written with the digits of values [hi] and [lo]. *)
Definition esc (hi lo : Z) : jsstring := [code "%"; hexdigit hi; hexdigit lo].

(** The code units of a string are 16-bit. *)
Definition code_units (s : jsstring) : Prop := Forall (fun c => 0 <= c < 65536) s.

(** A code unit that is a code point by itself: no surrogate. *)
Definition bmp (c : Z) : Prop := 0 <= c < 65536 /\ ~ (55296 <= c <= 57343).

(** A code point of a string: a code unit that is no surrogate, or the
    value of a surrogate pair. *)
Definition scalar (V : Z) : Prop :=
  (0 <= V < 65536 /\ ~ (55296 <= V <= 57343)) \/ 65536 <= V < 1114112.

(** The code points of a string: a high surrogate pairs with the low
    surrogate that follows it; [None] when a surrogate is left alone. *)
Fixpoint points (s : jsstring) : option (list Z) :=
  match s with
  | [] => Some []
  | C :: t =>
      if low_surrogate C then None
      else if negb (high_surrogate C) then cons C <$> points t
      else
        match t with
        | [] => None
        | kChar :: t' =>
            if low_surrogate kChar then
              cons ((C - 55296) * 1024 + (kChar - 56320) + 65536) <$> points t'
            else None
        end
  end.

(** The three shapes of the escapes of a code point of the Basic
    Multilingual Plane. *)
Inductive escapes (c : Z) : jsstring -> Prop :=
  | escapes_1 h l :
      c < 128 -> digit h -> digit l -> 16 * h + l = c ->
      escapes c (esc h l)
  | escapes_2 h1 l1 h2 l2 :
      128 <= c < 2048 -> digit h1 -> digit l1 -> digit h2 -> digit l2 ->
      16 * h1 + l1 = 192 + c / 64 -> 16 * h2 + l2 = 128 + c mod 64 ->
      escapes c (esc h1 l1 ++ esc h2 l2)
  | escapes_3 h1 l1 h2 l2 h3 l3 :
      2048 <= c < 65536 ->
      digit h1 -> digit l1 -> digit h2 -> digit l2 -> digit h3 -> digit l3 ->
      16 * h1 + l1 = 224 + c / 4096 -> 16 * h2 + l2 = 128 + (c / 64) mod 64 ->
      16 * h3 + l3 = 128 + c mod 64 ->
      escapes c (esc h1 l1 ++ esc h2 l2 ++ esc h3 l3).

(** The escapes of a code point: each with digits, none of them [%20]
    unless the code point is the space. *)
Inductive escape_run (sp : bool) : jsstring -> Prop :=
  | escape_run_nil : escape_run sp []
  | escape_run_cons h l r :
      digit h -> digit l -> (sp = false -> 16 * h + l <> 32) ->
      escape_run sp r -> escape_run sp (esc h l ++ r).

(** A code point, literal when [lit] holds of it and escaped otherwise. *)
Definition piece (lit : Z -> bool) (c : Z) : jsstring :=
  if lit c then [c] else escape_point c.

(** What [encode] writes for a code point: [+] for the space, the code
    point itself when it is unreserved, its escapes otherwise. *)
Definition piece_plus (c : Z) : jsstring :=
  if c =? 32 then str "+" else piece uriUnescaped c.

(** The code points that are literal after the passes of [decode]. *)
Definition lit_plain (c : Z) : bool := uriUnescaped c || (c =? 32).
Definition lit_from (n c : Z) : bool := lit_plain c || (n <=? c).

(** Text made of unreserved characters, [+] and escapes [%XY]. *)
Inductive escaped_text : jsstring -> Prop :=
  | escaped_nil : escaped_text []
  | escaped_unreserved c r :
      uriUnescaped c = true -> escaped_text r -> escaped_text (c :: r)
  | escaped_plus r : escaped_text r -> escaped_text (code "+" :: r)
  | escaped_esc h l r :
      digit h -> digit l -> escaped_text r -> escaped_text (esc h l ++ r).

(** The sentence of the specification on [encode], as it is written, for
    the string [s]: it is encoded, to a text in which all that is not
    unreserved is escaped. *)
Definition encodes (s : jsstring) : Prop :=
  exists r, encode s = Ok r /\ escaped_text r.

(** The three escapes of a lead octet E0..FF and two continuation octets
    80..BF. *)
Inductive triple (b1 b2 b3 : Z) : jsstring -> Prop :=
  | triple_intro h1 l1 h2 l2 h3 l3 :
      digit h1 -> digit l1 -> digit h2 -> digit l2 -> digit h3 -> digit l3 ->
      14 <= h1 -> 8 <= h2 <= 11 -> 8 <= h3 <= 11 ->
      16 * h1 + l1 = b1 -> 16 * h2 + l2 = b2 -> 16 * h3 + l3 = b3 ->
      triple b1 b2 b3 (esc h1 l1 ++ esc h2 l2 ++ esc h3 l3).

(** The sentence of the specification on three escapes: the lead octet
    gives its bits above 0xE0, each continuation octet its six bits above
    0x80; the escapes stay as they are when the lead gives 0 and the second
    octet less than 32 (an overlong form) or when the value exceeds 0xFFFF. *)
Definition packed (b1 b2 b3 : Z) : Z := (b1 - 224) * 4096 + (b2 - 128) * 64 + (b3 - 128).

Definition refused (b1 b2 b3 : Z) : bool :=
  ((b1 - 224 =? 0) && (b2 - 128 <? 32)) || (65535 <? packed b1 b2 b3).

Definition decoded_triple (b1 b2 b3 : Z) : jsstring :=
  if refused b1 b2 b3 then pct_octet b1 ++ pct_octet b2 ++ pct_octet b3
  else [packed b1 b2 b3].

(** ** Examples *)

(** The query string of the documentation and what it parses to. *)
Definition example_text : jsstring := str "?a=b&foo=bar&blank=&foo=baz&missing&&&".

Definition example_pairs : list pair :=
  [ Pair (str "a") (str "a") (Str (str "b")) (Str (str "b"));
    Pair (str "foo") (str "foo") (Str (str "bar")) (Str (str "bar"));
    Pair (str "blank") (str "blank") (Str []) (Str []);
    Pair (str "foo") (str "foo") (Str (str "baz")) (Str (str "baz"));
    Pair (str "missing") (str "missing") Null Null ].

Definition example_dict : dictv :=
  [ (str "a", [Str (str "b")]);
    (str "foo", [Str (str "bar"); Str (str "baz")]);
    (str "blank", [Str []]);
    (str "missing", [Null]) ].

(** The store that [new QueryString("?a=b&c")] leaves when it starts from
    the empty one. *)
Definition small_store : store :=
  [ Obj [(str "a", 3%nat); (str "c", 4%nat)];
    ArrP [Pair (str "a") (str "a") (Str (str "b")) (Str (str "b"));
          Pair (str "c") (str "c") Null Null];
    QS 0 1; ArrV [Str (str "b")]; ArrV [Null] ].


(** ** The contents of an instance *)

(** [q] is an instance whose dictionary holds the values [D] and whose array
    holds the pairs [al].  The property names of a JavaScript object are
    distinct, and nothing in this file gives a dictionary an own property
    [__proto__]. *)
Definition holds (h : store) (q : loc) (D : dictv) (al : list pair) : Prop :=
  dict_of h q = Some D /\ alist_of h q = Some al /\
  NoDup D.*1 /\ str "__proto__" ∉ D.*1.

(** What [mapDict] makes of the dictionary [D] when its callback answers
    [g k vs] for the key [k] with the values [vs]. *)
Definition map_dict (g : jsstring -> list val -> option (list val)) (D : dictv) : dictv :=
  omap (fun e => (fun vs => (e.1, vs)) <$> g e.1 e.2) D.

(** A callback of [mapDict] that only adds objects to the store and answers
    as [g] says: [undefined], or an array with the given values. *)
Definition callback_pure (fkv : jsstring -> loc -> M (option loc))
    (g : jsstring -> list val -> option (list val)) : Prop :=
  forall k l h vs, h !! l = Some (ArrV vs) ->
    exists r ex, fkv k l h = Ret r (h ++ ex) /\
      match g k vs with
      | None => r = None
      | Some vs' => exists l', r = Some l' /\ (h ++ ex) !! l' = Some (ArrV vs')
      end.

(** The callback hands the array of the property [kv] on as it is. *)
Definition keeps (fkv : jsstring -> loc -> M (option loc)) (kv : jsstring * loc) : Prop :=
  forall h, fkv kv.1 kv.2 h = Ret (Some kv.2) h.

(** The array of the key [k] in the dictionary of [q]. *)
Definition own_loc (h : store) (q : loc) (k : jsstring) : option loc :=
  match h !! q with
  | Some (QS d _) =>
      match h !! d with
      | Some (Obj ps) => own ps k
      | _ => None
      end
  | _ => None
  end.

(** What the callbacks of [plus] (for a key that the dictionary has) and of
    [minus] answer. *)
Definition plus_answer (k : jsstring) (v : val) (ok : jsstring) (ovs : list val)
    : option (list val) :=
  Some (if decide (ok ≠ k) then ovs else ovs ++ [v]).

Definition minus_answer (k : jsstring) (v : option val) (ok : jsstring)
    (ovs : list val) : option (list val) :=
  match v with
  | Some v =>
      let vs := List.filter (fun el => bool_decide (el ≠ v)) ovs in
      if decide (length vs = 0)%nat then None else Some vs
  | None => if decide (ok = k) then None else Some ovs
  end.

(** The dictionary after [plus] and after [minus]. *)
Definition add_key (D : dictv) (k : jsstring) (v : val) : dictv :=
  match push_key D k v with
  | Some D' => D'
  | None => if decide (k = str "__proto__") then D else D ++ [(k, [v])]
  end.

Definition minus_dict (D : dictv) (k : jsstring) (v : option val) : dictv :=
  map_dict (minus_answer k v) D.

(** The test of the filter of [minus] on the pairs. *)
Definition matches (k : jsstring) (v : option val) (p : pair) : bool :=
  bool_decide (key_dec p = k)
  && (negb (bool_decide (is_Some v)) || bool_decide (Some (val_dec p) = v)).

Definition minus_alist (al : list pair) (k : jsstring) (v : option val) : list pair :=
  List.filter (fun p => negb (matches k v p)) al.

(** The pair that [plus] adds. *)
Definition new_pair (k : jsstring) (v : val) : res pair :=
  ke ← encode k;
  ve ← encode (ToString v);
  Ok (Pair ke k (Str ve) v).

(** The decoded values of the pairs with the key [k], in order. *)
Definition project (al : list pair) (k : jsstring) : list val :=
  val_dec <$> List.filter (fun p => bool_decide (key_dec p = k)) al.

(** The dictionary is the projection of the pairs grouped by key. *)
Definition grouped (D : dictv) (al : list pair) : Prop :=
  forall k, own_vals D k
            = if decide (project al k = []) then None else Some (project al k).

(** How a call ends: the store only grew; a result satisfies [good], an
    exception [bad]. *)
Definition ends {A} (h : store) (good : A -> store -> Prop) (bad : exn -> Prop)
    (o : outcome A) : Prop :=
  match o with
  | Ret a h' => h `prefix_of` h' /\ good a h'
  | Throw e h' => h `prefix_of` h' /\ bad e
  | Stuck => False
  end.

(** ** What stops the constructor *)

(** The matches of the tokenizer on the text that the constructor parses. *)
Definition tokens (qs : jsstring) : list (jsstring * option jsstring) :=
  exec_all re_pair (strip_question qs).

(** The exception that the match [m] raises in the constructor, if any:
    the one of [decodeURIComponent] on its key, or a TypeError when the
    decoded key names a property of [Object.prototype]. *)
Definition key_error (m : jsstring * option jsstring) : option exn :=
  match decodeURIComponent (plus_to_space m.1) with
  | Raise e => Some e
  | Ok k => if bool_decide (k ∈ Object_prototype) then Some TypeError else None
  end.

(** A pair as the constructor stores it: its key is not empty and holds
    neither [=] nor [&], its value holds no [&], and the decoded forms are
    the decodings of the encoded ones. *)
Definition stored (p : pair) : Prop :=
  wf_tok (tok_of p) /\
  decodeURIComponent (plus_to_space (key_enc p)) = Ok (key_dec p) /\
  val_dec p = match val_enc p with Null => Null | Str s => Str (decode s) end.

(** What the loop keeps: the keys of the dictionary are distinct and none
    of them names a property of [Object.prototype], the dictionary is the
    projection of the pairs, and every pair is stored as parsed. *)
Definition parsed_inv (st : dictv * list pair) : Prop :=
  NoDup st.1.*1 /\ (forall k, k ∈ st.1.*1 -> k ∉ Object_prototype) /\
  grouped st.1 st.2 /\ Forall stored st.2.

(** ** More on [decode] *)

(** [+] read as a space. *)
Definition plus_as_space (c : Z) : Z := if is_char "+" c then code " " else c.

(** What [decode] makes of the two escapes of a lead octet C0..DF and a
    continuation octet 80..BF: the code unit that their bits pack, unless
    the lead gives less than 2 (an overlong form). *)
Definition decoded_pair (b1 b2 : Z) : jsstring :=
  if b1 - 192 <? 2 then pct_octet b1 ++ pct_octet b2
  else [(b1 - 192) * 64 + (b2 - 128)].

(** No [%] of [s] is followed by a digit with which an expression of
    [decode] begins an escape: one of 0-7, C, D, E and F. *)
Fixpoint undecoded (s : jsstring) : bool :=
  match s with
  | [] => true
  | c :: t =>
      (negb (cls_pct c)
       || match t with
          | [] => true
          | d :: _ => negb (cls_07 d || cls_CD d || cls_EF d)
          end)
      && undecoded t
  end.

(** The code units of a code point: itself, or its surrogate pair. *)
Definition units (V : Z) : jsstring :=
  if V <? 65536 then [V]
  else [((V - 65536) / 1024) mod 1024 + 55296; (V - 65536) mod 1024 + 56320].

(** ** More examples *)

(** The contents of [small_store]. *)
Definition small_dict : dictv := [(str "a", [Str (str "b")]); (str "c", [Null])].

Definition small_pairs : list pair :=
  [ Pair (str "a") (str "a") (Str (str "b")) (Str (str "b"));
    Pair (str "c") (str "c") Null Null ].

(** A callback for [mapDict] that drops the key [a]. *)
Definition drop_a (k : jsstring) (l : loc) : option loc :=
  if decide (k = str "a") then None else Some l.

End QueryString.

Import JS QueryString.

(** ** Running the primitives *)

Lemma bind_run {A B} (m : M A) (f : A -> M B) h :
  (m ≫= f) h =
  match m h with
  | Ret a h' => f a h'
  | Throw e h' => Throw e h'
  | Stuck => Stuck
  end.
Proof. reflexivity. Qed.

Lemma bind_ret {A B} (m : M A) (f : A -> M B) h a h' :
  m h = Ret a h' -> (m ≫= f) h = f a h'.
Proof. intros E. rewrite bind_run, E. reflexivity. Qed.

Lemma get_run h l o : h !! l = Some o -> get l h = Ret o h.
Proof. unfold get. intros ->. reflexivity. Qed.

Lemma put_run h l o o' : h !! l = Some o -> put l o' h = Ret tt (<[l:=o']> h).
Proof.
  intros E. unfold put. destruct (decide _) as [|n]; [reflexivity|].
  destruct n. eapply lookup_lt_Some, E.
Qed.

Lemma insert_middle {X} (h : list X) o o' r :
  <[length h:=o']> (h ++ o :: r) = h ++ o' :: r.
Proof.
  replace (length h) with (length h + 0)%nat at 1 by lia.
  rewrite insert_app_r. reflexivity.
Qed.

Section Arrays.
Context `{Elem A}.

Lemma elems_run h l (xs : list A) :
  h !! l = Some (to_obj xs) -> elems l h = Ret xs h.
Proof.
  intros E. unfold elems. rewrite (bind_ret _ _ _ _ _ (get_run _ _ _ E)).
  rewrite of_to_obj. reflexivity.
Qed.

Lemma push_run h l (xs : list A) x :
  h !! l = Some (to_obj xs) ->
  push l x h = Ret tt (<[l:=to_obj (xs ++ [x])]> h).
Proof.
  intros E. unfold push. rewrite (bind_ret _ _ _ _ _ (elems_run _ _ _ E)).
  eapply put_run, E.
Qed.

Lemma slice_run h l (xs : list A) :
  h !! l = Some (to_obj xs) -> slice (A:=A) l h = Ret (length h) (h ++ [to_obj xs]).
Proof.
  intros E. unfold slice. rewrite (bind_ret _ _ _ _ _ (elems_run _ _ _ E)).
  reflexivity.
Qed.

Lemma filter_loop h (fe : A -> bool) xs acc :
  for_each xs (fun x => if fe x then push (length h) x else mret tt)
    (h ++ [to_obj acc])
  = Ret tt (h ++ [to_obj (acc ++ List.filter fe xs)]).
Proof.
  revert acc. induction xs as [|x xs IH]; intros acc; simpl.
  - rewrite app_nil_r. reflexivity.
  - rewrite bind_run. destruct (fe x).
    + erewrite push_run by (apply list_lookup_middle; reflexivity).

      rewrite insert_middle, IH, <- app_assoc. reflexivity.
    + simpl. apply IH.
Qed.

Lemma filter_run h arr (fe : A -> bool) xs :
  h !! arr = Some (to_obj xs) ->
  filter arr fe h = Ret (length h) (h ++ [to_obj (List.filter fe xs)]).
Proof.
  intros E. unfold filter, array, alloc. rewrite bind_run.
  erewrite bind_ret by (apply elems_run, lookup_app_l_Some, E).
  rewrite bind_run, (filter_loop h fe xs []). reflexivity.
Qed.
End Arrays.

Lemma lookup_app_plus {X} (l1 l2 : list X) j :
  (l1 ++ l2) !! (length l1 + j)%nat = l2 !! j.
Proof.
  rewrite lookup_app_r by lia. f_equal. lia.
Qed.

Lemma props_run h d ps : h !! d = Some (Obj ps) -> props d h = Ret ps h.
Proof.
  intros E. unfold props. rewrite (bind_ret _ _ _ _ _ (get_run _ _ _ E)). reflexivity.
Qed.

Lemma fields_run h q d a : h !! q = Some (QS d a) -> fields q h = Ret (d, a) h.
Proof.
  intros E. unfold fields. rewrite (bind_ret _ _ _ _ _ (get_run _ _ _ E)). reflexivity.
Qed.

Lemma set_prop_run h d ps k l :
  h !! d = Some (Obj ps) -> k <> str "__proto__" ->
  set_prop d k l h = Ret tt (<[d:=Obj (set_own ps k l)]> h).
Proof.
  intros E Hk. unfold set_prop. rewrite (bind_ret _ _ _ _ _ (props_run _ _ _ E)).
  destruct (decide _); [contradiction|]. eapply put_run, E.
Qed.

Lemma own_locs_Some D : forall m k l v,
  own (locs_from m D) k = Some l ->
  exists i vs D',
    l = (m + i)%nat /\ D !! i = Some (k, vs) /\
    push_key D k v = Some D' /\
    locs_from m D' = locs_from m D /\
    ((fun kv => ArrV kv.2) <$> D') = <[i:=ArrV (vs ++ [v])]> ((fun kv => ArrV kv.2) <$> D).
Proof.
  induction D as [|[k' vs'] D IH]; intros m k l v; unfold own; simpl.
  - discriminate.
  - case_bool_decide as Hk; simpl in *.
    + intros [= <-]. subst k'. exists 0%nat, vs', ((k, vs' ++ [v]) :: D).
      rewrite decide_True by reflexivity. repeat split. lia.
    + intros Hl. destruct (IH (S m) k l v Hl) as (i & vs & D' & -> & Hi & Hp & Hl' & Hm).
      exists (S i), vs, ((k', vs') :: D').
      rewrite decide_False by assumption. rewrite Hp.
      split; [lia|]. split; [exact Hi|]. split; [reflexivity|]. split.
      * cbn [locs_from]. rewrite Hl'. reflexivity.
      * rewrite !fmap_cons, Hm. reflexivity.
Qed.

Lemma own_locs_None D : forall m k l v,
  own (locs_from m D) k = None ->
  push_key D k v = None /\
  set_own (locs_from m D) k l = locs_from m D ++ [(k, l)].
Proof.
  induction D as [|[k' vs'] D IH]; intros m k l v; unfold own; simpl.
  - split; reflexivity.
  - case_bool_decide as Hk; simpl in *; [discriminate|].
    intros Hl. destruct (IH (S m) k l v Hl) as [Hp Hs].
    rewrite !decide_False by assumption. rewrite Hp, Hs. split; reflexivity.
Qed.

Lemma locs_from_app D : forall m D',
  locs_from m (D ++ D') = locs_from m D ++ locs_from (m + length D) D'.
Proof.
  induction D as [|kv D IH]; intros m D'; simpl.
  - rewrite Nat.add_0_r. reflexivity.
  - rewrite IH. do 3 f_equal. lia.
Qed.

Lemma proto_not_inherited k : k ∉ Object_prototype -> k <> str "__proto__".
Proof.
  intros Hk ->. apply Hk. unfold Object_prototype.
  apply list_elem_of_fmap. exists "__proto__"%string. split; [reflexivity|].
  repeat first [apply list_elem_of_here | apply list_elem_of_further].
Qed.

Lemma layout_length n D al : length (layout n D al) = (3 + length D)%nat.
Proof. unfold layout. simpl. rewrite length_fmap. reflexivity. Qed.

Lemma add_match_run h0 D al m :
  add_match (length h0) (length h0 + 1) m (h0 ++ layout (length h0) D al) =
  match add_pure (D, al) m with
  | Ok st' => Ret tt (h0 ++ layout (length h0) st'.1 st'.2)
  | Raise e => Throw e (h0 ++ layout (length h0) D al)
  end.
Proof.
  unfold add_match, add_pure. simpl.
  rewrite bind_run.
  destruct (decodeURIComponent (plus_to_space m.1)) as [key_dec|e]; simpl; [|reflexivity].
  set (val_enc := match m.2 with None => Null | Some s => Str s end).
  set (val_dec := match val_enc with Null => Null | Str s => Str (decode s) end).
  assert (Hd : (h0 ++ layout (length h0) D al) !! length h0
               = Some (Obj (locs_from (length h0 + 3) D)))
    by apply list_lookup_middle, eq_refl.
  rewrite (bind_ret _ _ _ _ _ (props_run _ _ _ Hd)).
  unfold get_prop.
  destruct (own (locs_from (length h0 + 3) D) key_dec) as [l|] eqn:Hown.
  - destruct (own_locs_Some _ _ _ _ val_dec Hown) as (i & vs & D' & -> & Hi & Hp & Hl & Hm).
    rewrite Hp. simpl.
    rewrite bind_run.
    erewrite (push_run (A:=val)); cycle 1.
    { rewrite <- Nat.add_assoc, lookup_app_plus. simpl.
      rewrite list_lookup_fmap, Hi. reflexivity. }
    erewrite (push_run (A:=pair)); cycle 1.
    { rewrite list_lookup_insert_ne by lia. rewrite lookup_app_plus. reflexivity. }
    f_equal.
    rewrite <- Nat.add_assoc, insert_app_r, insert_app_r. f_equal.
    unfold layout. rewrite Hl, Hm. reflexivity.
  - destruct (own_locs_None _ _ _ (length h0 + 3 + length D)%nat val_dec Hown) as [Hp Hs].
    rewrite Hp. case_bool_decide as Hin; simpl; [reflexivity|].
    rewrite bind_run. unfold array, alloc at 1. rewrite bind_run. simpl.
    rewrite length_app, layout_length.
    erewrite set_prop_run; cycle 1.
    { apply lookup_app_l_Some, Hd. }
    { apply proto_not_inherited, Hin. }
    erewrite (push_run (A:=pair)); cycle 1.
    { rewrite list_lookup_insert_ne by lia. apply lookup_app_l_Some.
      rewrite lookup_app_plus. reflexivity. }
    f_equal.
    replace (length h0 + (3 + length D))%nat with (length h0 + 3 + length D)%nat by lia.
    rewrite Hs, <- app_assoc. unfold layout. rewrite <- !app_comm_cons.
    rewrite insert_middle, insert_app_r. f_equal.
    rewrite locs_from_app, fmap_app. reflexivity.
Qed.

Lemma build_loop_run h0 ms : forall D al,
  for_each ms (add_match (length h0) (length h0 + 1)) (h0 ++ layout (length h0) D al) =
  match build (D, al) ms with
  | (st, None) => Ret tt (h0 ++ layout (length h0) st.1 st.2)
  | (st, Some e) => Throw e (h0 ++ layout (length h0) st.1 st.2)
  end.
Proof.
  induction ms as [|m ms IH]; intros D al; simpl.
  - reflexivity.
  - rewrite bind_run, add_match_run.
    destruct (add_pure (D, al) m) as [[D' al']|e]; simpl.
    + apply IH.
    + reflexivity.
Qed.

Lemma QueryString_run location_search arg h :
  QueryString location_search arg h =
  match parsed (source location_search arg) with
  | (st, None) => Ret (length h + 2)%nat (h ++ layout (length h) st.1 st.2)
  | (st, Some e) => Throw e (h ++ layout (length h) st.1 st.2)
  end.
Proof.
  unfold QueryString, parsed, source.
  set (qs := match arg with Some qs => qs | None => location_search end).
  unfold array, alloc. rewrite !bind_run. simpl.
  rewrite !length_app. simpl.
  replace (length h + 1 + 1)%nat with (length h + 2)%nat by lia.
  replace (((h ++ [Obj []]) ++ [ArrP []]) ++ [QS (length h) (length h + 1)])
    with (h ++ layout (length h) [] []).
  2:{ unfold layout. simpl. rewrite <- !app_assoc. reflexivity. }
  rewrite build_loop_run.
  destruct (build _ _) as [st [e|]]; reflexivity.
Qed.

(** ** Serialization *)

Lemma toString_body_item ret p : toString_body ret p = ret ++ str "&" ++ item p.
Proof.
  unfold toString_body, item. destruct (val_enc p); rewrite <- ?app_assoc.
  - rewrite app_nil_r. reflexivity.
  - reflexivity.
Qed.

Lemma toString_loop al : forall ret,
  fold_left toString_body al ret = ret ++ concat ((fun p => str "&" ++ item p) <$> al).
Proof.
  induction al as [|p al IH]; intros ret; simpl.
  - rewrite app_nil_r. reflexivity.
  - rewrite IH, toString_body_item, <- !app_assoc. reflexivity.
Qed.

Lemma join_amp_cons x y r : join_amp (x :: y :: r) = x ++ str "&" ++ join_amp (y :: r).
Proof. reflexivity. Qed.

Lemma concat_amp_join al : forall p,
  concat ((fun p => str "&" ++ item p) <$> (p :: al))
  = str "&" ++ join_amp (item <$> (p :: al)).
Proof.
  induction al as [|p' al IH]; intros p.
  - simpl. rewrite app_nil_r. reflexivity.
  - rewrite fmap_cons, concat_cons, IH, !fmap_cons, join_amp_cons, <- !app_assoc.
    reflexivity.
Qed.

Lemma alist_of_Some h q al :
  alist_of h q = Some al ->
  exists d a, h !! q = Some (QS d a) /\ h !! a = Some (ArrP al).
Proof.
  unfold alist_of. destruct (h !! q) as [[| | |d a]|]; try discriminate.
  destruct (h !! a) as [[| ps | |]|] eqn:E; try discriminate.
  intros [= ->]. eauto.
Qed.

Lemma get_alist_run h q d a : h !! q = Some (QS d a) -> get_alist q h = Ret a h.
Proof. intros E. unfold get_alist. rewrite (bind_ret _ _ _ _ _ (fields_run _ _ _ _ E)). reflexivity. Qed.

Lemma get_dict_run h q d a : h !! q = Some (QS d a) -> get_dict q h = Ret d h.
Proof. intros E. unfold get_dict. rewrite (bind_ret _ _ _ _ _ (fields_run _ _ _ _ E)). reflexivity. Qed.

Lemma elems_pairs h a (al : list pair) :
  h !! a = Some (ArrP al) -> elems a h = Ret al h.
Proof. exact (elems_run (A:=pair) h a al). Qed.

Lemma elems_vals h l (vs : list val) :
  h !! l = Some (ArrV vs) -> elems l h = Ret vs h.
Proof. exact (elems_run (A:=val) h l vs). Qed.

Lemma toString_run h q al :
  alist_of h q = Some al -> toString q h = Ret (render al) h.
Proof.
  intros (d & a & Hq & Ha)%alist_of_Some. unfold toString.
  rewrite (bind_ret _ _ _ _ _ (get_alist_run _ _ _ _ Hq)).
  rewrite (bind_ret _ _ _ _ _ (elems_pairs _ _ _ Ha)).
  destruct al as [|p al]; [reflexivity|].
  destruct (decide _) as [E|_]; [discriminate|].
  unfold render. fold toString_body. rewrite toString_loop, concat_amp_join.
  reflexivity.
Qed.

(** ** The tokenizer *)

Lemma item_text p : item p = text (tok_of p).
Proof. unfold item, text, tok_of. simpl. destruct (val_enc p); reflexivity. Qed.

Lemma span_Forall p s : Forall (fun c => p c = true) (span p s).1.
Proof.
  induction s as [|c s IH]; simpl; [constructor|].
  destruct (p c) eqn:E; [|constructor].
  destruct (span p s) as [a b]. simpl in *. constructor; assumption.
Qed.

Lemma span_app p a r :
  Forall (fun c => p c = true) a ->
  (r = [] \/ exists c r', r = c :: r' /\ p c = false) ->
  span p (a ++ r) = (a, r).
Proof.
  intros Ha Hr. induction Ha as [|c a Hc Ha IH]; simpl.
  - destruct Hr as [->|(c & r' & -> & Hc)]; simpl; [reflexivity|].
    rewrite Hc. reflexivity.
  - rewrite Hc, IH. reflexivity.
Qed.

Lemma re_pair_wf s m len : re_pair s = Some (m, len) -> wf_tok m.
Proof.
  unfold re_pair. pose proof (span_Forall not_eq_amp s) as Hk.
  destruct (span not_eq_amp s) as [k r]. simpl in Hk.
  destruct k as [|c k]; [discriminate|].
  destruct r as [|c' r'].
  - intros [= <- _]. repeat split; [discriminate | assumption].
  - destruct (c' =? code "=")%Z.
    + pose proof (span_Forall not_amp r') as Hv.
      destruct (span not_amp r') as [v r'']. simpl in Hv.
      intros [= <- _]. repeat split; [discriminate | assumption | assumption].
    + intros [= <- _]. repeat split; [discriminate | assumption].
Qed.

Lemma scan_wf s : forall skip,
  Forall (fun x => match x with inl _ => True | inr m => wf_tok m end)
    (scan re_pair skip s).
Proof.
  induction s as [|c s IH]; intros skip; simpl; [constructor|].
  destruct skip; [|apply IH].
  destruct (re_pair (c :: s)) as [[m len]|] eqn:E.
  - constructor; [eapply re_pair_wf, E | apply IH].
  - constructor; [exact I | apply IH].
Qed.

Lemma exec_all_wf s : Forall wf_tok (exec_all re_pair s).
Proof.
  unfold exec_all. induction (scan_wf s 0) as [|x l Hx Hl IH]; simpl; [constructor|].
  destruct x; [exact IH | constructor; assumption].
Qed.

Lemma stops_not_eq_amp r :
  stops r -> r = [] \/ exists c r', r = c :: r' /\ not_eq_amp c = false.
Proof. intros [->|[r' ->]]; [left; reflexivity | right; eexists _, _; split; reflexivity]. Qed.

Lemma stops_not_amp r :
  stops r -> r = [] \/ exists c r', r = c :: r' /\ not_amp c = false.
Proof. intros [->|[r' ->]]; [left; reflexivity | right; eexists _, _; split; reflexivity]. Qed.

Lemma re_pair_text t r :
  wf_tok t -> stops r -> re_pair (text t ++ r) = Some (t, length (text t)).
Proof.
  destruct t as [k [v|]]; intros (Hne & Hk & Hv) Hr; unfold text, re_pair; simpl in *.
  - rewrite <- app_assoc.
    rewrite (span_app not_eq_amp k) by
      (try assumption; right; eexists _, _; split; reflexivity).
    destruct k as [|c k]; [contradiction|]. simpl.
    rewrite (span_app not_amp v r Hv (stops_not_amp r Hr)).
    do 3 f_equal. rewrite length_app. simpl. lia.
  - rewrite app_nil_r.
    rewrite (span_app not_eq_amp k r Hk (stops_not_eq_amp r Hr)).
    destruct k as [|c k]; [contradiction|].
    destruct Hr as [->|[r' ->]]; reflexivity.
Qed.

Section ScanFacts.
Context {X : Type} (re : jsstring -> option (X * nat)).

Lemma scan_skip a r : scan re (length a) (a ++ r) = scan re 0 r.
Proof. induction a as [|c a IH]; simpl; [reflexivity | exact IH]. Qed.

Lemma scan_match a r m :
  a <> [] -> re (a ++ r) = Some (m, length a) ->
  scan re 0 (a ++ r) = inr m :: scan re 0 r.
Proof.
  destruct a as [|c a]; [contradiction|]. intros _ E.
  simpl in *. rewrite E. simpl. rewrite scan_skip. reflexivity.
Qed.

Lemma scan_miss c r : re (c :: r) = None -> scan re 0 (c :: r) = inl c :: scan re 0 r.
Proof. intros E. simpl. rewrite E. reflexivity. Qed.
End ScanFacts.

Lemma text_nonempty t : wf_tok t -> text t <> [].
Proof.
  intros (Hne & _) E. apply Hne. unfold text in E.
  apply app_eq_nil in E. tauto.
Qed.

Lemma exec_join toks :
  Forall wf_tok toks -> exec_all re_pair (join_amp (text <$> toks)) = toks.
Proof.
  unfold exec_all. induction 1 as [|t toks Ht Hts IH]; [reflexivity|].
  destruct toks as [|t' toks].
  - simpl. rewrite <- (app_nil_r (text t)).
    rewrite (scan_match re_pair (text t) [] t (text_nonempty t Ht)).
    + reflexivity.
    + apply re_pair_text; [assumption | left; reflexivity].
  - change (join_amp (text <$> t :: t' :: toks))
      with (text t ++ code "&" :: join_amp (text <$> t' :: toks)).
    rewrite (scan_match re_pair (text t) _ t (text_nonempty t Ht)).
    + rewrite scan_miss by reflexivity.
      cbn [omap list_omap]. rewrite IH. reflexivity.
    + apply re_pair_text; [assumption | right; eexists; reflexivity].
Qed.

Lemma add_pure_alist st m st' :
  add_pure st m = Ok st' -> tok_of <$> st'.2 = (tok_of <$> st.2) ++ [m].
Proof.
  unfold add_pure. destruct m as [k v]. simpl.
  destruct (decodeURIComponent _) as [kd|]; simpl; [|discriminate].
  destruct (push_key _ _ _) as [D'|]; simpl.
  - intros [= <-]. simpl. rewrite fmap_app. simpl. unfold tok_of at 2; simpl.
    destruct v; reflexivity.
  - case_bool_decide; simpl; [discriminate|].
    intros [= <-]. simpl. rewrite fmap_app. simpl. unfold tok_of at 2; simpl.
    destruct v; reflexivity.
Qed.

Lemma build_alist ms : forall st st',
  build st ms = (st', None) -> tok_of <$> st'.2 = (tok_of <$> st.2) ++ ms.
Proof.
  induction ms as [|m ms IH]; intros st st'; simpl.
  - intros [= <-]. rewrite app_nil_r. reflexivity.
  - destruct (add_pure st m) as [st1|] eqn:E; [|discriminate].
    intros Hb. rewrite (IH _ _ Hb), (add_pure_alist _ _ _ E), <- app_assoc. reflexivity.
Qed.

Lemma strip_render al :
  strip_question (render al) = join_amp (text <$> (tok_of <$> al)).
Proof.
  destruct al as [|p al]; [reflexivity|].
  unfold render. rewrite <- list_fmap_compose.
  rewrite (list_fmap_ext item (text ∘ tok_of) (p :: al)) by (intros; apply item_text).
  reflexivity.
Qed.

Lemma parsed_render t st :
  parsed t = (st, None) -> parsed (render st.2) = (st, None).
Proof.
  unfold parsed. intros Hb. pose proof (build_alist _ _ _ Hb) as Hal. simpl in Hal.
  pose proof (exec_all_wf (strip_question t)) as Hwf. rewrite <- Hal in Hwf, Hb.
  rewrite strip_render, exec_join by exact Hwf.
  exact Hb.
Qed.

Lemma alist_of_layout h D al :
  alist_of (h ++ layout (length h) D al) (length h + 2) = Some al.
Proof.
  unfold alist_of. rewrite !lookup_app_plus. simpl.
  rewrite lookup_app_plus. reflexivity.
Qed.

(** Claim C7.  Serializing, parsing again and serializing gives the same
    text: when [new QueryString(t)] returns [q] and [q.toString()] is [s],
    then [new QueryString(s)] returns an instance whose [toString()] is [s]
    again.  Nothing is required of [t]: the tokens the constructor keeps
    never hold a separator that would split them differently. *)
Theorem toString_roundtrip location_search t h q h1 s h2 :
  QueryString location_search (Some t) h = Ret q h1 ->
  toString q h1 = Ret s h2 ->
  exists q' h3,
    QueryString location_search (Some s) h2 = Ret q' h3 /\
    toString q' h3 = Ret s h3.
Proof.
  rewrite QueryString_run. simpl.
  destruct (parsed t) as [st [e|]] eqn:Hp; [discriminate|].
  intros [= <- <-]. rewrite (toString_run _ _ _ (alist_of_layout _ _ _)).
  intros [= <- <-].
  rewrite QueryString_run. simpl. rewrite (parsed_render _ _ Hp).
  eexists _, _. split; [reflexivity|].
  apply toString_run, alist_of_layout.
Qed.

(** The same for the two kinds of arrays. *)
Lemma slice_vals h l (vs : list val) :
  h !! l = Some (ArrV vs) -> slice (A:=val) l h = Ret (length h) (h ++ [ArrV vs]).
Proof. exact (slice_run (A:=val) h l vs). Qed.

Lemma slice_pairs h l (al : list pair) :
  h !! l = Some (ArrP al) -> slice (A:=pair) l h = Ret (length h) (h ++ [ArrP al]).
Proof. exact (slice_run (A:=pair) h l al). Qed.

Lemma push_vals h l (vs : list val) v :
  h !! l = Some (ArrV vs) -> push l v h = Ret tt (<[l:=ArrV (vs ++ [v])]> h).
Proof. exact (push_run (A:=val) h l vs v). Qed.

Lemma push_pairs h l (al : list pair) p :
  h !! l = Some (ArrP al) -> push l p h = Ret tt (<[l:=ArrP (al ++ [p])]> h).
Proof. exact (push_run (A:=pair) h l al p). Qed.

Lemma filter_vals h l (fe : val -> bool) vs :
  h !! l = Some (ArrV vs) ->
  filter l fe h = Ret (length h) (h ++ [ArrV (List.filter fe vs)]).
Proof. exact (filter_run (A:=val) h l fe vs). Qed.

Lemma filter_pairs h l (fe : pair -> bool) al :
  h !! l = Some (ArrP al) ->
  filter l fe h = Ret (length h) (h ++ [ArrP (List.filter fe al)]).
Proof. exact (filter_run (A:=pair) h l fe al). Qed.

(** ** Dictionaries of arrays *)

Lemma is_arr_app h ex l : is_arr h l -> is_arr (h ++ ex) l.
Proof. intros [vs E]. exists vs. apply lookup_app_l_Some, E. Qed.

Lemma is_arr_insert h l0 o l :
  (forall vs, h !! l0 <> Some (ArrV vs)) -> is_arr h l -> is_arr (<[l0:=o]> h) l.
Proof.
  intros Hk [vs E]. exists vs. rewrite list_lookup_insert_ne; [exact E|].
  intros ->. eapply Hk, E.
Qed.

Lemma is_arr_swap h o o' ex l :
  (forall vs, o <> ArrV vs) -> is_arr (h ++ o :: ex) l -> is_arr (h ++ o' :: ex) l.
Proof.
  intros Ho [vs E]. exists vs. destruct (decide (l = length h)) as [->|Hne].
  - rewrite list_lookup_middle in E by reflexivity. injection E as E.
    destruct (Ho _ E).
  - rewrite <- (insert_middle h o o'), list_lookup_insert_ne by congruence. exact E.
Qed.

Lemma Forall_set_own (P : jsstring * loc -> Prop) ps k l :
  Forall P ps -> P (k, l) -> Forall P (set_own ps k l).
Proof.
  intros Hps Hkl. induction Hps as [|[k' l'] ps Hx Hps IH]; simpl.
  - constructor; [assumption | constructor].
  - destruct (decide _); constructor; assumption.
Qed.

Lemma hasOwnProperty_run h d ps k :
  h !! d = Some (Obj ps) ->
  hasOwnProperty d k h =
  match own ps (str "hasOwnProperty") with
  | Some _ => Throw TypeError h
  | None => Ret (bool_decide (is_Some (own ps k))) h
  end.
Proof.
  intros E. unfold hasOwnProperty.
  rewrite (bind_ret _ _ _ _ _ (props_run _ _ _ E)).
  destruct (own ps _); reflexivity.
Qed.

Lemma mapDict_loop fkv h d ps0 :
  callback_ok fkv ->
  h !! d = Some (Obj ps0) -> own ps0 (str "hasOwnProperty") = None ->
  forall rest acc ex,
  Forall (fun kv => is_arr h kv.2) rest ->
  Forall (fun kv => is_arr (h ++ Obj acc :: ex) kv.2) acc ->
  exists acc' ex',
    for_each rest (fun kv =>
      has ← hasOwnProperty d kv.1;
      if negb has then mret tt
      else
        replace ← fkv kv.1 kv.2;
        match replace with
        | Some r => set_prop (length h) kv.1 r
        | None => mret tt
        end) (h ++ Obj acc :: ex)
    = Ret tt (h ++ Obj acc' :: ex') /\
    Forall (fun kv => is_arr (h ++ Obj acc' :: ex') kv.2) acc'.
Proof.
  intros Hcb Hd Hsh. induction rest as [|[k l] rest IH]; intros acc ex Hrest Hacc; simpl.
  - eauto.
  - inversion Hrest as [|? ? Hl Hrest']; subst. simpl in Hl.
    rewrite bind_run. cbn beta. cbn [fst snd].
    rewrite bind_run, (hasOwnProperty_run _ d ps0) by (apply lookup_app_l_Some, Hd).
    rewrite Hsh. destruct (bool_decide (is_Some (own ps0 k))); cbn [negb].
    2:{ apply IH; assumption. }
    destruct (Hcb k l (h ++ Obj acc :: ex)) as (r & ex1 & Hrun & Hr).
    { apply is_arr_app, Hl. }
    rewrite bind_run, Hrun.
    assert (Hshape : (h ++ Obj acc :: ex) ++ ex1 = h ++ Obj acc :: (ex ++ ex1))
      by (rewrite <- app_assoc; reflexivity).
    assert (Hacc1 : Forall (fun kv => is_arr (h ++ Obj acc :: (ex ++ ex1)) kv.2) acc).
    { rewrite <- Hshape. eapply Forall_impl; [exact Hacc|]. intros ?; apply is_arr_app. }
    destruct r as [l'|]; simpl.
    + specialize (Hr l' eq_refl). rewrite Hshape in *.
      unfold set_prop.
      rewrite (bind_ret _ _ _ _ _ (props_run _ _ acc (list_lookup_middle _ _ _ _ eq_refl))).
      destruct (decide _).
      * simpl. apply IH; assumption.
      * erewrite put_run by (apply list_lookup_middle; reflexivity).
        rewrite insert_middle. apply IH; [assumption|].
        apply Forall_set_own.
        -- eapply Forall_impl; [exact Hacc1|]. intros kv.
           apply is_arr_swap. discriminate.
        -- revert Hr. apply is_arr_swap. discriminate.
    + rewrite Hshape. apply IH; assumption.
Qed.

Lemma own_nonempty ps k l : own ps k = Some l -> ps <> [].
Proof. intros E ->. discriminate E. Qed.

Lemma mapDict_run fkv h d ps :
  callback_ok fkv ->
  h !! d = Some (Obj ps) ->
  Forall (fun kv => is_arr h kv.2) ps ->
  match own ps (str "hasOwnProperty") with
  | None =>
      exists ps' ex,
        mapDict d fkv h = Ret (length h) (h ++ Obj ps' :: ex) /\
        Forall (fun kv => is_arr (h ++ Obj ps' :: ex) kv.2) ps'
  | Some _ => mapDict d fkv h = Throw TypeError (h ++ [Obj []])
  end.
Proof.
  intros Hcb Hd Hps. unfold mapDict, alloc. rewrite bind_run.
  erewrite bind_ret by (apply props_run, lookup_app_l_Some, Hd).
  destruct (own ps (str "hasOwnProperty")) as [l0|] eqn:Hsh.
  - destruct ps as [|kv ps]; [discriminate Hsh|]. simpl for_each.
    rewrite !bind_run.
    rewrite (hasOwnProperty_run _ d (kv :: ps)) by (apply lookup_app_l_Some, Hd).
    rewrite Hsh. reflexivity.
  - destruct (mapDict_loop fkv h d ps Hcb Hd Hsh ps [] [] Hps) as (acc' & ex' & Hrun & Hacc').
    { constructor. }
    rewrite bind_run, Hrun. eauto.
Qed.

(** ** Instances *)

Lemma prefix_insert (h H : store) l o :
  h `prefix_of` H -> (length h <= l)%nat -> h `prefix_of` <[l:=o]> H.
Proof.
  intros [Y ->] Hl. exists (<[l - length h:=o]> Y).
  apply insert_app_r_alt, Hl.
Qed.

Lemma prefix_snoc (h H : store) ex : h `prefix_of` H -> h `prefix_of` H ++ ex.
Proof. apply prefix_app_r. Qed.

Lemma instance_layout h D al : instance (h ++ layout (length h) D al) (length h + 2).
Proof.
  exists (length h), (length h + 1)%nat, (locs_from (length h + 3) D), al.
  split; [rewrite lookup_app_plus; reflexivity|].
  split; [apply list_lookup_middle; reflexivity|].
  split; [rewrite lookup_app_plus; reflexivity|].
  unfold layout.
  assert (G : forall D m, Forall (fun kv : jsstring * nat =>
            exists i vs, kv.2 = (m + i)%nat /\ ((fun kv => ArrV kv.2) <$> D) !! i = Some (ArrV vs))
            (locs_from m D)).
  { clear. induction D as [|[k vs] D IH]; intros m; simpl; constructor.
    - exists 0%nat, vs. split; [simpl; lia | reflexivity].
    - eapply Forall_impl; [apply IH|]. intros kv (i & vs' & -> & E).
      exists (S i), vs'. split; [lia | exact E]. }
  eapply Forall_impl; [apply G|]. intros kv (i & vs & -> & E). exists vs.
  rewrite <- Nat.add_assoc, lookup_app_plus. exact E.
Qed.

(** The constructor only adds to the store, and what it returns is an
    instance. *)
Lemma QueryString_grows location_search arg h :
  grows h (fun q h' => instance h' q) (QueryString location_search arg h).
Proof.
  rewrite QueryString_run. destruct (parsed _) as [st [e|]]; simpl.
  - apply prefix_app_r. reflexivity.
  - split; [apply prefix_app_r; reflexivity | apply instance_layout].
Qed.

Lemma callback_plus k (v : val) :
  callback_ok (fun ok ovs =>
    if decide (ok ≠ k) then mret (Some ovs)
    else
      retVs ← slice (A:=val) ovs;
      push retVs v;;
      mret (Some retVs)).
Proof.
  intros ok l h [vs E]. destruct (decide _).
  - exists (Some l), []. rewrite app_nil_r. split; [reflexivity|].
    intros ? [= <-]. exists vs. exact E.
  - exists (Some (length h)), [ArrV (vs ++ [v])].
    rewrite bind_run. rewrite (slice_vals h l vs E).
    rewrite bind_run.
    rewrite (push_vals _ _ vs) by (apply list_lookup_middle; reflexivity).
    rewrite insert_middle. split; [reflexivity|].
    intros ? [= <-]. eexists. apply list_lookup_middle. reflexivity.
Qed.

Lemma callback_share : callback_ok (fun _ vs => mret (Some vs)).
Proof.
  intros ok l h Hl. exists (Some l), []. rewrite app_nil_r. split; [reflexivity|].
  intros ? [= <-]. exact Hl.
Qed.

Lemma callback_minus k (v : option val) :
  callback_ok (fun ok ovs =>
    match v with
    | Some v =>
        vs ← filter ovs (fun el => bool_decide (el ≠ v));
        xs ← elems (A:=val) vs;
        mret (if decide (length xs = 0)%nat then None else Some vs)
    | None => mret (if decide (ok = k) then None else Some ovs)
    end).
Proof.
  intros ok l h [vs E]. destruct v as [v|].
  - eexists _, [ArrV _]. rewrite bind_run.
    rewrite (filter_vals h l _ vs E).
    erewrite bind_ret by (apply elems_vals, list_lookup_middle; reflexivity).
    split; [reflexivity|].
    intros l'. destruct (decide _); intros [= <-].
    eexists. apply list_lookup_middle. reflexivity.
  - eexists _, []. rewrite app_nil_r. split; [reflexivity|].
    intros l'. destruct (decide _); intros [= <-]. exists vs. exact E.
Qed.

Lemma set_dict_run h r d a nd :
  h !! r = Some (QS d a) -> set_dict r nd h = Ret tt (<[r:=QS nd a]> h).
Proof.
  intros E. unfold set_dict.
  rewrite (bind_ret _ _ _ _ _ (fields_run _ _ _ _ E)). eapply put_run, E.
Qed.

Lemma set_alist_run h r d a na :
  h !! r = Some (QS d a) -> set_alist r na h = Ret tt (<[r:=QS d na]> h).
Proof.
  intros E. unfold set_alist.
  rewrite (bind_ret _ _ _ _ _ (fields_run _ _ _ _ E)). eapply put_run, E.
Qed.

Lemma lift_run {A} (r : res A) h :
  lift r h = match r with Ok a => Ret a h | Raise e => Throw e h end.
Proof. destruct r; reflexivity. Qed.

(** The instance [r] once its array of pairs is replaced by [na]. *)
Lemma instance_fresh_alist Hm r nd a0 ps' (al' : list pair) :
  Hm !! r = Some (QS nd a0) ->
  Hm !! nd = Some (Obj ps') ->
  Forall (fun kv => is_arr Hm kv.2) ps' ->
  instance (<[r:=QS nd (length Hm)]> (Hm ++ [ArrP al'])) r.
Proof.
  intros Hr Hnd Hps'.
  pose proof (lookup_lt_Some _ _ _ Hr) as Hlr.
  exists nd, (length Hm), ps', al'.
  split; [apply list_lookup_insert_eq; rewrite length_app; lia|].
  split.
  { rewrite list_lookup_insert_ne by congruence. apply lookup_app_l_Some, Hnd. }
  split.
  { rewrite list_lookup_insert_ne by lia. apply list_lookup_middle. reflexivity. }
  eapply Forall_impl; [exact Hps'|]. intros kv Hkv.
  apply is_arr_insert.
  - intros vs. rewrite (lookup_app_l_Some _ _ _ _ Hr). discriminate.
  - apply is_arr_app, Hkv.
Qed.

Lemma plus_tail h q d a al r nd a0 ps' k (v : val) Hm :
  h `prefix_of` Hm -> (length h <= r)%nat ->
  Hm !! q = Some (QS d a) -> Hm !! a = Some (ArrP al) ->
  Hm !! r = Some (QS nd a0) -> Hm !! nd = Some (Obj ps') ->
  Forall (fun kv => is_arr Hm kv.2) ps' ->
  grows h (fun q' h' => instance h' q')
    ((a ← get_alist q;
      na ← slice (A:=pair) a;
      set_alist r na;;
      ra ← get_alist r;
      ke ← lift (encode k);
      ve ← lift (encode (ToString v));
      push ra (Pair ke k (Str ve) v);;
      mret r) Hm).
Proof.
  intros Hpre Hr0 Hq Ha Hr Hnd Hps'.
  pose proof (lookup_lt_Some _ _ _ Hr) as Hlr.
  pose proof (prefix_length _ _ Hpre) as Hlen.
  rewrite (bind_ret _ _ _ _ _ (get_alist_run _ _ _ _ Hq)).
  rewrite (bind_ret _ _ _ _ _ (slice_pairs _ _ _ Ha)).
  rewrite bind_run.
  rewrite (set_alist_run _ r nd a0) by (apply lookup_app_l_Some, Hr).
  set (H7 := <[r:=QS nd (length Hm)]> (Hm ++ [ArrP al])).
  assert (Hr7 : H7 !! r = Some (QS nd (length Hm))).
  { apply list_lookup_insert_eq. rewrite length_app. lia. }
  assert (Hpre7 : h `prefix_of` H7).
  { apply prefix_insert; [apply prefix_snoc, Hpre | exact Hr0]. }
  rewrite (bind_ret _ _ _ _ _ (get_alist_run _ _ _ _ Hr7)).
  rewrite bind_run, lift_run. destruct (encode k) as [ke|e]; [|exact Hpre7].
  rewrite bind_run, lift_run. destruct (encode (ToString v)) as [ve|e]; [|exact Hpre7].
  rewrite bind_run.
  erewrite (push_pairs H7 (length Hm) al); cycle 1.
  { unfold H7. rewrite list_lookup_insert_ne by lia. apply list_lookup_middle. reflexivity. }
  simpl. split.
  - apply prefix_insert; [exact Hpre7 | lia].
  - unfold H7. rewrite list_insert_insert_ne by lia.
    rewrite insert_middle.
    apply (instance_fresh_alist Hm r nd a0 ps'); assumption.
Qed.

Theorem plus_grows location_search h q k v :
  instance h q ->
  grows h (fun q' h' => instance h' q') (plus location_search q k v h).
Proof.
  intros (d & a & ps & al & Hq & Hd & Ha & Hps).
  unfold plus. rewrite bind_run, QueryString_run.
  destruct (parsed _) as [[D0 al0] [e|]]; simpl fst; simpl snd.
  { apply prefix_app_r. reflexivity. }
  set (n := length h).
  set (H1 := h ++ layout n D0 al0).
  assert (Hpre1 : h `prefix_of` H1) by (apply prefix_app_r; reflexivity).
  assert (Hq1 : H1 !! q = Some (QS d a)) by apply lookup_app_l_Some, Hq.
  assert (Hd1 : H1 !! d = Some (Obj ps)) by apply lookup_app_l_Some, Hd.
  assert (Ha1 : H1 !! a = Some (ArrP al)) by apply lookup_app_l_Some, Ha.
  assert (Hps1 : Forall (fun kv => is_arr H1 kv.2) ps).
  { eapply Forall_impl; [exact Hps|]. intros ?. apply is_arr_app. }
  assert (Hr1 : H1 !! (n + 2)%nat = Some (QS n (n + 1))).
  { unfold H1, n. rewrite lookup_app_plus. reflexivity. }
  rewrite (bind_ret _ _ _ _ _ (get_dict_run _ _ _ _ Hq1)).
  rewrite bind_run, (hasOwnProperty_run _ _ _ k Hd1).
  destruct (own ps (str "hasOwnProperty")) as [l0|] eqn:Hsh; [exact Hpre1|].
  rewrite bind_run.
  destruct (bool_decide (is_Some (own ps k))).
  - pose proof (mapDict_run _ H1 d ps (callback_plus k v) Hd1 Hps1) as Hmd.
    rewrite Hsh in Hmd. destruct Hmd as (ps' & ex & Hrun & Hps').
    rewrite bind_run, Hrun.
    rewrite (set_dict_run _ (n + 2) n (n + 1)) by (apply lookup_app_l_Some, Hr1).
    eapply (plus_tail h q d a al (n + 2) (length H1) (n + 1) ps').
    + apply prefix_insert; [apply prefix_snoc, Hpre1 | lia].
    + lia.
    + rewrite list_lookup_insert_ne
        by (apply lookup_lt_Some in Hq; fold n in Hq; lia).
      apply lookup_app_l_Some, Hq1.
    + rewrite list_lookup_insert_ne
        by (intros <-; rewrite Hr1 in Ha1; discriminate).
      apply lookup_app_l_Some, Ha1.
    + apply list_lookup_insert_eq. apply lookup_lt_Some in Hr1.
      rewrite length_app. lia.
    + rewrite list_lookup_insert_ne by (apply lookup_lt_Some in Hr1; lia).
      apply list_lookup_middle. reflexivity.
    + eapply Forall_impl; [exact Hps'|]. intros kv. apply is_arr_insert.
      intros vs. rewrite (lookup_app_l_Some _ _ _ _ Hr1). discriminate.
  - pose proof (mapDict_run _ H1 d ps callback_share Hd1 Hps1) as Hmd.
    rewrite Hsh in Hmd. destruct Hmd as (ps' & ex & Hrun & Hps').
    rewrite bind_run, Hrun.
    rewrite bind_run.
    rewrite (set_dict_run _ (n + 2) n (n + 1)) by (apply lookup_app_l_Some, Hr1).
    set (H3 := <[(n + 2)%nat:=QS (length H1) (n + 1)]> (H1 ++ Obj ps' :: ex)).
    assert (Hlr : (n + 2 < length H1)%nat) by (apply lookup_lt_Some in Hr1; exact Hr1).
    assert (Hr3 : H3 !! (n + 2)%nat = Some (QS (length H1) (n + 1))).
    { apply list_lookup_insert_eq. rewrite length_app. lia. }
    assert (Hnd3 : H3 !! length H1 = Some (Obj ps')).
    { unfold H3. rewrite list_lookup_insert_ne by lia. apply list_lookup_middle. reflexivity. }
    assert (Hps3 : Forall (fun kv => is_arr H3 kv.2) ps').
    { eapply Forall_impl; [exact Hps'|]. intros kv. apply is_arr_insert.
      intros vs. rewrite (lookup_app_l_Some _ _ _ _ Hr1). discriminate. }
    assert (Hpre3 : h `prefix_of` H3).
    { apply prefix_insert; [apply prefix_snoc, Hpre1 | lia]. }
    assert (Hq3 : H3 !! q = Some (QS d a)).
    { unfold H3. rewrite list_lookup_insert_ne
        by (apply lookup_lt_Some in Hq; fold n in Hq; lia).
      apply lookup_app_l_Some, Hq1. }
    assert (Ha3 : H3 !! a = Some (ArrP al)).
    { unfold H3. rewrite list_lookup_insert_ne
        by (intros <-; rewrite Hr1 in Ha1; discriminate).
      apply lookup_app_l_Some, Ha1. }
    rewrite (bind_ret _ _ _ _ _ (get_dict_run _ _ _ _ Hr3)).
    unfold array, alloc at 1. rewrite bind_run.
    unfold set_prop.
    erewrite bind_ret by (apply props_run, lookup_app_l_Some, Hnd3).
    destruct (decide (k = str "__proto__")).
    + eapply (plus_tail h q d a al (n + 2) (length H1) (n + 1) ps').
      * apply prefix_snoc, Hpre3.
      * lia.
      * apply lookup_app_l_Some, Hq3.
      * apply lookup_app_l_Some, Ha3.
      * apply lookup_app_l_Some, Hr3.
      * apply lookup_app_l_Some, Hnd3.
      * eapply Forall_impl; [exact Hps3|]. intros kv. apply is_arr_app.
    + erewrite put_run by (apply lookup_app_l_Some, Hnd3).
      assert (Hnd_lt : (length H1 < length H3)%nat) by (apply lookup_lt_Some in Hnd3; exact Hnd3).
      eapply (plus_tail h q d a al (n + 2) (length H1) (n + 1)
                (set_own ps' k (length H3))).
      * apply prefix_insert; [apply prefix_snoc, Hpre3|].
        apply prefix_length in Hpre1. exact Hpre1.
      * lia.
      * rewrite list_lookup_insert_ne
          by (intros <-; rewrite Hnd3 in Hq3; discriminate).
        apply lookup_app_l_Some, Hq3.
      * rewrite list_lookup_insert_ne
          by (intros <-; rewrite Hnd3 in Ha3; discriminate).
        apply lookup_app_l_Some, Ha3.
      * rewrite list_lookup_insert_ne by lia.
        apply lookup_app_l_Some, Hr3.
      * apply list_lookup_insert_eq. rewrite length_app. lia.
      * apply Forall_set_own.
        -- eapply Forall_impl; [exact Hps3|]. intros kv Hkv. apply is_arr_insert.
           ++ intros vs. rewrite (lookup_app_l_Some _ _ _ _ Hnd3). discriminate.
           ++ apply is_arr_app, Hkv.
        -- apply is_arr_insert.
           ++ intros vs. rewrite (lookup_app_l_Some _ _ _ _ Hnd3). discriminate.
           ++ exists [v]. apply list_lookup_middle. reflexivity.
Qed.

Theorem minus_grows location_search h q k v :
  instance h q ->
  grows h (fun q' h' => instance h' q') (minus location_search q k v h).
Proof.
  intros (d & a & ps & al & Hq & Hd & Ha & Hps).
  unfold minus. rewrite bind_run, QueryString_run.
  destruct (parsed _) as [[D0 al0] [e|]]; simpl fst; simpl snd.
  { apply prefix_app_r. reflexivity. }
  set (n := length h).
  set (H1 := h ++ layout n D0 al0).
  assert (Hpre1 : h `prefix_of` H1) by (apply prefix_app_r; reflexivity).
  assert (Hq1 : H1 !! q = Some (QS d a)) by apply lookup_app_l_Some, Hq.
  assert (Hd1 : H1 !! d = Some (Obj ps)) by apply lookup_app_l_Some, Hd.
  assert (Ha1 : H1 !! a = Some (ArrP al)) by apply lookup_app_l_Some, Ha.
  assert (Hps1 : Forall (fun kv => is_arr H1 kv.2) ps).
  { eapply Forall_impl; [exact Hps|]. intros ?. apply is_arr_app. }
  assert (Hr1 : H1 !! (n + 2)%nat = Some (QS n (n + 1))).
  { unfold H1, n. rewrite lookup_app_plus. reflexivity. }
  assert (Hlr : (n + 2 < length H1)%nat) by (apply lookup_lt_Some in Hr1; exact Hr1).
  rewrite (bind_ret _ _ _ _ _ (get_dict_run _ _ _ _ Hq1)).
  pose proof (mapDict_run _ H1 d ps (callback_minus k v) Hd1 Hps1) as Hmd.
  destruct (own ps (str "hasOwnProperty")) as [l0|].
  { rewrite bind_run, Hmd. apply prefix_snoc, Hpre1. }
  destruct Hmd as (ps' & ex & Hrun & Hps').
  rewrite bind_run, Hrun.
  rewrite bind_run.
  rewrite (set_dict_run _ (n + 2) n (n + 1)) by (apply lookup_app_l_Some, Hr1).
  set (H3 := <[(n + 2)%nat:=QS (length H1) (n + 1)]> (H1 ++ Obj ps' :: ex)).
  assert (Hr3 : H3 !! (n + 2)%nat = Some (QS (length H1) (n + 1))).
  { apply list_lookup_insert_eq. rewrite length_app. lia. }
  assert (Hnd3 : H3 !! length H1 = Some (Obj ps')).
  { unfold H3. rewrite list_lookup_insert_ne by lia. apply list_lookup_middle. reflexivity. }
  assert (Hps3 : Forall (fun kv => is_arr H3 kv.2) ps').
  { eapply Forall_impl; [exact Hps'|]. intros kv. apply is_arr_insert.
    intros vs. rewrite (lookup_app_l_Some _ _ _ _ Hr1). discriminate. }
  assert (Hpre3 : h `prefix_of` H3).
  { apply prefix_insert; [apply prefix_snoc, Hpre1 | lia]. }
  assert (Hq3 : H3 !! q = Some (QS d a)).
  { unfold H3. rewrite list_lookup_insert_ne
      by (apply lookup_lt_Some in Hq; fold n in Hq; lia).
    apply lookup_app_l_Some, Hq1. }
  assert (Ha3 : H3 !! a = Some (ArrP al)).
  { unfold H3. rewrite list_lookup_insert_ne
      by (intros <-; rewrite Hr1 in Ha1; discriminate).
    apply lookup_app_l_Some, Ha1. }
  rewrite (bind_ret _ _ _ _ _ (get_alist_run _ _ _ _ Hq3)).
  rewrite (bind_ret _ _ _ _ _ (filter_pairs _ _ _ _ Ha3)).
  rewrite bind_run.
  rewrite (set_alist_run _ (n + 2) (length H1) (n + 1)) by (apply lookup_app_l_Some, Hr3).
  simpl. split.
  - apply prefix_insert; [apply prefix_snoc, Hpre3 | lia].
  - apply (instance_fresh_alist H3 (n + 2) (length H1) (n + 1) ps'); assumption.
Qed.

(** ** The readers *)

Lemma own_elem ps k l : own ps k = Some l -> exists k', (k', l) ∈ ps.
Proof.
  unfold own. destruct (List.find _ ps) as [[k' l']|] eqn:E; [|discriminate].
  intros [= <-]. apply find_some in E as [E _]. exists k'.
  apply list_elem_of_In, E.
Qed.

Lemma own_arr h ps k l :
  Forall (fun kv => is_arr h kv.2) ps -> own ps k = Some l -> is_arr h l.
Proof.
  intros Hps [k' Hin]%own_elem. rewrite Forall_forall in Hps. apply (Hps _ Hin).
Qed.

Lemma value_run h q d a ps key :
  h !! q = Some (QS d a) -> h !! d = Some (Obj ps) ->
  value q key h =
  match own ps (str "hasOwnProperty") with
  | Some _ => Throw TypeError h
  | None =>
      match own ps key with
      | None => Ret None h
      | Some l =>
          match h !! l with
          | Some (ArrV vs) => Ret (last vs) h
          | _ => Stuck
          end
      end
  end.
Proof.
  intros Hq Hd. unfold value.
  rewrite (bind_ret _ _ _ _ _ (get_dict_run _ _ _ _ Hq)).
  rewrite bind_run, (hasOwnProperty_run _ _ _ key Hd).
  destruct (own ps (str "hasOwnProperty")); [reflexivity|].
  destruct (own ps key) as [l|] eqn:E.
  - rewrite bool_decide_eq_true_2 by eauto. simpl.
    rewrite (bind_ret _ _ _ _ _ (props_run _ _ _ Hd)), E.
    rewrite bind_run. unfold elems at 1. rewrite bind_run. unfold get.
    destruct (h !! l) as [[vs| | |]|]; reflexivity.
  - rewrite bool_decide_eq_false_2 by (intros [? ?]; discriminate). reflexivity.
Qed.

Lemma values_of_run h q d a ps key :
  h !! q = Some (QS d a) -> h !! d = Some (Obj ps) ->
  values_of q key h =
  match own ps (str "hasOwnProperty") with
  | Some _ => Throw TypeError h
  | None =>
      match own ps key with
      | None => Ret [] (h ++ [ArrV []])
      | Some l =>
          match h !! l with
          | Some (ArrV vs) => Ret vs h
          | _ => Stuck
          end
      end
  end.
Proof.
  intros Hq Hd. unfold values_of. rewrite bind_run. unfold values.
  rewrite (bind_ret _ _ _ _ _ (get_dict_run _ _ _ _ Hq)).
  rewrite bind_run, (hasOwnProperty_run _ _ _ key Hd).
  destruct (own ps (str "hasOwnProperty")); [reflexivity|].
  destruct (own ps key) as [l|] eqn:E.
  - rewrite bool_decide_eq_true_2 by eauto.
    rewrite (bind_ret _ _ _ _ _ (props_run _ _ _ Hd)), E. simpl.
    unfold elems. rewrite bind_run. unfold get.
    destruct (h !! l) as [[vs| | |]|]; reflexivity.
  - rewrite bool_decide_eq_false_2 by (intros [? ?]; discriminate).
    unfold array, alloc.
    erewrite elems_vals by (apply list_lookup_middle; reflexivity). reflexivity.
Qed.

Lemma keys_loop_run h d ps :
  h !! d = Some (Obj ps) -> own ps (str "hasOwnProperty") = None ->
  forall rest a,
    (forall kv, kv ∈ rest -> is_Some (own ps kv.1)) ->
    keys_loop d rest a h = Ret (a ++ (fst <$> rest)) h.
Proof.
  intros Hd Hsh. induction rest as [|kv rest IH]; intros a Hown; simpl.
  - rewrite app_nil_r. reflexivity.
  - rewrite bind_run, (hasOwnProperty_run _ _ _ kv.1 Hd), Hsh.
    rewrite bool_decide_eq_true_2 by (apply Hown; left). cbn [negb].
    rewrite IH by (intros kv' Hin; apply Hown; right; exact Hin).
    rewrite <- app_assoc. reflexivity.
Qed.

Lemma own_member ps : forall kv, kv ∈ ps -> is_Some (own ps kv.1).
Proof.
  induction ps as [|[k l] ps IH]; intros kv Hin.
  - inversion Hin.
  - unfold own. simpl. case_bool_decide as Hk; simpl; [eauto|].
    apply IH. inversion Hin; subst; [contradiction Hk; reflexivity | assumption].
Qed.

Lemma keys_run h q d a ps :
  h !! q = Some (QS d a) -> h !! d = Some (Obj ps) ->
  keys q h =
  match own ps (str "hasOwnProperty") with
  | Some _ => Throw TypeError h
  | None => Ret (fst <$> ps) h
  end.
Proof.
  intros Hq Hd. unfold keys.
  rewrite (bind_ret _ _ _ _ _ (get_dict_run _ _ _ _ Hq)).
  rewrite (bind_ret _ _ _ _ _ (props_run _ _ _ Hd)).
  destruct (own ps (str "hasOwnProperty")) as [l0|] eqn:Hsh.
  - destruct ps as [|kv ps]; [discriminate Hsh|]. simpl.
    rewrite bind_run, (hasOwnProperty_run _ _ _ kv.1 Hd), Hsh. reflexivity.
  - apply (keys_loop_run h d ps Hd Hsh ps []), own_member.
Qed.

Lemma alist_of_intro h q d a al :
  h !! q = Some (QS d a) -> h !! a = Some (ArrP al) -> alist_of h q = Some al.
Proof. intros Hq Ha. unfold alist_of. rewrite Hq, Ha. reflexivity. Qed.

Lemma prefix_same_observations h h' q :
  instance h q -> h `prefix_of` h' -> same_observations h h' q.
Proof.
  intros (d & a & ps & al & Hq & Hd & Ha & Hps) Hpre.
  pose proof (prefix_lookup_Some _ _ _ _ Hq Hpre) as Hq'.
  pose proof (prefix_lookup_Some _ _ _ _ Hd Hpre) as Hd'.
  pose proof (prefix_lookup_Some _ _ _ _ Ha Hpre) as Ha'.
  assert (Harr : forall key l, own ps key = Some l ->
            exists vs, h !! l = Some (ArrV vs) /\ h' !! l = Some (ArrV vs)).
  { intros key l [vs E]%(own_arr h _ _ _ Hps). exists vs. split; [exact E|].
    apply (prefix_lookup_Some _ _ _ _ E Hpre). }
  repeat split.
  - rewrite (alist_of_intro _ _ _ _ _ Hq Ha), (alist_of_intro _ _ _ _ _ Hq' Ha').
    reflexivity.
  - intros key. rewrite (value_run _ _ _ _ _ key Hq Hd), (value_run _ _ _ _ _ key Hq' Hd').
    destruct (own ps (str "hasOwnProperty")); [reflexivity|].
    destruct (own ps key) as [l|] eqn:E; [|reflexivity].
    destruct (Harr _ _ E) as (vs & -> & ->). reflexivity.
  - intros key.
    rewrite (values_of_run _ _ _ _ _ key Hq Hd), (values_of_run _ _ _ _ _ key Hq' Hd').
    destruct (own ps (str "hasOwnProperty")); [reflexivity|].
    destruct (own ps key) as [l|] eqn:E; [|reflexivity].
    destruct (Harr _ _ E) as (vs & -> & ->). reflexivity.
  - rewrite (keys_run _ _ _ _ _ Hq Hd), (keys_run _ _ _ _ _ Hq' Hd').
    destruct (own ps (str "hasOwnProperty")); reflexivity.
  - rewrite (toString_run _ _ al), (toString_run _ _ al);
      [reflexivity | eapply alist_of_intro; eassumption..].
Qed.

Lemma grows_unchanged {A} h q (P : A -> store -> Prop) o :
  instance h q -> grows h P o -> unchanged_after h q o.
Proof.
  intros Hq. destruct o as [a' h'|e h'|]; simpl.
  - intros [Hpre _]. apply prefix_same_observations; assumption.
  - apply prefix_same_observations; assumption.
  - exact id.
Qed.

(** Claim C9.  [plus] and [minus] never modify the receiver.  For an
    instance [q] of the store, after [q.plus(k, v)] and after [q.minus(k)]
    or [q.minus(k, v)] ([ov] is the optional second argument), whether the
    call returned or threw, the pairs of [q] and what [q.value], [q.values],
    [q.keys] and [q.toString] answer are what they were before; the calls
    never end on a dangling reference. *)
Theorem receiver_unchanged location_search h q k v ov :
  instance h q ->
  unchanged_after h q (plus location_search q k v h) /\
  unchanged_after h q (minus location_search q k ov h).
Proof.
  intros Hq. split.
  - eapply grows_unchanged, plus_grows; exact Hq.
  - eapply grows_unchanged, minus_grows; exact Hq.
Qed.

(** ** Replacing the matches of a sequence of classes *)

Section Classes.
Variable pat : list charclass.
Variable f : jsstring -> jsstring.

Lemma match_classes_length : forall (pt : list charclass) s m,
  match_classes pt s = Some m -> length m = length pt /\ exists r, s = m ++ r.
Proof.
  induction pt as [|p pt IH]; intros s m; simpl.
  - intros [= <-]. split; [reflexivity | exists s; reflexivity].
  - destruct s as [|c s]; [discriminate|]. destruct (p c); [|discriminate].
    destruct (match_classes pt s) as [m'|] eqn:E; [|discriminate].
    intros [= <-]. destruct (IH _ _ E) as [Hl [r ->]].
    split; [simpl; congruence | exists r; reflexivity].
Qed.

Lemma match_classes_app : forall (pt : list charclass) m r,
  match_classes pt m = Some m -> match_classes pt (m ++ r) = Some m.
Proof.
  induction pt as [|p pt IH]; intros m r; simpl.
  - intros [= <-]. reflexivity.
  - destruct m as [|c m]; [discriminate|]. simpl. destruct (p c); [|discriminate].
    destruct (match_classes pt m) as [m'|] eqn:E; [|discriminate].
    intros [= ->]. rewrite (IH _ r E). reflexivity.
Qed.

Lemma rejects_None : forall (pt : list charclass) B Y,
  rejects pt B = true -> match_classes pt (B ++ Y) = None.
Proof.
  induction pt as [|p pt IH]; intros B Y; simpl; [discriminate|].
  destruct B as [|b B]; [discriminate|]. simpl.
  destruct (p b); simpl; [|reflexivity].
  intros H. rewrite (IH _ _ H). reflexivity.
Qed.

Lemma rejects_app : forall (pt : list charclass) B C,
  rejects pt B = true -> rejects pt (B ++ C) = true.
Proof.
  induction pt as [|p pt IH]; intros B C; simpl; [discriminate|].
  destruct B as [|b B]; [discriminate|]. simpl.
  destruct (p b); simpl; [apply IH | reflexivity].
Qed.

Lemma inert_app B C : inert pat B = true -> inert pat C = true -> inert pat (B ++ C) = true.
Proof.
  intros HB HC. induction B as [|b B IH]; simpl in *; [exact HC|].
  apply andb_true_iff in HB as [Hr HB].
  pose proof (rejects_app pat (b :: B) C Hr) as Hr'.
  rewrite <- app_comm_cons in Hr'. rewrite Hr'. simpl. apply IH, HB.
Qed.

Lemma blocked_match : forall (pt : list charclass) X B Y,
  blocks pt B = true -> match_classes pt (X ++ B ++ Y) = match_classes pt X.
Proof.
  induction pt as [|p pt IH]; intros X B Y; simpl; [reflexivity|].
  intros [Hr Hb]%andb_true_iff.
  destruct X as [|x X]; simpl.
  - apply (rejects_None (p :: pt) B Y Hr).
  - destruct (p x); [|reflexivity]. rewrite (IH _ _ _ Hb). reflexivity.
Qed.

Lemma scan_hit m r :
  match_classes pat m = Some m -> m <> [] ->
  scan (re_seq pat) 0 (m ++ r) = inr m :: scan (re_seq pat) 0 r.
Proof.
  intros Hm Hne. apply scan_match; [exact Hne|].
  unfold re_seq. rewrite (match_classes_app _ _ r Hm). reflexivity.
Qed.

Lemma scan_inert B : forall Y,
  inert pat B = true ->
  scan (re_seq pat) 0 (B ++ Y) = (inl <$> B) ++ scan (re_seq pat) 0 Y.
Proof.
  induction B as [|b B IH]; intros Y; simpl inert; [reflexivity|].
  intros [Hr Hi]%andb_true_iff.
  change ((b :: B) ++ Y) with (b :: (B ++ Y)). rewrite scan_miss.
  - rewrite IH by exact Hi. reflexivity.
  - unfold re_seq. change (b :: B ++ Y) with ((b :: B) ++ Y).
    rewrite (rejects_None _ _ _ Hr). reflexivity.
Qed.

Lemma scan_blocked X : forall k B Y,
  blocks (tail pat) B = true -> (k <= length X)%nat ->
  scan (re_seq pat) k (X ++ B ++ Y)
  = scan (re_seq pat) k X ++ scan (re_seq pat) 0 (B ++ Y).
Proof.
  induction X as [|x X IH]; intros k B Y Hb Hk.
  - destruct k; [reflexivity | simpl in Hk; lia].
  - simpl in Hk. destruct k as [|k].
    + assert (Hre : re_seq pat (x :: X ++ B ++ Y) = re_seq pat (x :: X)).
      { unfold re_seq. destruct pat as [|p pt]; [reflexivity|]. simpl in *.
        destruct (p x); [|reflexivity]. rewrite (blocked_match pt X B Y Hb).
        reflexivity. }
      rewrite <- app_comm_cons. simpl scan. rewrite Hre.
      unfold re_seq. destruct (match_classes pat (x :: X)) as [m|] eqn:E; simpl.
      * destruct (match_classes_length _ _ _ E) as [_ [r Hr]].
        f_equal. apply IH; [exact Hb|].
        apply (f_equal length) in Hr. rewrite length_app in Hr. simpl in Hr. lia.
      * f_equal. apply IH; [exact Hb | lia].
    + simpl. apply IH; [exact Hb | lia].
Qed.

Lemma replace_hit m r :
  match_classes pat m = Some m -> m <> [] ->
  replace_seq pat f (m ++ r) = f m ++ replace_seq pat f r.
Proof.
  intros Hm Hne. unfold replace_seq, replace_with. rewrite (scan_hit m r Hm Hne).
  reflexivity.
Qed.

Lemma flat_map_inl (B : jsstring) :
  flat_map (fun x : Z + jsstring => match x with inl c => [c] | inr m => f m end) (inl <$> B) = B.
Proof.
  induction B as [|b B IH]; [reflexivity|].
  rewrite fmap_cons. cbn [flat_map app]. rewrite IH. reflexivity.
Qed.

Lemma replace_inert B Y :
  inert pat B = true -> replace_seq pat f (B ++ Y) = B ++ replace_seq pat f Y.
Proof.
  intros Hi. unfold replace_seq, replace_with. rewrite (scan_inert B Y Hi).
  rewrite flat_map_app, flat_map_inl. reflexivity.
Qed.

Lemma replace_blocked X B Y :
  blocks (tail pat) B = true ->
  replace_seq pat f (X ++ B ++ Y) = replace_seq pat f X ++ replace_seq pat f (B ++ Y).
Proof.
  intros Hb. unfold replace_seq, replace_with.
  rewrite (scan_blocked X 0 B Y Hb) by lia. apply flat_map_app.
Qed.

Lemma replace_nil : replace_seq pat f [] = [].
Proof. reflexivity. Qed.

End Classes.

(** ** Reading a freshly constructed instance *)

Lemma own_locs_vals D : forall m k,
  match own (locs_from m D) k with
  | Some l =>
      exists i vs, l = (m + i)%nat /\ D !! i = Some (k, vs) /\ own_vals D k = Some vs
  | None => own_vals D k = None
  end.
Proof.
  induction D as [|[k' vs'] D IH]; intros m k; unfold own, own_vals; simpl.
  - reflexivity.
  - case_bool_decide as Hk; simpl in *.
    + subst k'. exists 0%nat, vs'. repeat split. lia.
    + specialize (IH (S m) k). unfold own, own_vals in IH.
      destruct (List.find _ (locs_from (S m) D)) as [[k1 l1]|]; simpl in *.
      * destruct IH as (i & vs & -> & Hi & Hv). exists (S i), vs.
        repeat split; [lia | exact Hi | exact Hv].
      * exact IH.
Qed.

Lemma layout_instance_lookup h D al :
  (h ++ layout (length h) D al) !! (length h + 2)%nat = Some (QS (length h) (length h + 1)) /\
  (h ++ layout (length h) D al) !! length h = Some (Obj (locs_from (length h + 3) D)).
Proof.
  split; [rewrite lookup_app_plus; reflexivity | apply list_lookup_middle; reflexivity].
Qed.

Lemma layout_array_lookup h D al i k vs :
  D !! i = Some (k, vs) ->
  (h ++ layout (length h) D al) !! (length h + 3 + i)%nat = Some (ArrV vs).
Proof.
  intros Hi. rewrite <- Nat.add_assoc, lookup_app_plus. simpl.
  rewrite list_lookup_fmap, Hi. reflexivity.
Qed.

Lemma value_layout h D al key :
  value (length h + 2) key (h ++ layout (length h) D al)
  = match own_vals D (str "hasOwnProperty") with
    | Some _ => Throw TypeError (h ++ layout (length h) D al)
    | None => Ret (own_vals D key ≫= last) (h ++ layout (length h) D al)
    end.
Proof.
  destruct (layout_instance_lookup h D al) as [Hq Hd].
  rewrite (value_run _ _ _ _ _ key Hq Hd).
  pose proof (own_locs_vals D (length h + 3) (str "hasOwnProperty")) as Hs.
  destruct (own _ (str "hasOwnProperty")) as [l0|].
  { destruct Hs as (i & vs & _ & _ & ->). reflexivity. }
  rewrite Hs.
  pose proof (own_locs_vals D (length h + 3) key) as Ho.
  destruct (own _ key) as [l|].
  - destruct Ho as (i & vs & -> & Hi & ->).
    rewrite (layout_array_lookup h D al i key vs Hi). reflexivity.
  - rewrite Ho. reflexivity.
Qed.

Lemma values_of_layout h D al key :
  result (values_of (length h + 2) key (h ++ layout (length h) D al))
  = match own_vals D (str "hasOwnProperty") with
    | Some _ => Some (inl TypeError)
    | None => Some (inr (default [] (own_vals D key)))
    end.
Proof.
  destruct (layout_instance_lookup h D al) as [Hq Hd].
  rewrite (values_of_run _ _ _ _ _ key Hq Hd).
  pose proof (own_locs_vals D (length h + 3) (str "hasOwnProperty")) as Hs.
  destruct (own _ (str "hasOwnProperty")) as [l0|].
  { destruct Hs as (i & vs & _ & _ & ->). reflexivity. }
  rewrite Hs.
  pose proof (own_locs_vals D (length h + 3) key) as Ho.
  destruct (own _ key) as [l|].
  - destruct Ho as (i & vs & -> & Hi & ->).
    rewrite (layout_array_lookup h D al i key vs Hi). reflexivity.
  - rewrite Ho. reflexivity.
Qed.

(** ** The example of the documentation *)

Lemma parsed_example : parsed example_text = ((example_dict, example_pairs), None).
Proof. vm_compute. reflexivity. Qed.

(** Claim C5.  Whatever the store and the page, parsing
    ["?a=b&foo=bar&blank=&foo=baz&missing&&&"] returns an instance with the
    pairs (a,b) (foo,bar) (blank,"") (foo,baz) (missing,null) in that order
    and no pair for the empty segments; on it [values("foo")] holds
    ["bar","baz"], [value("missing")] is [null] and [value("blank")] is the
    empty string. *)
Theorem parse_example location_search h :
  exists q h',
    QueryString location_search (Some example_text) h = Ret q h' /\
    alist_of h' q = Some example_pairs /\
    result (values_of q (str "foo") h') = Some (inr [Str (str "bar"); Str (str "baz")]) /\
    result (value q (str "missing") h') = Some (inr (Some Null)) /\
    result (value q (str "blank") h') = Some (inr (Some (Str []))).
Proof.
  eexists _, _. rewrite QueryString_run. simpl source. rewrite parsed_example. cbn [fst snd].
  split; [reflexivity|]. split; [apply alist_of_layout|].
  rewrite values_of_layout, !value_layout. repeat split.
Qed.

(** What [toString] reads is the stored encoded value.  For an instance
    with the pairs [al], [toString()] returns the empty string when [al] is
    empty and otherwise ["?"] followed by the pairs joined by ["&"], each
    written as its stored encoded key, followed by ["="] and its stored
    encoded value exactly when that stored value is not [null]; nothing is
    encoded again. *)
Theorem toString_serializes h q al :
  alist_of h q = Some al ->
  toString q h =
  Ret (match al with
       | [] => []
       | _ :: _ => str "?" ++ join_amp (item <$> al)
       end) h.
Proof. apply toString_run. Qed.

Lemma toString_serializes_witness :
  alist_of small_store 2
  = Some [Pair (str "a") (str "a") (Str (str "b")) (Str (str "b"));
          Pair (str "c") (str "c") Null Null] /\
  toString 2 small_store = Ret (str "?a=b&c") small_store.
Proof.
  split; [reflexivity|].
  exact (toString_serializes small_store 2 _ eq_refl).
Defined.

(** Claim C3, which the code breaks.  [QueryString.decode] is total, but the
    constructor decodes a key with the builtin [decodeURIComponent], not with
    [QueryString.decode] as it does for a value: parsing ["?%zz=1"] throws a
    URIError.  It also reads [this.dict[key_dec]] through the prototype
    chain, without the [hasOwnProperty] test of [value], [values] and
    [plus]: parsing ["?toString=1"] throws a TypeError. *)
Theorem constructor_throws location_search h :
  (exists h', QueryString location_search (Some (str "?%zz=1")) h = Throw URIError h') /\
  (exists h', QueryString location_search (Some (str "?toString=1")) h = Throw TypeError h').
Proof.
  split; eexists; rewrite QueryString_run; simpl source.
  - replace (parsed (str "?%zz=1")) with (([] : dictv, [] : list pair), Some URIError)
      by (vm_compute; reflexivity).
    reflexivity.
  - replace (parsed (str "?toString=1")) with (([] : dictv, [] : list pair), Some TypeError)
      by (vm_compute; reflexivity).
    reflexivity.
Qed.

(** Claim C1, which the code breaks.  After
    [new QueryString("?a=1&b=1").minus("a", "1")] the pair (b,1) is still in
    the array of pairs and the dictionary has no key at all: with two
    arguments the callback that [minus] hands to [mapDict] filters the value
    out of the array of every key, without the test on the key that its
    one-argument branch and its filter on the pairs make. *)
Theorem minus_pair_breaks_projection :
  exists q' h',
    (q ← QueryString [] (Some (str "?a=1&b=1"));
     minus [] q (str "a") (Some (Str (str "1")))) [] = Ret q' h' /\
    alist_of h' q' = Some [Pair (str "b") (str "b") (Str (str "1")) (Str (str "1"))] /\
    dict_of h' q' = Some [].
Proof. eexists _, _. vm_compute. repeat split. Qed.

(** Claim C2, which the code breaks.  With [q = new QueryString("?a=1&b=1")]
    and [q' = q.minus("a", "1")], [q.values("b")] holds ["1"] and
    [q'.values("b")] is empty: the value is removed from the dictionary
    under every key, not only under the key given. *)
Theorem minus_pair_drops_other_keys :
  result
    ((q ← QueryString [] (Some (str "?a=1&b=1"));
      q' ← minus [] q (str "a") (Some (Str (str "1")));
      before ← values_of q (str "b");
      after ← values_of q' (str "b");
      mret (before, after)) [])
  = Some (inr ([Str (str "1")], [])).
Proof. vm_compute. reflexivity. Qed.

(** The session of the README: building, serializing, and the value that
    the base instance still has after [minus]. *)
Example readme_session :
  result
    ((blank ← QueryString [] (Some []);
      q1 ← plus [] blank (str "format") (Str (str "html"));
      base ← plus [] q1 (str "=a=") (Str [8480%Z]);
      s ← toString base;
      altered ← minus [] base (str "=a=") None;
      s' ← toString altered;
      v ← value base (str "=a=");
      mret (s, s', v)) [])
  = Some (inr (str "?format=html&%3Da%3D=%E2%84%A0", str "?format=html",
               Some (Str [8480%Z]))).
Proof. vm_compute. reflexivity. Qed.

Lemma toString_roundtrip_witness :
  (QueryString [] (Some (str "?a=b&c")) [] = Ret 2 small_store /\
   toString 2 small_store = Ret (str "?a=b&c") small_store) /\
  exists q' h3,
    QueryString [] (Some (str "?a=b&c")) small_store = Ret q' h3 /\
    toString q' h3 = Ret (str "?a=b&c") h3.
Proof.
  split; [split; reflexivity|].
  exact (toString_roundtrip [] (str "?a=b&c") [] 2 small_store (str "?a=b&c") small_store
           eq_refl eq_refl).
Defined.

Lemma small_store_instance : instance small_store 2.
Proof.
  exists 0, 1, [(str "a", 3); (str "c", 4)],
    [Pair (str "a") (str "a") (Str (str "b")) (Str (str "b"));
     Pair (str "c") (str "c") Null Null].
  repeat split.
  repeat constructor; eexists; reflexivity.
Defined.

Lemma receiver_unchanged_witness :
  instance small_store 2 /\
  unchanged_after small_store 2 (plus [] 2 (str "a") (Str (str "x")) small_store) /\
  unchanged_after small_store 2 (minus [] 2 (str "a") None small_store).
Proof.
  split; [exact small_store_instance|].
  exact (receiver_unchanged [] small_store 2 (str "a") (Str (str "x")) None
           small_store_instance).
Defined.

(** ** Absent values *)

(** In a pair that the constructor builds the stored encoded value is
    [null] exactly when the decoded value is. *)
Lemma add_pure_absent st m st' :
  add_pure st m = Ok st' ->
  Forall (fun p => val_enc p = Null <-> val_dec p = Null) st.2 ->
  Forall (fun p => val_enc p = Null <-> val_dec p = Null) st'.2.
Proof.
  unfold add_pure. destruct (decodeURIComponent _) as [kd|]; simpl; [|discriminate].
  intros Hst Hal.
  assert (Hnew : forall D', Ok (D', st.2 ++
            [Pair m.1 kd (match m.2 with Some s => Str s | None => Null end)
               (match match m.2 with Some s => Str s | None => Null end with
                | Null => Null
                | Str s => Str (decode s)
                end)]) = Ok st' ->
          Forall (fun p => val_enc p = Null <-> val_dec p = Null) st'.2).
  { intros D' [= <-]. simpl. apply Forall_app_2; [exact Hal|].
    constructor; [|constructor]. simpl. destruct m.2; split; intros; congruence. }
  destruct (push_key _ _ _) as [D'|]; simpl in Hst.
  - apply (Hnew _ Hst).
  - case_bool_decide; simpl in Hst; [discriminate|]. apply (Hnew _ Hst).
Qed.

Lemma build_absent ms : forall st,
  Forall (fun p => val_enc p = Null <-> val_dec p = Null) st.2 ->
  Forall (fun p => val_enc p = Null <-> val_dec p = Null) (build st ms).1.2.
Proof.
  induction ms as [|m ms IH]; intros st Hst; simpl; [exact Hst|].
  destruct (add_pure st m) as [st1|] eqn:E; [|exact Hst].
  apply IH, (add_pure_absent _ _ _ E Hst).
Qed.

Lemma parsed_absent location_search arg h q h' al :
  QueryString location_search arg h = Ret q h' ->
  alist_of h' q = Some al ->
  Forall (fun p => val_enc p = Null <-> val_dec p = Null) al.
Proof.
  rewrite QueryString_run.
  pose proof (build_absent (exec_all re_pair (strip_question (source location_search arg)))
                ([], []) ltac:(constructor)) as Hb.
  fold (parsed (source location_search arg)) in Hb.
  destruct (parsed _) as [st [e|]]; [discriminate|].
  intros [= <- <-]. rewrite alist_of_layout. intros [= <-]. exact Hb.
Qed.

(** Claim C6, which the code breaks.  [plus(k, v)] stores [encode(v)] as
    the encoded value of the new pair also when [v] is [null], the absent
    marker that its documentation allows: the pair of [plus("k", null)] has
    the value [null] and the encoded value ["null"], so [value("k")] is
    [null] and yet [toString()] writes ["?k=null"], with the ["="] that the
    claim omits for an absent value.  The constructor, which builds the same
    pair from ["?k"], stores [null] for the encoded value, and [toString()]
    then writes ["?k"]. *)
Theorem toString_writes_null :
  let added := (blank ← QueryString [] (Some []); plus [] blank (str "k") Null) in
  let read := QueryString [] (Some (str "?k")) in
  (exists q h, added [] = Ret q h /\
     alist_of h q = Some [Pair (str "k") (str "k") (Str (str "null")) Null]) /\
  result ((q ← added; value q (str "k")) []) = Some (inr (Some Null)) /\
  result ((q ← added; toString q) []) = Some (inr (str "?k=null")) /\
  (exists q h, read [] = Ret q h /\
     alist_of h q = Some [Pair (str "k") (str "k") Null Null]) /\
  result ((q ← read; value q (str "k")) []) = Some (inr (Some Null)) /\
  result ((q ← read; toString q) []) = Some (inr (str "?k")).
Proof.
  split; [eexists _, _; split; vm_compute; reflexivity|].
  split; [vm_compute; reflexivity|].
  split; [vm_compute; reflexivity|].
  split; [eexists _, _; split; vm_compute; reflexivity|].
  split; vm_compute; reflexivity.
Qed.

Section Codec.

Local Open Scope Z_scope.

(** ** Hexadecimal digits and escapes *)

Lemma all_digits (P : Z -> Prop) : Forall P (seqZ 0 16) -> forall n, digit n -> P n.
Proof.
  intros HP n Hn. rewrite Forall_forall in HP. apply HP, elem_of_seqZ. exact Hn.
Qed.

Ltac each_digit :=
  apply all_digits;
  let l := eval vm_compute in (seqZ 0 16) in
  change (seqZ 0 16) with l; repeat constructor.

Lemma hexval_hexdigit : forall n, digit n -> hexval (hexdigit n) = Some n.
Proof. each_digit. Qed.

Lemma HEX_hexdigit : forall n, digit n -> cls_HEX (hexdigit n) = true.
Proof. each_digit. Qed.

Lemma pct_hexdigit : forall n, digit n -> cls_pct (hexdigit n) = false.
Proof. each_digit. Qed.

Lemma plus_hexdigit : forall n, digit n -> is_char "+" (hexdigit n) = false.
Proof. each_digit. Qed.

Lemma EF_hexdigit : forall n, digit n -> cls_EF (hexdigit n) = (14 <=? n).
Proof. each_digit. Qed.

Lemma CD_hexdigit : forall n, digit n -> cls_CD (hexdigit n) = (12 <=? n) && (n <=? 13).
Proof. each_digit. Qed.

Lemma AB_hexdigit : forall n, digit n -> cls_89AB (hexdigit n) = (8 <=? n) && (n <=? 11).
Proof. each_digit. Qed.

Lemma O7_hexdigit : forall n, digit n -> cls_07 (hexdigit n) = (n <=? 7).
Proof. each_digit. Qed.

Lemma two_hexdigit : forall n, digit n -> is_char "2" (hexdigit n) = (n =? 2).
Proof. each_digit. Qed.

Lemma zero_hexdigit : forall n, digit n -> is_char "0" (hexdigit n) = (n =? 0).
Proof. each_digit. Qed.

Lemma octet_digits b : 0 <= b < 256 -> digit (b / 16) /\ digit (b mod 16).
Proof.
  unfold digit. intros H. split.
  - split; [apply Z.div_pos; lia | apply Z.div_lt_upper_bound; lia].
  - apply Z.mod_pos_bound. lia.
Qed.

Lemma pct_octet_esc b : pct_octet b = esc (b / 16) (b mod 16).
Proof. reflexivity. Qed.

Lemma parseInt16_pair h l :
  digit h -> digit l -> parseInt16 [hexdigit h; hexdigit l] = Some (16 * h + l).
Proof.
  intros Hh Hl. unfold parseInt16, parseInt16_digits.
  rewrite (hexval_hexdigit h Hh), (hexval_hexdigit l Hl). f_equal; lia.
Qed.

(** ** Matching an escape *)

Lemma match_classes_cons p (pt : list charclass) c s :
  match_classes (p :: pt) (c :: s)
  = if p c then cons c <$> match_classes pt s else None.
Proof. reflexivity. Qed.

Lemma rejects_head (p : charclass) pt b B :
  p b = false -> rejects (p :: pt) (b :: B) = true.
Proof. intros E. simpl. rewrite E. reflexivity. Qed.

Lemma rejects_tail (p : charclass) pt b B :
  rejects pt B = true -> rejects (p :: pt) (b :: B) = true.
Proof. intros E. simpl. rewrite E. apply orb_true_r. Qed.

Lemma inert_cons pat b B :
  rejects pat (b :: B) = true -> inert pat B = true -> inert pat (b :: B) = true.
Proof. intros E1 E2. simpl. rewrite E1, E2. reflexivity. Qed.

(** A code unit other than [%] is no start of a match. *)
Lemma inert_lit (p : charclass) pt c : p c = false -> inert (p :: pt) [c] = true.
Proof. intros E. apply inert_cons; [apply rejects_head, E | reflexivity]. Qed.

(** An escape whose first digit the expression refuses is no start of a match. *)
Lemma inert_esc (P : charclass) pt hi lo :
  digit hi -> digit lo -> P (hexdigit hi) = false ->
  inert (cls_pct :: P :: pt) (esc hi lo) = true.
Proof.
  intros Hh Hl HP. unfold esc. repeat apply inert_cons.
  - apply rejects_tail, rejects_head, HP.
  - apply rejects_head, pct_hexdigit, Hh.
  - apply rejects_head, pct_hexdigit, Hl.
  - reflexivity.
Qed.

Lemma inert_esc_lo (P Q : charclass) pt hi lo :
  digit hi -> digit lo -> Q (hexdigit lo) = false ->
  inert (cls_pct :: P :: Q :: pt) (esc hi lo) = true.
Proof.
  intros Hh Hl HQ. unfold esc. repeat apply inert_cons.
  - apply rejects_tail, rejects_tail, rejects_head, HQ.
  - apply rejects_head, pct_hexdigit, Hh.
  - apply rejects_head, pct_hexdigit, Hl.
  - reflexivity.
Qed.

Lemma match_esc (P : charclass) pt hi lo r :
  digit lo -> P (hexdigit hi) = true ->
  match_classes (cls_pct :: P :: cls_HEX :: pt) (esc hi lo ++ r)
  = app (esc hi lo) <$> match_classes pt r.
Proof.
  intros Hl HP. unfold esc. cbn [app].
  rewrite !match_classes_cons, HP, (HEX_hexdigit lo Hl).
  change (cls_pct (code "%")) with true. cbv iota.
  destruct (match_classes pt r); reflexivity.
Qed.

Lemma blocks_app pt : forall B C, blocks pt B = true -> blocks pt (B ++ C) = true.
Proof.
  induction pt as [|p pt IH]; intros B C; cbn [blocks]; [reflexivity|].
  intros [Hr Hb]%andb_true_iff.
  rewrite (rejects_app (p :: pt) B C Hr), (IH _ _ Hb). reflexivity.
Qed.

(** ** The escapes of a code point *)

Lemma esc_octet b :
  0 <= b < 256 ->
  exists h l, pct_octet b = esc h l /\ digit h /\ digit l /\ 16 * h + l = b.
Proof.
  intros Hb. exists (b / 16), (b mod 16). destruct (octet_digits b Hb) as [Hh Hl].
  repeat split; try apply Hh; try apply Hl.
  symmetry. apply Z.div_mod. lia.
Qed.

Lemma in_range_spec lo hi c : in_range lo hi c = true <-> code lo <= c <= code hi.
Proof. unfold in_range. rewrite andb_true_iff, !Z.leb_le. reflexivity. Qed.

Lemma one_of_spec s c : one_of s c = true <-> In c (str s).
Proof.
  unfold one_of. rewrite existsb_exists. split.
  - intros (x & Hx & ->%Z.eqb_eq). exact Hx.
  - intros Hc. exists c. split; [exact Hc | apply Z.eqb_refl].
Qed.

Ltac eval_codes :=
  repeat match goal with
         | |- context [code ?a] =>
             let v := eval vm_compute in (code a) in change (code a) with v
         | H : context [code ?a] |- _ =>
             let v := eval vm_compute in (code a) in change (code a) with v in H
         end.
Lemma uriUnescaped_ascii c :
  uriUnescaped c = true -> 0 <= c < 128 /\ c <> 37 /\ c <> 43 /\ c <> 32.
Proof.
  unfold uriUnescaped. rewrite !orb_true_iff, !in_range_spec, one_of_spec.
  simpl. eval_codes. lia.
Qed.

Lemma escape_point_1 c : c < 128 -> escape_point c = pct_octet c.
Proof.
  intros H. unfold escape_point, utf8_octets.
  rewrite (proj2 (Z.ltb_lt _ _)) by lia. reflexivity.
Qed.

Lemma escape_point_2 c :
  128 <= c < 2048 ->
  escape_point c = pct_octet (192 + c / 64) ++ pct_octet (128 + c mod 64).
Proof.
  intros H. unfold escape_point, utf8_octets.
  rewrite (proj2 (Z.ltb_ge _ _)) by lia.
  rewrite (proj2 (Z.ltb_lt _ _)) by lia. reflexivity.
Qed.

Lemma escape_point_3 c :
  2048 <= c < 65536 ->
  escape_point c
  = pct_octet (224 + c / 4096) ++ pct_octet (128 + (c / 64) mod 64)
    ++ pct_octet (128 + c mod 64).
Proof.
  intros H. unfold escape_point, utf8_octets.
  rewrite (proj2 (Z.ltb_ge _ _)) by lia.
  rewrite (proj2 (Z.ltb_ge _ _)) by lia.
  rewrite (proj2 (Z.ltb_lt _ _)) by lia. reflexivity.
Qed.

Lemma div_bounds c d lo hi : 0 < d -> lo * d <= c < hi * d -> lo <= c / d < hi.
Proof.
  intros Hd H. split.
  - apply Z.div_le_lower_bound; lia.
  - apply Z.div_lt_upper_bound; lia.
Qed.

Lemma escape_point_shape c : 0 <= c < 65536 -> escapes c (escape_point c).
Proof.
  intros Hc.
  destruct (Z_lt_ge_dec c 128) as [H1|H1];
    [|destruct (Z_lt_ge_dec c 2048) as [H2|H2]].
  - rewrite escape_point_1 by lia.
    destruct (esc_octet c) as (h & l & -> & Hh & Hl & E); [lia|].
    apply escapes_1; assumption.
  - rewrite escape_point_2 by lia.
    pose proof (div_bounds c 64 2 32 eq_refl ltac:(lia)).
    pose proof (Z.mod_pos_bound c 64 eq_refl).
    destruct (esc_octet (192 + c / 64)) as (h1 & l1 & -> & Hh1 & Hl1 & E1); [lia|].
    destruct (esc_octet (128 + c mod 64)) as (h2 & l2 & -> & Hh2 & Hl2 & E2); [lia|].
    apply escapes_2; solve [assumption | lia].
  - rewrite escape_point_3 by lia.
    pose proof (div_bounds c 4096 0 16 eq_refl ltac:(lia)).
    pose proof (Z.mod_pos_bound (c / 64) 64 eq_refl).
    pose proof (Z.mod_pos_bound c 64 eq_refl).
    destruct (esc_octet (224 + c / 4096)) as (h1 & l1 & -> & Hh1 & Hl1 & E1); [lia|].
    destruct (esc_octet (128 + (c / 64) mod 64)) as (h2 & l2 & -> & Hh2 & Hl2 & E2); [lia|].
    destruct (esc_octet (128 + c mod 64)) as (h3 & l3 & -> & Hh3 & Hl3 & E3); [lia|].
    apply escapes_3; solve [assumption | lia].
Qed.

(** ** The passes of decode over the output of encode *)

Lemma replace_flat_map pat f (g g' : Z -> jsstring) (P : Z -> Prop) s :
  (forall c r, P c -> replace_seq pat f (g c ++ r) = g' c ++ replace_seq pat f r) ->
  Forall P s -> replace_seq pat f (flat_map g s) = flat_map g' s.
Proof.
  intros Hstep Hs. induction Hs as [|c s Hc Hs IH]; [reflexivity|].
  simpl. rewrite Hstep, IH by exact Hc. reflexivity.
Qed.

Lemma inert_all (p : charclass) pt B :
  Forall (fun c => p c = false) B -> inert (p :: pt) B = true.
Proof.
  induction 1 as [|b B Hb HB IH]; [reflexivity|].
  apply inert_cons; [apply rejects_head, Hb | exact IH].
Qed.

Lemma lit_plain_not_pct c : lit_plain c = true -> cls_pct c = false.
Proof.
  unfold lit_plain, cls_pct, is_char. eval_codes.
  intros [H%uriUnescaped_ascii|H%Z.eqb_eq]%orb_true_iff; apply Z.eqb_neq; lia.
Qed.

Lemma high_not_pct c : 128 <= c -> cls_pct c = false.
Proof. intros H. unfold cls_pct, is_char. eval_codes. apply Z.eqb_neq. lia. Qed.

Lemma replace_lit (pt : list charclass) f c r :
  cls_pct c = false ->
  replace_seq (cls_pct :: pt) f ([c] ++ r) = [c] ++ replace_seq (cls_pct :: pt) f r.
Proof. intros H. apply replace_inert, inert_lit, H. Qed.

Ltac digit_bool :=
  repeat match goal with
         | |- _ && _ = true => apply andb_true_iff; split
         | |- _ && _ = false => apply andb_false_iff
         | |- (_ <=? _) = true => apply Z.leb_le
         | |- (_ <=? _) = false => apply Z.leb_gt
         | |- (_ =? _) = false => apply Z.eqb_neq
         | |- (_ =? _) = true => apply Z.eqb_eq
         end.

(** *** [%20] becomes [+] *)

Lemma pass_20 c r :
  0 <= c < 65536 ->
  replace_seq pat_20 (fun _ => str "+") (piece uriUnescaped c ++ r)
  = piece_plus c ++ replace_seq pat_20 (fun _ => str "+") r.
Proof.
  intros Hc. unfold piece_plus. destruct (Z.eqb_spec c 32) as [->|Hne].
  - change (piece uriUnescaped 32) with (str "%20").
    apply (replace_hit pat_20 (fun _ => str "+") (str "%20")); [reflexivity | discriminate].
  - unfold piece. destruct (uriUnescaped c) eqn:Hu.
    + apply replace_lit. apply uriUnescaped_ascii in Hu.
      unfold cls_pct, is_char. eval_codes. apply Z.eqb_neq. lia.
    + apply replace_inert. unfold pat_20.
      destruct (escape_point_shape c Hc) as
        [h l H1 Hh Hl E | h1 l1 h2 l2 H2 Hh1 Hl1 Hh2 Hl2 E1 E2
         | h1 l1 h2 l2 h3 l3 H3 Hh1 Hl1 Hh2 Hl2 Hh3 Hl3 E1 E2 E3].
      * destruct (Z.eq_dec h 2) as [->|Hh2].
        -- apply inert_esc_lo; try assumption.
           rewrite zero_hexdigit by assumption. digit_bool. lia.
        -- apply inert_esc; try assumption.
           rewrite two_hexdigit by assumption. digit_bool. lia.
      * pose proof (div_bounds c 64 2 32 eq_refl ltac:(lia)).
        pose proof (Z.mod_pos_bound c 64 eq_refl). unfold digit in *.
        apply inert_app; apply inert_esc; try assumption;
          rewrite two_hexdigit by assumption; digit_bool; lia.
      * pose proof (div_bounds c 4096 0 16 eq_refl ltac:(lia)).
        pose proof (Z.mod_pos_bound (c / 64) 64 eq_refl).
        pose proof (Z.mod_pos_bound c 64 eq_refl). unfold digit in *.
        repeat apply inert_app; apply inert_esc; try assumption;
          rewrite two_hexdigit by assumption; digit_bool; lia.
Qed.

(** *** [+] becomes a space *)

Lemma esc_no_plus h l : digit h -> digit l -> Forall (fun c => is_char "+" c = false) (esc h l).
Proof.
  intros Hh Hl. unfold esc. repeat constructor;
    [apply plus_hexdigit, Hh | apply plus_hexdigit, Hl].
Qed.

Lemma pass_plus c r :
  0 <= c < 65536 ->
  plus_to_space (piece_plus c ++ r) = piece lit_plain c ++ plus_to_space r.
Proof.
  intros Hc. unfold plus_to_space, piece_plus, piece, lit_plain.
  destruct (Z.eqb_spec c 32) as [->|Hne].
  - apply (replace_hit [is_char "+"] (fun _ => str " ") (str "+")); [reflexivity | discriminate].
  - rewrite orb_false_r. destruct (uriUnescaped c) eqn:Hu.
    + apply replace_inert, inert_lit. apply uriUnescaped_ascii in Hu.
      unfold is_char. eval_codes. apply Z.eqb_neq. lia.
    + apply replace_inert, inert_all.
      destruct (escape_point_shape c Hc) as
        [h l H1 Hh Hl E | h1 l1 h2 l2 H2 Hh1 Hl1 Hh2 Hl2 E1 E2
         | h1 l1 h2 l2 h3 l3 H3 Hh1 Hl1 Hh2 Hl2 Hh3 Hl3 E1 E2 E3];
        repeat apply Forall_app_2; apply esc_no_plus; assumption.
Qed.

(** *** The escapes of three, two and one octets *)

Lemma match_pat3 h1 l1 h2 l2 h3 l3 :
  digit h1 -> digit l1 -> digit h2 -> digit l2 -> digit h3 -> digit l3 ->
  14 <= h1 -> 8 <= h2 <= 11 -> 8 <= h3 <= 11 ->
  match_classes pat3 (esc h1 l1 ++ esc h2 l2 ++ esc h3 l3)
  = Some (esc h1 l1 ++ esc h2 l2 ++ esc h3 l3).
Proof.
  intros Hh1 Hl1 Hh2 Hl2 Hh3 Hl3 R1 R2 R3. unfold pat3.
  rewrite match_esc; [|assumption | rewrite EF_hexdigit by assumption; digit_bool; lia].
  rewrite match_esc; [|assumption | rewrite AB_hexdigit by assumption; digit_bool; lia].
  rewrite <- (app_nil_r (esc h3 l3)) at 1.
  rewrite match_esc; [|assumption | rewrite AB_hexdigit by assumption; digit_bool; lia].
  reflexivity.
Qed.

Lemma match_pat2 h1 l1 h2 l2 :
  digit h1 -> digit l1 -> digit h2 -> digit l2 ->
  12 <= h1 <= 13 -> 8 <= h2 <= 11 ->
  match_classes pat2 (esc h1 l1 ++ esc h2 l2) = Some (esc h1 l1 ++ esc h2 l2).
Proof.
  intros Hh1 Hl1 Hh2 Hl2 R1 R2. unfold pat2.
  rewrite match_esc; [|assumption | rewrite CD_hexdigit by assumption; digit_bool; lia].
  rewrite <- (app_nil_r (esc h2 l2)) at 1.
  rewrite match_esc; [|assumption | rewrite AB_hexdigit by assumption; digit_bool; lia].
  reflexivity.
Qed.

Lemma match_pat1 h l :
  digit h -> digit l -> h <= 7 -> match_classes pat1 (esc h l) = Some (esc h l).
Proof.
  intros Hh Hl R. unfold pat1.
  rewrite <- (app_nil_r (esc h l)) at 1.
  rewrite match_esc; [|assumption | rewrite O7_hexdigit by assumption; digit_bool; lia].
  reflexivity.
Qed.

Lemma decode3_esc h1 l1 h2 l2 h3 l3 :
  digit h1 -> digit l1 -> digit h2 -> digit l2 -> digit h3 -> digit l3 ->
  decode3 (esc h1 l1 ++ esc h2 l2 ++ esc h3 l3) =
  let n1 := 16 * h1 + l1 - 224 in
  let n2 := 16 * h2 + l2 - 128 in
  if (n1 =? 0) && (n2 <? 32) then esc h1 l1 ++ esc h2 l2 ++ esc h3 l3
  else
    let n3 := 16 * h3 + l3 - 128 in
    let n := Z.shiftl n1 12 + Z.shiftl n2 6 + n3 in
    if n >? 65535 then esc h1 l1 ++ esc h2 l2 ++ esc h3 l3 else [fromCharCode n].
Proof.
  intros Hh1 Hl1 Hh2 Hl2 Hh3 Hl3. unfold decode3.
  change (group2 (esc h1 l1 ++ esc h2 l2 ++ esc h3 l3) 1) with [hexdigit h1; hexdigit l1].
  change (group2 (esc h1 l1 ++ esc h2 l2 ++ esc h3 l3) 4) with [hexdigit h2; hexdigit l2].
  change (group2 (esc h1 l1 ++ esc h2 l2 ++ esc h3 l3) 7) with [hexdigit h3; hexdigit l3].
  rewrite !parseInt16_pair by assumption. reflexivity.
Qed.

Lemma decode2_esc h1 l1 h2 l2 :
  digit h1 -> digit l1 -> digit h2 -> digit l2 ->
  decode2 (esc h1 l1 ++ esc h2 l2) =
  let n1 := 16 * h1 + l1 - 192 in
  if n1 <? 2 then esc h1 l1 ++ esc h2 l2
  else [fromCharCode (Z.shiftl n1 6 + (16 * h2 + l2 - 128))].
Proof.
  intros Hh1 Hl1 Hh2 Hl2. unfold decode2.
  change (group2 (esc h1 l1 ++ esc h2 l2) 1) with [hexdigit h1; hexdigit l1].
  change (group2 (esc h1 l1 ++ esc h2 l2) 4) with [hexdigit h2; hexdigit l2].
  rewrite !parseInt16_pair by assumption. reflexivity.
Qed.

Lemma decode1_esc h l :
  digit h -> digit l -> decode1 (esc h l) = [fromCharCode (16 * h + l)].
Proof.
  intros Hh Hl. unfold decode1.
  change (group2 (esc h l) 1) with [hexdigit h; hexdigit l].
  rewrite parseInt16_pair by assumption. reflexivity.
Qed.

Lemma fromCharCode_id c : 0 <= c < 65536 -> fromCharCode c = c.
Proof. intros H. unfold fromCharCode. apply Z.mod_small. exact H. Qed.

Lemma pack3 c :
  0 <= c ->
  Z.shiftl (c / 4096) 12 + Z.shiftl ((c / 64) mod 64) 6 + c mod 64 = c.
Proof.
  intros Hc. rewrite !Z.shiftl_mul_pow2 by lia.
  change (2 ^ 12) with 4096. change (2 ^ 6) with 64.
  pose proof (Z.div_mod c 64 ltac:(lia)).
  pose proof (Z.div_mod (c / 64) 64 ltac:(lia)).
  replace (c / 4096) with (c / 64 / 64) by (rewrite Z.div_div by lia; reflexivity).
  lia.
Qed.

Lemma pack2 c : 0 <= c -> Z.shiftl (c / 64) 6 + c mod 64 = c.
Proof.
  intros Hc. rewrite Z.shiftl_mul_pow2 by lia. change (2 ^ 6) with 64.
  pose proof (Z.div_mod c 64 ltac:(lia)). lia.
Qed.

Lemma pass_3 c r :
  0 <= c < 65536 ->
  replace_seq pat3 decode3 (piece lit_plain c ++ r)
  = piece (lit_from 2048) c ++ replace_seq pat3 decode3 r.
Proof.
  intros Hc. unfold piece, lit_from. destruct (lit_plain c) eqn:Hl; simpl orb.
  { apply replace_lit, lit_plain_not_pct, Hl. }
  destruct (escape_point_shape c Hc) as
    [h l H1 Hh Hl' E | h1 l1 h2 l2 H2 Hh1 Hl1 Hh2 Hl2 E1 E2
     | h1 l1 h2 l2 h3 l3 H3 Hh1 Hl1 Hh2 Hl2 Hh3 Hl3 E1 E2 E3].
  - rewrite (proj2 (Z.leb_gt _ _)) by lia.
    apply replace_inert, inert_esc; try assumption.
    rewrite EF_hexdigit by assumption. unfold digit in *. digit_bool. lia.
  - rewrite (proj2 (Z.leb_gt _ _)) by lia.
    pose proof (div_bounds c 64 2 32 eq_refl ltac:(lia)).
    pose proof (Z.mod_pos_bound c 64 eq_refl). unfold digit in *.
    apply replace_inert, inert_app; apply inert_esc; try assumption;
      rewrite EF_hexdigit by assumption; digit_bool; lia.
  - rewrite (proj2 (Z.leb_le _ _)) by lia.
    pose proof (div_bounds c 4096 0 16 eq_refl ltac:(lia)).
    pose proof (Z.mod_pos_bound (c / 64) 64 eq_refl).
    pose proof (Z.mod_pos_bound c 64 eq_refl).
    rewrite (replace_hit pat3 decode3 (esc h1 l1 ++ esc h2 l2 ++ esc h3 l3));
      [|apply match_pat3; unfold digit in *; solve [assumption | lia]
       |discriminate].
    f_equal. rewrite decode3_esc by assumption. cbv zeta.
    replace (16 * h1 + l1 - 224) with (c / 4096) by lia.
    replace (16 * h2 + l2 - 128) with ((c / 64) mod 64) by lia.
    replace (16 * h3 + l3 - 128) with (c mod 64) by lia.
    rewrite pack3 by lia.
    assert (Hov : (c / 4096 =? 0) && ((c / 64) mod 64 <? 32) = false).
    { apply andb_false_iff. destruct (Z.eq_dec (c / 4096) 0) as [E0|E0].
      - right. apply Z.ltb_ge.
        pose proof (Z.div_mod c 4096 ltac:(lia)).
        pose proof (Z.mod_pos_bound c 4096 eq_refl).
        pose proof (div_bounds c 64 32 64 eq_refl ltac:(lia)).
        rewrite Z.mod_small by lia. lia.
      - left. apply Z.eqb_neq, E0. }
    rewrite Hov. rewrite Z.gtb_ltb, (proj2 (Z.ltb_ge _ _)) by lia.
    rewrite fromCharCode_id by lia. reflexivity.
Qed.

Lemma lit_from_not_pct n c : 128 <= n -> lit_from n c = true -> cls_pct c = false.
Proof.
  intros Hn [H|H%Z.leb_le]%orb_true_iff.
  - apply lit_plain_not_pct, H.
  - apply high_not_pct. lia.
Qed.

Lemma pass_2 c r :
  0 <= c < 65536 ->
  replace_seq pat2 decode2 (piece (lit_from 2048) c ++ r)
  = piece (lit_from 128) c ++ replace_seq pat2 decode2 r.
Proof.
  intros Hc. unfold piece. destruct (lit_from 2048 c) eqn:Hl.
  { assert (Hl' : lit_from 128 c = true).
    { unfold lit_from in *. apply orb_true_iff in Hl as [->|H%Z.leb_le]; [reflexivity|].
      rewrite (proj2 (Z.leb_le 128 c)) by lia. apply orb_true_r. }
    rewrite Hl'. apply replace_lit, (lit_from_not_pct 2048); [lia | exact Hl]. }
  unfold lit_from in *. apply orb_false_iff in Hl as [Hp Hlt%Z.leb_gt]. rewrite Hp. simpl orb.
  destruct (escape_point_shape c Hc) as
    [h l H1 Hh Hl' E | h1 l1 h2 l2 H2 Hh1 Hl1 Hh2 Hl2 E1 E2
     | h1 l1 h2 l2 h3 l3 H3 Hh1 Hl1 Hh2 Hl2 Hh3 Hl3 E1 E2 E3]; [| |lia].
  - rewrite (proj2 (Z.leb_gt _ _)) by lia.
    apply replace_inert, inert_esc; try assumption.
    rewrite CD_hexdigit by assumption. unfold digit in *. digit_bool. left. digit_bool. lia.
  - rewrite (proj2 (Z.leb_le _ _)) by lia.
    pose proof (div_bounds c 64 2 32 eq_refl ltac:(lia)).
    pose proof (Z.mod_pos_bound c 64 eq_refl).
    rewrite (replace_hit pat2 decode2 (esc h1 l1 ++ esc h2 l2));
      [|apply match_pat2; unfold digit in *; solve [assumption | lia]
       |discriminate].
    f_equal. rewrite decode2_esc by assumption. cbv zeta.
    replace (16 * h1 + l1 - 192) with (c / 64) by lia.
    replace (16 * h2 + l2 - 128) with (c mod 64) by lia.
    rewrite pack2 by lia.
    rewrite (proj2 (Z.ltb_ge _ _)) by lia.
    rewrite fromCharCode_id by lia. reflexivity.
Qed.

Lemma pass_1 c r :
  0 <= c < 65536 ->
  replace_seq pat1 decode1 (piece (lit_from 128) c ++ r)
  = [c] ++ replace_seq pat1 decode1 r.
Proof.
  intros Hc. unfold piece. destruct (lit_from 128 c) eqn:Hl.
  { apply replace_lit, (lit_from_not_pct 128); [lia | exact Hl]. }
  unfold lit_from in *. apply orb_false_iff in Hl as [Hp Hlt%Z.leb_gt].
  destruct (escape_point_shape c Hc) as
    [h l H1 Hh Hl' E | h1 l1 h2 l2 H2 Hh1 Hl1 Hh2 Hl2 E1 E2
     | h1 l1 h2 l2 h3 l3 H3 Hh1 Hl1 Hh2 Hl2 Hh3 Hl3 E1 E2 E3]; [|lia|lia].
  rewrite (replace_hit pat1 decode1 (esc h l));
    [|apply match_pat1; unfold digit in *; solve [assumption | lia]
     |discriminate].
  f_equal. rewrite decode1_esc by assumption. rewrite E.
  rewrite fromCharCode_id by lia. reflexivity.
Qed.

Lemma flat_map_singleton (s : jsstring) : flat_map (fun c => [c]) s = s.
Proof. induction s as [|c s IH]; simpl; [reflexivity | rewrite IH; reflexivity]. Qed.

Lemma bmp_range s : Forall bmp s -> Forall (fun c => 0 <= c < 65536) s.
Proof. intros H. eapply Forall_impl; [exact H|]. intros c [Hc _]. exact Hc. Qed.

Lemma encodeURIComponent_bmp s :
  Forall bmp s -> encodeURIComponent s = Ok (flat_map (piece uriUnescaped) s).
Proof.
  induction 1 as [|c s [Hc Hs] _ IH]; [reflexivity|].
  simpl. unfold piece at 1. rewrite IH. destruct (uriUnescaped c); [reflexivity|].
  unfold low_surrogate, high_surrogate.
  destruct (Z.leb_spec 56320 c), (Z.leb_spec c 57343), (Z.leb_spec 55296 c),
    (Z.leb_spec c 56319); simpl; try reflexivity; lia.
Qed.

Lemma encode_bmp s :
  Forall bmp s -> encode s = Ok (flat_map piece_plus s).
Proof.
  intros Hs. unfold encode. rewrite (encodeURIComponent_bmp s Hs). simpl. f_equal.
  apply (replace_flat_map _ _ _ _ (fun c => 0 <= c < 65536)); [|apply bmp_range, Hs].
  intros c r. apply pass_20.
Qed.

Lemma decode_pieces s :
  Forall (fun c => 0 <= c < 65536) s -> decode (flat_map piece_plus s) = s.
Proof.
  intros Hs. unfold decode.
  assert (E1 : plus_to_space (flat_map piece_plus s) = flat_map (piece lit_plain) s).
  { unfold plus_to_space.
    apply (replace_flat_map _ _ _ _ (fun c => 0 <= c < 65536)); [|exact Hs].
    intros c r. apply pass_plus. }
  rewrite E1.
  rewrite (replace_flat_map pat3 decode3 _ _ _ s pass_3 Hs).
  rewrite (replace_flat_map pat2 decode2 _ _ _ s pass_2 Hs).
  rewrite (replace_flat_map pat1 decode1 _ _ _ s pass_1 Hs).
  apply flat_map_singleton.
Qed.

(** Claim C10.  On a string whose code units are all code points of the
    Basic Multilingual Plane (no surrogate), [encode] returns and [decode]
    gives the string back: the passes of [decode] undo, in turn, the
    replacement of [%20] by [+] and the escapes of three, two and one
    octets. *)
Theorem decode_encode_bmp s :
  Forall bmp s -> exists e, encode s = Ok e /\ decode e = s.
Proof.
  intros Hs. exists (flat_map piece_plus s). split.
  - apply encode_bmp, Hs.
  - apply decode_pieces, bmp_range, Hs.
Qed.

(** ** Three escapes in any context *)

Lemma replace_through pat f X B Y :
  blocks (tail pat) B = true -> inert pat B = true ->
  replace_seq pat f (X ++ B ++ Y) = replace_seq pat f X ++ B ++ replace_seq pat f Y.
Proof.
  intros Hb Hi. rewrite (replace_blocked pat f X B Y Hb), (replace_inert pat f B Y Hi).
  reflexivity.
Qed.

Lemma blocks_high pt c : Forall (fun p : Z -> bool => p c = false) pt -> blocks pt [c] = true.
Proof.
  induction 1 as [|p pt Hp Hpt IH]; [reflexivity|].
  cbn [blocks]. rewrite IH, andb_true_r. apply rejects_head, Hp.
Qed.

Lemma high_not_one_of s c : 128 <= c -> Forall (fun x => x < 128) (str s) -> one_of s c = false.
Proof.
  intros Hc Hs. destruct (one_of s c) eqn:E; [|reflexivity].
  apply one_of_spec in E. rewrite Forall_forall in Hs.
  apply list_elem_of_In, Hs in E. lia.
Qed.

Lemma high_not_in_range lo hi c : 128 <= c -> code hi < 128 -> in_range lo hi c = false.
Proof.
  intros Hc Hhi. destruct (in_range lo hi c) eqn:E; [|reflexivity].
  apply in_range_spec in E. lia.
Qed.

Lemma high_no_class c :
  128 <= c ->
  cls_pct c = false /\ cls_EF c = false /\ cls_CD c = false /\ cls_89AB c = false /\
  cls_HEX c = false /\ cls_07 c = false /\ is_char "+" c = false.
Proof.
  intros Hc. repeat split.
  - apply high_not_pct, Hc.
  - apply high_not_one_of; [exact Hc | repeat constructor].
  - apply high_not_one_of; [exact Hc | repeat constructor].
  - apply high_not_one_of; [exact Hc | repeat constructor].
  - unfold cls_HEX. rewrite !high_not_in_range by (try exact Hc; reflexivity). reflexivity.
  - apply high_not_in_range; [exact Hc | reflexivity].
  - unfold is_char. eval_codes. apply Z.eqb_neq. lia.
Qed.

Lemma through_high pat f X c Y :
  128 <= c -> pat = pat2 \/ pat = pat1 ->
  replace_seq pat f (X ++ [c] ++ Y) = replace_seq pat f X ++ [c] ++ replace_seq pat f Y.
Proof.
  intros Hc Hpat. destruct (high_no_class c Hc) as (H1 & H2 & H3 & H4 & H5 & H6 & H7).
  apply replace_through.
  - apply blocks_high. destruct Hpat as [->| ->]; repeat constructor; assumption.
  - destruct Hpat as [->| ->]; apply inert_lit; assumption.
Qed.

Lemma triple_octets b1 b2 b3 :
  224 <= b1 <= 255 -> 128 <= b2 <= 191 -> 128 <= b3 <= 191 ->
  triple b1 b2 b3 (pct_octet b1 ++ pct_octet b2 ++ pct_octet b3).
Proof.
  intros R1 R2 R3.
  destruct (esc_octet b1) as (h1 & l1 & -> & Hh1 & Hl1 & E1); [lia|].
  destruct (esc_octet b2) as (h2 & l2 & -> & Hh2 & Hl2 & E2); [lia|].
  destruct (esc_octet b3) as (h3 & l3 & -> & Hh3 & Hl3 & E3); [lia|].
  unfold digit in *. apply triple_intro; unfold digit; lia.
Qed.

Lemma blocks_lead pt h l B :
  14 <= h <= 15 ->
  pt = tail pat3 \/ pt = tail pat2 \/ pt = tail pat1 \/ pt = [] ->
  blocks pt (esc h l ++ B) = true.
Proof.
  intros Hh Hpt. unfold esc.
  change ([code "%"; hexdigit h; hexdigit l] ++ B)
    with ([code "%"; hexdigit h] ++ hexdigit l :: B).
  apply blocks_app.
  assert (h = 14 \/ h = 15) as [-> | ->] by lia;
    destruct Hpt as [->|[->|[->| ->]]]; reflexivity.
Qed.

Lemma triple_through pat f b1 b2 b3 T X Y :
  triple b1 b2 b3 T ->
  pat = pat2 \/ pat = pat1 \/ pat = [is_char "+"] ->
  replace_seq pat f (X ++ T ++ Y) = replace_seq pat f X ++ T ++ replace_seq pat f Y.
Proof.
  intros [h1 l1 h2 l2 h3 l3 Hh1 Hl1 Hh2 Hl2 Hh3 Hl3 R1 R2 R3 E1 E2 E3] Hpat.
  apply replace_through.
  - apply blocks_lead; [unfold digit in *; lia|].
    destruct Hpat as [->|[->| ->]]; auto.
  - destruct Hpat as [->|[->| ->]].
    + unfold pat2. repeat apply inert_app; apply inert_esc; try assumption;
        rewrite CD_hexdigit by assumption; unfold digit in *; digit_bool;
        first [left; digit_bool; lia | right; digit_bool; lia].
    + unfold pat1. repeat apply inert_app; apply inert_esc; try assumption;
        rewrite O7_hexdigit by assumption; unfold digit in *; digit_bool; lia.
    + apply inert_all. repeat apply Forall_app_2; apply esc_no_plus; assumption.
Qed.

Lemma decode3_triple b1 b2 b3 T :
  triple b1 b2 b3 T ->
  decode3 T = if refused b1 b2 b3 then T else [packed b1 b2 b3].
Proof.
  intros [h1 l1 h2 l2 h3 l3 Hh1 Hl1 Hh2 Hl2 Hh3 Hl3 R1 R2 R3 E1 E2 E3].
  rewrite decode3_esc by assumption. cbv zeta. rewrite E1, E2, E3.
  unfold refused, packed. rewrite !Z.shiftl_mul_pow2 by lia.
  change (2 ^ 12) with 4096. change (2 ^ 6) with 64.
  destruct ((b1 - 224 =? 0) && (b2 - 128 <? 32)); [reflexivity|]. simpl orb.
  rewrite Z.gtb_ltb.
  destruct (Z.ltb_spec 65535 ((b1 - 224) * 4096 + (b2 - 128) * 64 + (b3 - 128)));
    [reflexivity|].
  rewrite fromCharCode_id; [reflexivity|]. unfold digit in *. lia.
Qed.

Lemma triple_pat3 b1 b2 b3 T : triple b1 b2 b3 T -> match_classes pat3 T = Some T /\ T <> [].
Proof.
  intros [h1 l1 h2 l2 h3 l3 Hh1 Hl1 Hh2 Hl2 Hh3 Hl3 R1 R2 R3 E1 E2 E3]. split.
  - apply match_pat3; assumption.
  - discriminate.
Qed.

Lemma packed_high b1 b2 b3 :
  224 <= b1 -> 128 <= b2 -> 128 <= b3 -> refused b1 b2 b3 = false -> 128 <= packed b1 b2 b3.
Proof.
  unfold refused, packed. intros R1 R2 R3 [Ho _]%orb_false_iff.
  apply andb_false_iff in Ho as [Ho%Z.eqb_neq|Ho%Z.ltb_ge]; lia.
Qed.

(** Claim C8, amended.  Wherever three escapes written with the digits 0-9
    and A-F stand in the input, the first for an octet in E0..FF and the
    next two for octets in 80..BF, [decode] replaces them by the one code
    unit that their bits pack, and leaves them as they are when the form is
    overlong or the value exceeds 0xFFFF; what comes before and after them
    is decoded as it is on its own.  The expressions of [decode] read no
    other digits: they have no [i] flag. *)
Theorem decode_three_escapes pre post b1 b2 b3 :
  224 <= b1 <= 255 -> 128 <= b2 <= 191 -> 128 <= b3 <= 191 ->
  decode (pre ++ pct_octet b1 ++ pct_octet b2 ++ pct_octet b3 ++ post)
  = decode pre ++ decoded_triple b1 b2 b3 ++ decode post.
Proof.
  intros R1 R2 R3. pose proof (triple_octets b1 b2 b3 R1 R2 R3) as HT.
  unfold decoded_triple.
  set (T := pct_octet b1 ++ pct_octet b2 ++ pct_octet b3) in *.
  replace (pre ++ pct_octet b1 ++ pct_octet b2 ++ pct_octet b3 ++ post)
    with (pre ++ T ++ post) by (unfold T; rewrite <- !app_assoc; reflexivity).
  unfold decode, plus_to_space.
  rewrite (triple_through _ _ b1 b2 b3 T _ _ HT) by auto.
  destruct (triple_pat3 _ _ _ _ HT) as [Hm Hne].
  rewrite (replace_blocked pat3 decode3).
  2:{ destruct HT. apply blocks_lead; [unfold digit in *; lia | auto]. }
  rewrite (replace_hit pat3 decode3 T _ Hm Hne), (decode3_triple _ _ _ _ HT).
  destruct (refused b1 b2 b3) eqn:Hr.
  - rewrite (triple_through pat2 _ b1 b2 b3 T _ _ HT) by auto.
    rewrite (triple_through pat1 _ b1 b2 b3 T _ _ HT) by auto.
    reflexivity.
  - pose proof (packed_high b1 b2 b3 ltac:(lia) ltac:(lia) ltac:(lia) Hr) as Hhi.
    rewrite (through_high pat2 _ _ _ _ Hhi) by auto.
    rewrite (through_high pat1 _ _ _ _ Hhi) by auto.
    reflexivity.
Qed.

(** ** What encode writes *)

Lemma escape_point_4 c :
  65536 <= c ->
  escape_point c
  = pct_octet (240 + c / 262144) ++ pct_octet (128 + (c / 4096) mod 64)
    ++ pct_octet (128 + (c / 64) mod 64) ++ pct_octet (128 + c mod 64).
Proof.
  intros H. unfold escape_point, utf8_octets.
  rewrite !(proj2 (Z.ltb_ge _ _)) by lia. reflexivity.
Qed.

Lemma escape_run_octet sp b r :
  0 <= b < 256 -> (sp = false -> b <> 32) -> escape_run sp r ->
  escape_run sp (pct_octet b ++ r).
Proof.
  intros Hb Hsp Hr. destruct (esc_octet b Hb) as (h & l & -> & Hh & Hl & E).
  apply escape_run_cons; try assumption. rewrite E. exact Hsp.
Qed.

Lemma escape_point_run V :
  0 <= V < 1114112 -> escape_run (V =? 32) (escape_point V).
Proof.
  intros HV.
  destruct (Z_lt_ge_dec V 128) as [H1|H1];
    [|destruct (Z_lt_ge_dec V 2048) as [H2|H2];
      [|destruct (Z_lt_ge_dec V 65536) as [H3|H3]]].
  - rewrite escape_point_1 by lia. rewrite <- (app_nil_r (pct_octet V)).
    apply escape_run_octet; [lia | intros E%Z.eqb_neq; exact E | constructor].
  - rewrite escape_point_2 by lia.
    pose proof (div_bounds V 64 2 32 eq_refl ltac:(lia)).
    pose proof (Z.mod_pos_bound V 64 eq_refl).
    rewrite <- (app_nil_r (pct_octet (128 + _))).
    repeat (apply escape_run_octet; [lia | lia |]). constructor.
  - rewrite escape_point_3 by lia.
    pose proof (div_bounds V 4096 0 16 eq_refl ltac:(lia)).
    pose proof (Z.mod_pos_bound (V / 64) 64 eq_refl).
    pose proof (Z.mod_pos_bound V 64 eq_refl).
    rewrite <- (app_nil_r (pct_octet (128 + V mod 64))).
    repeat (apply escape_run_octet; [lia | lia |]). constructor.
  - rewrite escape_point_4 by lia.
    pose proof (div_bounds V 262144 0 5 eq_refl ltac:(lia)).
    pose proof (Z.mod_pos_bound (V / 4096) 64 eq_refl).
    pose proof (Z.mod_pos_bound (V / 64) 64 eq_refl).
    pose proof (Z.mod_pos_bound V 64 eq_refl).
    rewrite <- (app_nil_r (pct_octet (128 + V mod 64))).
    repeat (apply escape_run_octet; [lia | lia |]). constructor.
Qed.

Lemma escape_run_inert e :
  escape_run false e -> inert pat_20 e = true.
Proof.
  induction 1 as [|h l r Hh Hl Hne Hr IH]; [reflexivity|].
  apply inert_app; [|exact IH]. unfold pat_20.
  destruct (Z.eq_dec h 2) as [->|Hh2].
  - apply inert_esc_lo; try assumption.
    rewrite zero_hexdigit by assumption. digit_bool. specialize (Hne eq_refl). lia.
  - apply inert_esc; try assumption.
    rewrite two_hexdigit by assumption. digit_bool. lia.
Qed.

Lemma escape_run_text sp e r : escape_run sp e -> escaped_text r -> escaped_text (e ++ r).
Proof.
  intros He Hr. induction He as [|h l e Hh Hl _ He IH]; [exact Hr|].
  rewrite <- app_assoc. apply escaped_esc; assumption.
Qed.

Lemma scalar_range V : scalar V -> 0 <= V < 1114112.
Proof. unfold scalar. lia. Qed.

Lemma pass_20_point V r :
  scalar V ->
  replace_seq pat_20 (fun _ => str "+") (piece uriUnescaped V ++ r)
  = piece_plus V ++ replace_seq pat_20 (fun _ => str "+") r.
Proof.
  intros HV. destruct (Z_lt_ge_dec V 65536) as [Hlt|Hge].
  - apply pass_20. apply scalar_range in HV. lia.
  - unfold piece_plus, piece.
    rewrite (proj2 (Z.eqb_neq V 32)) by lia.
    destruct (uriUnescaped V) eqn:Hu; [apply uriUnescaped_ascii in Hu; lia|].
    apply replace_inert, escape_run_inert.
    pose proof (escape_point_run V (scalar_range V HV)) as Hrun.
    rewrite (proj2 (Z.eqb_neq V 32)) in Hrun by lia. exact Hrun.
Qed.

Lemma points_spec n : forall s,
  (length s <= n)%nat -> code_units s ->
  match points s with
  | Some ps =>
      encodeURIComponent s = Ok (flat_map (piece uriUnescaped) ps) /\ Forall scalar ps
  | None => encodeURIComponent s = Raise URIError
  end.
Proof.
  induction n as [|n IH]; intros s Hn Hs.
  { destruct s; [split; [reflexivity | constructor] | simpl in Hn; lia]. }
  destruct s as [|C t]; [split; [reflexivity | constructor]|].
  inversion Hs as [|? ? HC Ht]; subst. simpl in Hn.
  pose proof (IH t ltac:(lia) Ht) as IHt.
  cbn [points encodeURIComponent].
  destruct (uriUnescaped C) eqn:Hu.
  - pose proof (uriUnescaped_ascii _ Hu) as Hu'.
    unfold low_surrogate, high_surrogate.
    rewrite (proj2 (Z.leb_gt 56320 C)), (proj2 (Z.leb_gt 55296 C)) by lia. simpl.
    destruct (points t) as [ps|]; cbn [fmap option_fmap option_map].
    + destruct IHt as [-> Hps]. cbn [flat_map mbind res_bind].
      change (piece uriUnescaped C) with (if uriUnescaped C then [C] else escape_point C).
      rewrite Hu.
      split; [reflexivity|]. constructor; [left; lia | exact Hps].
    + rewrite IHt. reflexivity.
  - destruct (low_surrogate C) eqn:Hlo; [reflexivity|].
    destruct (high_surrogate C) eqn:Hhi; simpl negb; cbv iota.
    + destruct t as [|k t']; [reflexivity|].
      destruct (low_surrogate k) eqn:Hk; [|reflexivity].
      inversion Ht as [|? ? Hk' Ht']; subst.
      pose proof (IH t' ltac:(simpl in Hn; lia) Ht') as IHt'.
      unfold high_surrogate, low_surrogate in *.
      apply andb_true_iff in Hhi as [H1%Z.leb_le H2%Z.leb_le].
      apply andb_true_iff in Hk as [H3%Z.leb_le H4%Z.leb_le].
      destruct (points t') as [ps|]; cbn [fmap option_fmap option_map].
      * destruct IHt' as [-> Hps]. cbn [flat_map mbind res_bind].
        set (V := (C - 55296) * 1024 + (k - 56320) + 65536).
        change (piece uriUnescaped V) with (if uriUnescaped V then [V] else escape_point V).
        assert (HV : 65536 <= V < 1114112) by (unfold V; lia).
        destruct (uriUnescaped V) eqn:HuV; [apply uriUnescaped_ascii in HuV; lia|].
        split; [reflexivity|]. constructor; [right; exact HV | exact Hps].
      * rewrite IHt'. reflexivity.
    + unfold high_surrogate, low_surrogate in *.
      destruct (points t) as [ps|]; cbn [fmap option_fmap option_map].
      * destruct IHt as [-> Hps]. cbn [flat_map mbind res_bind].
      change (piece uriUnescaped C) with (if uriUnescaped C then [C] else escape_point C).
      rewrite Hu.
        split; [reflexivity|]. constructor; [|exact Hps]. left. split; [exact HC|].
        apply andb_false_iff in Hlo, Hhi. rewrite !Z.leb_gt in Hlo, Hhi. lia.
      * rewrite IHt. reflexivity.
Qed.

Lemma piece_plus_text V r : scalar V -> escaped_text r -> escaped_text (piece_plus V ++ r).
Proof.
  intros HV Hr. unfold piece_plus, piece. destruct (Z.eqb_spec V 32) as [->|Hne].
  - apply escaped_plus, Hr.
  - destruct (uriUnescaped V) eqn:Hu.
    + apply escaped_unreserved; assumption.
    + eapply escape_run_text; [apply escape_point_run, scalar_range, HV | exact Hr].
Qed.

Lemma pieces_text ps : Forall scalar ps -> escaped_text (flat_map piece_plus ps).
Proof.
  induction 1 as [|V ps HV Hps IH]; [constructor|].
  simpl. apply piece_plus_text; assumption.
Qed.

(** Claim C4, amended.  For a string without a lone surrogate, [encode]
    returns the pieces of its code points one after the other: the code
    point itself when it is unreserved, [+] for the space, and the escapes
    of its UTF-8 octets otherwise; so the result holds only unreserved
    characters, [+] and escapes.  For a string with a lone surrogate,
    [encode] throws a URIError. *)
Theorem encode_escapes s :
  code_units s ->
  match points s with
  | Some ps =>
      encode s = Ok (flat_map piece_plus ps) /\ escaped_text (flat_map piece_plus ps)
  | None => encode s = Raise URIError
  end.
Proof.
  intros Hs. pose proof (points_spec (length s) s (le_n _) Hs) as H.
  unfold encode. destruct (points s) as [ps|].
  - destruct H as [-> Hps]. simpl. split; [|apply pieces_text, Hps].
    f_equal. apply (replace_flat_map _ _ _ _ scalar); [|exact Hps].
    intros V r. apply pass_20_point.
  - rewrite H. reflexivity.
Qed.

(** Claim C4 as it is written fails on the string made of the lone
    surrogate U+D800: [encodeURIComponent] throws a URIError there. *)
Lemma encode_lone_surrogate : code_units [55296] /\ ~ encodes [55296].
Proof.
  split; [constructor; [lia | constructor]|].
  intros (r & Hr & _). discriminate Hr.
Qed.

(** Claim C8 as it is written fails on escapes with a lower-case digit:
    the three escapes of U+2120 are left as they are when written
    ["%e2%84%a0"], though their form is not overlong and their value does
    not exceed 0xFFFF. *)
Lemma decode_lower_case_escapes :
  parseInt16 (str "e2") = Some 226 /\ parseInt16 (str "84") = Some 132 /\
  parseInt16 (str "a0") = Some 160 /\
  refused 226 132 160 = false /\
  decode (str "%e2%84%a0") = str "%e2%84%a0" /\
  decode (str "%e2%84%a0") <> [packed 226 132 160].
Proof.
  repeat (split; [reflexivity|]).
  intros H. vm_compute in H. discriminate H.
Qed.

Lemma decode_three_escapes_witness :
  (224 <= 226 <= 255 /\ 128 <= 132 <= 191 /\ 128 <= 160 <= 191) /\
  decode (str "x=" ++ pct_octet 226 ++ pct_octet 132 ++ pct_octet 160 ++ str "+y")
  = decode (str "x=") ++ decoded_triple 226 132 160 ++ decode (str "+y").
Proof.
  split; [lia|].
  exact (decode_three_escapes (str "x=") (str "+y") 226 132 160
           ltac:(lia) ltac:(lia) ltac:(lia)).
Defined.

Example decode_service_mark : decode (str "%E2%84%A0") = [8480].
Proof. reflexivity. Qed.

Example decode_overlong : decode (str "%E0%80%80%C0%80") = str "%E0%80%80%C0%80".
Proof. reflexivity. Qed.

Example decode_tolerant : decode (str "%zz") = str "%zz" /\ decode (str "a+b") = str "a b".
Proof. split; reflexivity. Qed.

Lemma bmp_sample : Forall bmp [61; 32; 43; 37; 233; 8480].
Proof. repeat constructor; unfold bmp; lia. Defined.

Lemma decode_encode_bmp_witness :
  Forall bmp [61; 32; 43; 37; 233; 8480] /\
  exists e, encode [61; 32; 43; 37; 233; 8480] = Ok e /\ decode e = [61; 32; 43; 37; 233; 8480].
Proof.
  split; [exact bmp_sample|].
  exact (decode_encode_bmp [61; 32; 43; 37; 233; 8480] bmp_sample).
Defined.

Lemma code_units_sample : code_units [61; 32; 55357; 56832].
Proof. repeat constructor; lia. Defined.

Lemma encode_escapes_witness :
  code_units [61; 32; 55357; 56832] /\
  encode [61; 32; 55357; 56832] = Ok (str "%3D+%F0%9F%98%80") /\
  escaped_text (str "%3D+%F0%9F%98%80").
Proof.
  split; [exact code_units_sample|].
  exact (encode_escapes [61; 32; 55357; 56832] code_units_sample).
Defined.

(** ** More contexts for [decode] *)

Lemma not_hex_no_class c :
  cls_HEX c = false ->
  cls_EF c = false /\ cls_CD c = false /\ cls_89AB c = false /\ cls_07 c = false.
Proof.
  unfold cls_HEX. intros [H1 H2]%orb_false_iff.
  assert (G1 : ~ (48 <= c <= 57)).
  { intros Hx. apply (in_range_spec "0" "9") in Hx. congruence. }
  assert (G2 : ~ (65 <= c <= 70)).
  { intros Hx. apply (in_range_spec "A" "F") in Hx. congruence. }
  repeat split.
  - destruct (cls_EF c) eqn:E; [|reflexivity]. apply one_of_spec in E. simpl in E.
    eval_codes. lia.
  - destruct (cls_CD c) eqn:E; [|reflexivity]. apply one_of_spec in E. simpl in E.
    eval_codes. lia.
  - destruct (cls_89AB c) eqn:E; [|reflexivity]. apply one_of_spec in E. simpl in E.
    eval_codes. lia.
  - destruct (cls_07 c) eqn:E; [|reflexivity]. apply in_range_spec in E.
    eval_codes. lia.
Qed.

(** A code unit that no class of the expressions of [decode] accepts
    separates what is replaced before it from what is replaced after it. *)
Lemma through_separator pat f X c Y :
  cls_pct c = false -> cls_HEX c = false ->
  pat = pat3 \/ pat = pat2 \/ pat = pat1 ->
  replace_seq pat f (X ++ [c] ++ Y) = replace_seq pat f X ++ [c] ++ replace_seq pat f Y.
Proof.
  intros Hp Hx Hpat. destruct (not_hex_no_class c Hx) as (H1 & H2 & H3 & H4).
  apply replace_through.
  - apply blocks_high. destruct Hpat as [->|[->| ->]]; repeat constructor; assumption.
  - destruct Hpat as [->|[->| ->]]; apply inert_lit; assumption.
Qed.

(** X19: a code unit that is neither [%] nor one of the digits 0-9 and A-F
    splits the work of [decode]: what stands before it and what stands
    after it are decoded each on its own, and the code unit stays, a [+]
    as a space. *)
Theorem decode_splits c pre post :
  cls_pct c = false -> cls_HEX c = false ->
  decode (pre ++ c :: post) = decode pre ++ plus_as_space c :: decode post.
Proof.
  intros Hp Hx. unfold decode.
  assert (H1 : plus_to_space (pre ++ [c] ++ post)
               = plus_to_space pre ++ [plus_as_space c] ++ plus_to_space post).
  { unfold plus_to_space, plus_as_space. destruct (is_char "+" c) eqn:Hc.
    - rewrite (replace_blocked [is_char "+"] _ pre [c] post eq_refl).
      unfold is_char in Hc. apply Z.eqb_eq in Hc. subst c.
      change ([code "+"] ++ post) with (str "+" ++ post).
      rewrite (replace_hit [is_char "+"] (fun _ => str " ") (str "+") post eq_refl);
        [reflexivity | discriminate].
    - apply replace_through; [reflexivity | apply inert_lit, Hc]. }
  change (pre ++ c :: post) with (pre ++ [c] ++ post). rewrite H1.
  assert (Hp' : cls_pct (plus_as_space c) = false).
  { unfold plus_as_space. destruct (is_char "+" c); [reflexivity | exact Hp]. }
  assert (Hx' : cls_HEX (plus_as_space c) = false).
  { unfold plus_as_space. destruct (is_char "+" c); [reflexivity | exact Hx]. }
  rewrite (through_separator pat3 _ _ _ _ Hp' Hx') by auto.
  rewrite (through_separator pat2 _ _ _ _ Hp' Hx') by auto.
  rewrite (through_separator pat1 _ _ _ _ Hp' Hx') by auto.
  reflexivity.
Qed.

Lemma decode_splits_witness :
  (cls_pct (code "&") = false /\ cls_HEX (code "&") = false) /\
  decode (str "a%20b" ++ code "&" :: str "%E2%84%A0")
  = decode (str "a%20b") ++ plus_as_space (code "&") :: decode (str "%E2%84%A0").
Proof.
  split; [split; reflexivity|].
  apply (decode_splits (code "&") (str "a%20b") (str "%E2%84%A0")); reflexivity.
Defined.

(** An escape whose first digit is none of 8, 9, A and B is not reached by
    a match that starts before it. *)
Lemma blocks_first : forall h, digit h ->
  blocks (tail pat3) [code "%"; hexdigit h]
  && blocks (tail pat2) [code "%"; hexdigit h]
  && blocks (tail pat1) [code "%"; hexdigit h]
  = negb ((8 <=? h) && (h <=? 11)).
Proof. each_digit. Qed.

Lemma blocks_esc pat h l B :
  digit h -> ~ (8 <= h <= 11) ->
  pat = pat3 \/ pat = pat2 \/ pat = pat1 \/ pat = [is_char "+"] ->
  blocks (tail pat) (esc h l ++ B) = true.
Proof.
  intros Hh Hn Hpat. unfold esc.
  change ([code "%"; hexdigit h; hexdigit l] ++ B)
    with ([code "%"; hexdigit h] ++ hexdigit l :: B).
  apply blocks_app. pose proof (blocks_first h Hh) as Hb.
  replace (negb ((8 <=? h) && (h <=? 11))) with true in Hb.
  - apply andb_true_iff in Hb as [[H3 H2]%andb_true_iff H1].
    destruct Hpat as [->|[->|[->| ->]]]; [assumption.. | reflexivity].
  - symmetry. apply negb_true_iff. digit_bool. lia.
Qed.

Lemma inert_plus_esc h l : digit h -> digit l -> inert [is_char "+"] (esc h l) = true.
Proof. intros Hh Hl. apply inert_all, esc_no_plus; assumption. Qed.

(** X20: wherever the escape of an octet below 0x80, written with the
    digits 0-9 and A-F, stands in the input, [decode] replaces it by the
    code unit of that value; what comes before and after it is decoded as
    it is on its own. *)
Theorem decode_one_escape pre post b :
  0 <= b < 128 ->
  decode (pre ++ pct_octet b ++ post) = decode pre ++ [b] ++ decode post.
Proof.
  intros Hb.
  destruct (esc_octet b) as (h & l & -> & Hh & Hl & E); [lia|].
  assert (Hh7 : h <= 7) by (unfold digit in *; lia).
  assert (Hn : ~ (8 <= h <= 11)) by lia.
  unfold decode, plus_to_space.
  rewrite (replace_through [is_char "+"] _ pre (esc h l) post)
    by (first [apply (blocks_esc [is_char "+"]); auto | apply inert_plus_esc; assumption]).
  rewrite (replace_through pat3 _ _ (esc h l)); cycle 1.
  { rewrite <- (app_nil_r (esc h l)). apply (blocks_esc pat3); auto. }
  { apply inert_esc; try assumption. rewrite EF_hexdigit by assumption.
    digit_bool. lia. }
  rewrite (replace_through pat2 _ _ (esc h l)); cycle 1.
  { rewrite <- (app_nil_r (esc h l)). apply (blocks_esc pat2); auto. }
  { apply inert_esc; try assumption. rewrite CD_hexdigit by assumption.
    digit_bool. left. digit_bool. lia. }
  rewrite (replace_blocked pat1 decode1) by (apply (blocks_esc pat1); auto).
  rewrite (replace_hit pat1 decode1 (esc h l));
    [|apply match_pat1; assumption | discriminate].
  rewrite decode1_esc by assumption. rewrite E, fromCharCode_id by lia. reflexivity.
Qed.

Lemma decode_one_escape_witness :
  0 <= 38 < 128 /\
  decode (str "%E2%84" ++ pct_octet 38 ++ str "41")
  = decode (str "%E2%84") ++ [38] ++ decode (str "41").
Proof.
  split; [lia|]. apply (decode_one_escape (str "%E2%84") (str "41") 38). lia.
Defined.

(** X21: wherever two escapes written with the digits 0-9 and A-F stand in
    the input, the first for an octet in C0..DF and the second for an octet
    in 80..BF, [decode] replaces them by the one code unit that their bits
    pack, and leaves them as they are when the lead octet is C0 or C1 (an
    overlong form); what comes before and after them is decoded as it is on
    its own. *)
Theorem decode_two_escapes pre post b1 b2 :
  192 <= b1 <= 223 -> 128 <= b2 <= 191 ->
  decode (pre ++ pct_octet b1 ++ pct_octet b2 ++ post)
  = decode pre ++ decoded_pair b1 b2 ++ decode post.
Proof.
  intros R1 R2. unfold decoded_pair.
  destruct (esc_octet b1) as (h1 & l1 & -> & Hh1 & Hl1 & E1); [lia|].
  destruct (esc_octet b2) as (h2 & l2 & -> & Hh2 & Hl2 & E2); [lia|].
  assert (Hh1' : 12 <= h1 <= 13) by (unfold digit in *; lia).
  assert (Hh2' : 8 <= h2 <= 11) by (unfold digit in *; lia).
  assert (Hn : ~ (8 <= h1 <= 11)) by lia.
  set (T := esc h1 l1 ++ esc h2 l2).
  replace (pre ++ esc h1 l1 ++ esc h2 l2 ++ post) with (pre ++ T ++ post)
    by (unfold T; rewrite <- !app_assoc; reflexivity).
  assert (Hb : forall pat,
            pat = pat3 \/ pat = pat2 \/ pat = pat1 \/ pat = [is_char "+"] ->
            forall Y, blocks (tail pat) (T ++ Y) = true).
  { intros pat Hpat Y. unfold T. rewrite <- app_assoc. apply blocks_esc; assumption. }
  assert (Hb0 : forall pat,
            pat = pat3 \/ pat = pat2 \/ pat = pat1 \/ pat = [is_char "+"] ->
            blocks (tail pat) T = true).
  { intros pat Hpat. rewrite <- (app_nil_r T). apply Hb, Hpat. }
  unfold decode, plus_to_space.
  rewrite (replace_through [is_char "+"] _ pre T post); cycle 1.
  { apply Hb0. auto. }
  { apply inert_app; apply inert_plus_esc; assumption. }
  rewrite (replace_through pat3 _ _ T); cycle 1.
  { apply Hb0. auto. }
  { apply inert_app; apply inert_esc; try assumption;
      rewrite EF_hexdigit by assumption; digit_bool; lia. }
  rewrite (replace_blocked pat2 decode2) by (apply Hb; auto).
  rewrite (replace_hit pat2 decode2 T);
    [|apply match_pat2; assumption | discriminate].
  unfold T at 1. rewrite decode2_esc by assumption. cbv zeta. rewrite E1, E2.
  destruct (b1 - 192 <? 2) eqn:Hover.
  - fold T. rewrite (replace_through pat1 _ _ T); [reflexivity | apply Hb0; auto |].
    apply inert_app; apply inert_esc; try assumption;
      rewrite O7_hexdigit by assumption; digit_bool; lia.
  - apply Z.ltb_ge in Hover.
    rewrite Z.shiftl_mul_pow2 by lia. change (2 ^ 6) with 64.
    rewrite fromCharCode_id by lia.
    rewrite (through_high pat1) by (first [lia | auto]). reflexivity.
Qed.

Lemma decode_two_escapes_witness :
  (192 <= 195 <= 223 /\ 128 <= 169 <= 191) /\
  decode (str "caf" ++ pct_octet 195 ++ pct_octet 169 ++ str "+au+lait")
  = decode (str "caf") ++ decoded_pair 195 169 ++ decode (str "+au+lait").
Proof.
  split; [lia|].
  apply (decode_two_escapes (str "caf") (str "+au+lait") 195 169); lia.
Defined.

(** ** What [decode] leaves as it is *)

Lemma replace_miss pat f c t :
  match_classes pat (c :: t) = None ->
  replace_seq pat f (c :: t) = c :: replace_seq pat f t.
Proof.
  intros E. unfold replace_seq, replace_with.
  rewrite scan_miss by (unfold re_seq; rewrite E; reflexivity). reflexivity.
Qed.

Lemma undecoded_pass (P : Z -> bool) pt f s :
  (forall d, P d = true -> (cls_07 d || cls_CD d || cls_EF d) = true) ->
  undecoded s = true -> replace_seq (cls_pct :: P :: pt) f s = s.
Proof.
  intros HP. induction s as [|c t IH]; [reflexivity|].
  cbn [undecoded]. intros [Hc Ht]%andb_true_iff.
  rewrite replace_miss; [rewrite IH by exact Ht; reflexivity|].
  rewrite match_classes_cons. destruct (cls_pct c); [|reflexivity].
  destruct t as [|d t']; [reflexivity|]. rewrite match_classes_cons.
  destruct (P d) eqn:Hd; [|reflexivity].
  rewrite (HP d Hd) in Hc. discriminate Hc.
Qed.

Lemma plus_to_space_map s : plus_to_space s = plus_as_space <$> s.
Proof.
  unfold plus_to_space. induction s as [|c t IH]; [reflexivity|].
  rewrite fmap_cons, <- IH. unfold plus_as_space. destruct (is_char "+" c) eqn:Hc.
  - unfold is_char in Hc. apply Z.eqb_eq in Hc. subst c.
    apply (replace_hit [is_char "+"] (fun _ => str " ") (str "+") t eq_refl).
    discriminate.
  - apply (replace_inert [is_char "+"] _ [c] t). apply inert_lit, Hc.
Qed.

Lemma plus_as_space_class c :
  cls_pct (plus_as_space c) = cls_pct c /\
  (cls_07 (plus_as_space c) || cls_CD (plus_as_space c) || cls_EF (plus_as_space c))
  = (cls_07 c || cls_CD c || cls_EF c).
Proof.
  unfold plus_as_space. destruct (is_char "+" c) eqn:Hc; [|auto].
  unfold is_char in Hc. apply Z.eqb_eq in Hc. subst c. split; reflexivity.
Qed.

Lemma undecoded_spaces s : undecoded (plus_as_space <$> s) = undecoded s.
Proof.
  induction s as [|c t IH]; [reflexivity|].
  rewrite fmap_cons. cbn [undecoded]. rewrite IH.
  destruct (plus_as_space_class c) as [-> _].
  destruct t as [|d t']; [reflexivity|]. rewrite fmap_cons.
  destruct (plus_as_space_class d) as [_ ->]. reflexivity.
Qed.

(** X22: [decode] is tolerant: a text in which no [%] is followed by one of
    the digits 0-7, C, D, E and F comes back as it is, but for each [+],
    which becomes a space.  This covers a [%] at the end or before a code
    unit that is no digit, the escapes of lone continuation octets (%80 to
    %BF) and the escapes written with a lower-case first digit. *)
Theorem decode_leaves s :
  undecoded s = true -> decode s = plus_as_space <$> s.
Proof.
  intros Hs. unfold decode. rewrite plus_to_space_map.
  rewrite <- undecoded_spaces in Hs.
  assert (H3 : forall d, cls_EF d = true -> (cls_07 d || cls_CD d || cls_EF d) = true)
    by (intros d Hd; rewrite Hd, ?orb_true_r; reflexivity).
  assert (H2 : forall d, cls_CD d = true -> (cls_07 d || cls_CD d || cls_EF d) = true)
    by (intros d Hd; rewrite Hd, ?orb_true_r; reflexivity).
  assert (H1 : forall d, cls_07 d = true -> (cls_07 d || cls_CD d || cls_EF d) = true)
    by (intros d Hd; rewrite Hd, ?orb_true_r; reflexivity).
  unfold pat3, pat2, pat1.
  rewrite (undecoded_pass cls_EF _ decode3 _ H3 Hs).
  rewrite (undecoded_pass cls_CD _ decode2 _ H2 Hs).
  rewrite (undecoded_pass cls_07 _ decode1 _ H1 Hs). reflexivity.
Qed.

Lemma decode_leaves_witness :
  undecoded (str "%zz+100%+%A0%e2%") = true /\
  decode (str "%zz+100%+%A0%e2%") = plus_as_space <$> str "%zz+100%+%A0%e2%".
Proof.
  split; [reflexivity|]. apply (decode_leaves (str "%zz+100%+%A0%e2%")). reflexivity.
Defined.

Lemma high_not_unreserved c : 128 <= c -> uriUnescaped c = false.
Proof.
  intros Hc. destruct (uriUnescaped c) eqn:Hu; [|reflexivity].
  apply uriUnescaped_ascii in Hu. lia.
Qed.

Lemma surrogate_pair_point H L :
  high_surrogate H = true -> low_surrogate L = true ->
  65536 <= (H - 55296) * 1024 + (L - 56320) + 65536 < 1114112.
Proof.
  unfold high_surrogate, low_surrogate.
  intros [H1 H2]%andb_true_iff [L1 L2]%andb_true_iff.
  apply Z.leb_le in H1, H2, L1, L2. lia.
Qed.

Lemma encode_surrogate_pair H L :
  high_surrogate H = true -> low_surrogate L = true ->
  encode [H; L] = Ok (escape_point ((H - 55296) * 1024 + (L - 56320) + 65536)).
Proof.
  intros HH HL. pose proof (surrogate_pair_point H L HH HL) as HV.
  set (V := (H - 55296) * 1024 + (L - 56320) + 65536) in *.
  assert (Henc : encodeURIComponent [H; L] = Ok (escape_point V ++ [])).
  { pose proof HH as HH'. unfold high_surrogate in HH'.
    apply andb_true_iff in HH' as [H1 H2]. apply Z.leb_le in H1, H2.
    cbn [encodeURIComponent].
    rewrite high_not_unreserved by lia.
    replace (low_surrogate H) with false
      by (symmetry; unfold low_surrogate; digit_bool; lia).
    rewrite HH, HL. reflexivity. }
  unfold encode. rewrite Henc. cbn [mbind res_bind]. f_equal.
  assert (HsV : scalar V) by (right; lia).
  pose proof (pass_20_point V [] HsV) as Hpass.
  unfold piece_plus, piece in Hpass.
  rewrite (proj2 (Z.eqb_neq V 32)) in Hpass by lia.
  rewrite high_not_unreserved in Hpass by lia.
  rewrite Hpass, replace_nil. apply app_nil_r.
Qed.

(** X23: [decode] does not invert [encode] on a surrogate pair.  [encode]
    writes the four escapes of its code point, and [decode] leaves all four
    as they are: the first three match the expression for three escapes,
    but their value exceeds 0xFFFF. *)
Theorem decode_keeps_astral H L :
  high_surrogate H = true -> low_surrogate L = true ->
  exists e, encode [H; L] = Ok e /\ decode e = e /\ length e = 12%nat.
Proof.
  intros HH HL. pose proof (surrogate_pair_point H L HH HL) as HV.
  exists (escape_point ((H - 55296) * 1024 + (L - 56320) + 65536)).
  split; [apply encode_surrogate_pair; assumption|].
  set (V := (H - 55296) * 1024 + (L - 56320) + 65536) in *.
  rewrite escape_point_4 by lia. split; [|reflexivity].
  pose proof (div_bounds V 262144 0 5 eq_refl ltac:(lia)) as B1.
  pose proof (Z.mod_pos_bound (V / 4096) 64 eq_refl) as B2.
  pose proof (Z.mod_pos_bound (V / 64) 64 eq_refl) as B3.
  pose proof (Z.mod_pos_bound V 64 eq_refl) as B4.
  set (b1 := 240 + V / 262144) in *. set (b2 := 128 + (V / 4096) mod 64) in *.
  set (b3 := 128 + (V / 64) mod 64) in *. set (b4 := 128 + V mod 64) in *.
  pose proof (triple_octets b1 b2 b3 ltac:(lia) ltac:(lia) ltac:(lia)) as HT.
  assert (Hr : refused b1 b2 b3 = true).
  { unfold refused, packed. apply orb_true_iff. right. apply Z.ltb_lt. lia. }
  destruct (triple_pat3 _ _ _ _ HT) as [Hm Hne].
  pose proof (decode3_triple _ _ _ _ HT) as Hd3. rewrite Hr in Hd3.
  set (T := pct_octet b1 ++ pct_octet b2 ++ pct_octet b3) in *.
  replace (pct_octet b1 ++ pct_octet b2 ++ pct_octet b3 ++ pct_octet b4)
    with (T ++ pct_octet b4) by (unfold T; rewrite <- !app_assoc; reflexivity).
  destruct (esc_octet b4) as (h4 & l4 & E4 & Hh4 & Hl4 & E4'); [lia|].
  assert (Hh4' : 8 <= h4 <= 11) by (unfold digit in *; lia).
  assert (Hi : forall pat, pat = pat3 \/ pat = pat2 \/ pat = pat1 \/ pat = [is_char "+"] ->
                           inert pat (pct_octet b4) = true).
  { intros pat Hpat. rewrite E4. destruct Hpat as [->|[->|[->| ->]]].
    - apply inert_esc; try assumption. rewrite EF_hexdigit by assumption. digit_bool. lia.
    - apply inert_esc; try assumption. rewrite CD_hexdigit by assumption.
      digit_bool. left. digit_bool. lia.
    - apply inert_esc; try assumption. rewrite O7_hexdigit by assumption. digit_bool. lia.
    - apply inert_plus_esc; assumption. }
  assert (Hlast : forall pat f,
            pat = pat3 \/ pat = pat2 \/ pat = pat1 \/ pat = [is_char "+"] ->
            replace_seq pat f (pct_octet b4) = pct_octet b4).
  { intros pat f Hpat. rewrite <- (app_nil_r (pct_octet b4)) at 1.
    rewrite (replace_inert pat f _ [] (Hi pat Hpat)), replace_nil. apply app_nil_r. }
  assert (Hthrough : forall pat f, pat = pat2 \/ pat = pat1 \/ pat = [is_char "+"] ->
            replace_seq pat f (T ++ pct_octet b4) = T ++ pct_octet b4).
  { intros pat f Hpat.
    pose proof (triple_through pat f b1 b2 b3 T [] (pct_octet b4) HT Hpat) as Ht.
    rewrite replace_nil in Ht. cbn [app] in Ht. rewrite Ht, Hlast; [reflexivity|].
    destruct Hpat as [->|[->| ->]]; auto. }
  unfold decode, plus_to_space.
  rewrite (Hthrough [is_char "+"]) by auto.
  rewrite (replace_hit pat3 decode3 T _ Hm Hne), Hd3, (Hlast pat3) by auto.
  rewrite (Hthrough pat2), (Hthrough pat1) by auto. reflexivity.
Qed.

Lemma decode_keeps_astral_witness :
  (high_surrogate 55357 = true /\ low_surrogate 56832 = true) /\
  exists e, encode [55357; 56832] = Ok e /\ decode e = e /\ length e = 12%nat.
Proof.
  split; [split; reflexivity|].
  apply (decode_keeps_astral 55357 56832); reflexivity.
Defined.

(** ** The key of a pair: [decodeURIComponent] after [encode] *)

Lemma encode_points s e :
  code_units s -> encode s = Ok e ->
  exists ps, points s = Some ps /\ e = flat_map piece_plus ps /\ Forall scalar ps.
Proof.
  intros Hs. pose proof (points_spec (length s) s (le_n _) Hs) as H.
  unfold encode. destruct (points s) as [ps|].
  - destruct H as [-> Hps]. simpl. intros [= <-]. exists ps.
    split; [reflexivity|]. split; [|exact Hps].
    apply (replace_flat_map _ _ _ _ scalar); [|exact Hps].
    intros V r. apply pass_20_point.
  - rewrite H. discriminate.
Qed.

Lemma escape_run_no_plus sp e :
  escape_run sp e -> Forall (fun c => is_char "+" c = false) e.
Proof.
  induction 1 as [|h l r Hh Hl _ _ IH]; [constructor|].
  apply Forall_app_2; [apply esc_no_plus; assumption | exact IH].
Qed.

Lemma pass_plus_point V r :
  scalar V -> plus_to_space (piece_plus V ++ r) = piece lit_plain V ++ plus_to_space r.
Proof.
  intros HV. destruct (Z_lt_ge_dec V 65536) as [Hlt|Hge].
  - apply pass_plus. apply scalar_range in HV. lia.
  - unfold piece_plus, piece, lit_plain.
    rewrite (proj2 (Z.eqb_neq V 32)) by lia.
    rewrite high_not_unreserved by lia. simpl orb. cbv iota.
    apply replace_inert, inert_all.
    eapply escape_run_no_plus, escape_point_run, scalar_range, HV.
Qed.

Lemma escape_at_octet b r : 0 <= b < 256 -> escape_at (pct_octet b ++ r) = Some b.
Proof.
  intros Hb. destruct (esc_octet b Hb) as (h & l & -> & Hh & Hl & E).
  unfold esc, escape_at. cbn [app]. rewrite Z.eqb_refl.
  rewrite (hexval_hexdigit h Hh), (hexval_hexdigit l Hl). simpl. rewrite E. reflexivity.
Qed.

Lemma drop_octet b r : drop 3 (pct_octet b ++ r) = r.
Proof. reflexivity. Qed.

Lemma continuation_cons n b s :
  128 <= b <= 191 ->
  continuation (S n) (pct_octet b ++ s) = cons b <$> continuation n s.
Proof.
  intros Hb. cbn [continuation].
  rewrite escape_at_octet by lia. cbn [mbind option_bind].
  rewrite (proj2 (Z.leb_le 128 b)), (proj2 (Z.leb_le b 191)) by lia. reflexivity.
Qed.

Lemma skip_run a : forall r,
  decodeURIComponent_from (length a) (a ++ r) = decodeURIComponent_from 0 r.
Proof.
  induction a as [|c a IH]; intros r; [destruct r; reflexivity|]. simpl. apply IH.
Qed.

(** What the Decode algorithm reads at the escapes of a code point. *)
Lemma decode_escape_point V r :
  scalar V ->
  decode_escape (escape_point V ++ r)
  = Some (units V, length (escape_point V)).
Proof.
  intros HV. unfold decode_escape, units.
  destruct (Z_lt_ge_dec V 128) as [H1|H1];
    [|destruct (Z_lt_ge_dec V 2048) as [H2|H2];
      [|destruct (Z_lt_ge_dec V 65536) as [H3|H3]]].
  - assert (0 <= V) by (destruct HV; lia).
    rewrite escape_point_1 by lia. rewrite escape_at_octet by lia.
    cbn [mbind option_bind].
    rewrite (proj2 (Z.ltb_lt V 128)), (proj2 (Z.ltb_lt V 65536)) by lia. reflexivity.
  - rewrite escape_point_2 by lia.
    pose proof (div_bounds V 64 2 32 eq_refl ltac:(lia)).
    pose proof (Z.mod_pos_bound V 64 eq_refl).
    pose proof (Z.div_mod V 64 ltac:(lia)).
    rewrite <- app_assoc, escape_at_octet by lia. cbn [mbind option_bind].
    rewrite (proj2 (Z.ltb_ge (192 + V / 64) 128)) by lia.
    rewrite (proj2 (Z.ltb_ge (192 + V / 64) 192)) by lia.
    rewrite (proj2 (Z.ltb_lt (192 + V / 64) 224)) by lia.
    rewrite drop_octet, !continuation_cons by lia.
    cbn [continuation fmap option_fmap option_map mbind option_bind fold_left].
    replace ((192 + V / 64 - 192) * 64 + (128 + V mod 64 - 128)) with V by lia.
    rewrite (proj2 (Z.ltb_ge V 128)), (proj2 (Z.ltb_lt V 65536)) by lia. reflexivity.
  - rewrite escape_point_3 by lia.
    pose proof (div_bounds V 4096 0 16 eq_refl ltac:(lia)).
    pose proof (Z.mod_pos_bound (V / 64) 64 eq_refl).
    pose proof (Z.mod_pos_bound V 64 eq_refl).
    pose proof (Z.div_mod V 64 ltac:(lia)).
    pose proof (Z.div_mod (V / 64) 64 ltac:(lia)).
    pose proof (Z.div_div V 64 64 ltac:(lia) ltac:(lia)) as Hdd.
    change (64 * 64) with 4096 in Hdd.
    rewrite <- !app_assoc, escape_at_octet by lia. cbn [mbind option_bind].
    rewrite (proj2 (Z.ltb_ge (224 + V / 4096) 128)) by lia.
    rewrite (proj2 (Z.ltb_ge (224 + V / 4096) 192)) by lia.
    rewrite (proj2 (Z.ltb_ge (224 + V / 4096) 224)) by lia.
    rewrite (proj2 (Z.ltb_lt (224 + V / 4096) 240)) by lia.
    rewrite drop_octet, !continuation_cons by lia.
    cbn [continuation fmap option_fmap option_map mbind option_bind fold_left].
    replace (((224 + V / 4096 - 224) * 64 + (128 + (V / 64) mod 64 - 128)) * 64
             + (128 + V mod 64 - 128)) with V by lia.
    rewrite (proj2 (Z.ltb_ge V 2048)) by lia. cbn [orb].
    replace ((55296 <=? V) && (V <=? 57343)) with false.
    + rewrite (proj2 (Z.ltb_lt V 65536)) by lia. reflexivity.
    + symmetry. destruct HV as [[_ Hn]|]; [|lia]. digit_bool. lia.
  - rewrite escape_point_4 by lia.
    assert (HV' : V < 1114112) by (apply scalar_range in HV; lia).
    pose proof (div_bounds V 262144 0 5 eq_refl ltac:(lia)).
    pose proof (Z.mod_pos_bound (V / 4096) 64 eq_refl).
    pose proof (Z.mod_pos_bound (V / 64) 64 eq_refl).
    pose proof (Z.mod_pos_bound V 64 eq_refl).
    pose proof (Z.div_mod V 64 ltac:(lia)).
    pose proof (Z.div_mod (V / 64) 64 ltac:(lia)).
    pose proof (Z.div_mod (V / 4096) 64 ltac:(lia)).
    pose proof (Z.div_div V 64 64 ltac:(lia) ltac:(lia)) as Hdd.
    change (64 * 64) with 4096 in Hdd.
    pose proof (Z.div_div V 4096 64 ltac:(lia) ltac:(lia)) as Hdd'.
    change (4096 * 64) with 262144 in Hdd'.
    rewrite <- !app_assoc, escape_at_octet by lia. cbn [mbind option_bind].
    rewrite (proj2 (Z.ltb_ge (240 + V / 262144) 128)) by lia.
    rewrite (proj2 (Z.ltb_ge (240 + V / 262144) 192)) by lia.
    rewrite (proj2 (Z.ltb_ge (240 + V / 262144) 224)) by lia.
    rewrite (proj2 (Z.ltb_ge (240 + V / 262144) 240)) by lia.
    rewrite (proj2 (Z.ltb_lt (240 + V / 262144) 248)) by lia.
    rewrite drop_octet, !continuation_cons by lia.
    cbn [continuation fmap option_fmap option_map mbind option_bind fold_left].
    replace ((((240 + V / 262144 - 240) * 64 + (128 + (V / 4096) mod 64 - 128)) * 64
              + (128 + (V / 64) mod 64 - 128)) * 64 + (128 + V mod 64 - 128))
      with V by lia.
    rewrite (proj2 (Z.ltb_ge V 65536)), (proj2 (Z.ltb_ge 1114111 V)) by lia.
    reflexivity.
Qed.

Lemma escape_point_head V :
  exists t, escape_point V = code "%" :: t.
Proof.
  unfold escape_point, utf8_octets.
  destruct (V <? 128); [|destruct (V <? 2048); [|destruct (V <? 65536)]];
    eexists; reflexivity.
Qed.

Lemma decode_piece V r :
  scalar V ->
  decodeURIComponent_from 0 (piece lit_plain V ++ r)
  = (r' ← decodeURIComponent_from 0 r; Ok (units V ++ r')).
Proof.
  intros HV. unfold piece. destruct (lit_plain V) eqn:Hlit.
  - pose proof (lit_plain_not_pct V Hlit) as Hp. unfold cls_pct, is_char in Hp.
    cbn [app decodeURIComponent_from]. rewrite Hp.
    assert (HV' : V < 65536).
    { unfold lit_plain in Hlit. apply orb_true_iff in Hlit as [Hu|Hs].
      - apply uriUnescaped_ascii in Hu. lia.
      - apply Z.eqb_eq in Hs. lia. }
    unfold units. rewrite (proj2 (Z.ltb_lt V 65536) HV').
    destruct (decodeURIComponent_from 0 r); reflexivity.
  - pose proof (decode_escape_point V r HV) as Hd.
    destruct (escape_point_head V) as [t Ht]. rewrite Ht in *.
    cbn [app decodeURIComponent_from] in *. rewrite Z.eqb_refl.
    rewrite Hd.
    cbn [length Nat.pred]. rewrite skip_run.
    destruct (decodeURIComponent_from 0 r); reflexivity.
Qed.

Lemma decode_pieces_points ps :
  Forall scalar ps ->
  decodeURIComponent (flat_map (piece lit_plain) ps) = Ok (flat_map units ps).
Proof.
  unfold decodeURIComponent. induction 1 as [|V ps HV Hps IH]; [reflexivity|].
  cbn [flat_map]. rewrite decode_piece, IH by exact HV. reflexivity.
Qed.

Lemma units_points n : forall s ps,
  (length s <= n)%nat -> code_units s -> points s = Some ps -> flat_map units ps = s.
Proof.
  induction n as [|n IH]; intros s ps Hn Hs.
  { destruct s; [intros [= <-]; reflexivity | simpl in Hn; lia]. }
  destruct s as [|C t]; [intros [= <-]; reflexivity|].
  inversion Hs as [|? ? HC Ht]; subst. simpl in Hn.
  cbn [points]. destruct (low_surrogate C) eqn:Hlo; [discriminate|].
  destruct (high_surrogate C) eqn:Hhi; simpl negb; cbv iota.
  - destruct t as [|k t']; [discriminate|].
    destruct (low_surrogate k) eqn:Hk; [|discriminate].
    inversion Ht as [|? ? Hk' Ht']; subst.
    destruct (points t') as [ps'|] eqn:Hps; [|discriminate].
    cbn [fmap option_fmap option_map]. intros [= <-].
    cbn [flat_map]. rewrite (IH t' ps') by (first [simpl in Hn; lia | assumption | reflexivity]).
    unfold high_surrogate, low_surrogate in *.
    apply andb_true_iff in Hhi as [H1%Z.leb_le H2%Z.leb_le].
    apply andb_true_iff in Hk as [H3%Z.leb_le H4%Z.leb_le].
    unfold units.
    rewrite (proj2 (Z.ltb_ge ((C - 55296) * 1024 + (k - 56320) + 65536) 65536)) by lia.
    replace ((C - 55296) * 1024 + (k - 56320) + 65536 - 65536)
      with ((k - 56320) + (C - 55296) * 1024) by lia.
    rewrite Z.div_add, Z.mod_add by lia.
    rewrite (Z.div_small (k - 56320) 1024), (Z.mod_small (k - 56320) 1024) by lia.
    rewrite Z.add_0_l, (Z.mod_small (C - 55296) 1024) by lia.
    cbn [app]. f_equal; [lia|]. f_equal. lia.
  - destruct (points t) as [ps'|] eqn:Hps; [|discriminate].
    cbn [fmap option_fmap option_map]. intros [= <-].
    cbn [flat_map]. rewrite (IH t ps') by (first [lia | assumption | reflexivity]).
    unfold units. rewrite (proj2 (Z.ltb_lt C 65536)) by lia. reflexivity.
Qed.

Lemma decode_key_points ps :
  Forall scalar ps ->
  decodeURIComponent (plus_to_space (flat_map piece_plus ps)) = Ok (flat_map units ps).
Proof.
  intros Hsc.
  assert (E1 : plus_to_space (flat_map piece_plus ps) = flat_map (piece lit_plain) ps).
  { unfold plus_to_space.
    apply (replace_flat_map _ _ _ _ scalar); [|exact Hsc].
    intros V r. apply pass_plus_point. }
  rewrite E1. apply decode_pieces_points, Hsc.
Qed.

(** X24: the key of a pair that [plus] writes is read back by the
    constructor: for every string of 16-bit code units that [encode]
    accepts, [decodeURIComponent], applied as the constructor applies it to
    a key, with each [+] first made a space, returns the string from what
    [encode] wrote. *)
Theorem key_roundtrip s e :
  code_units s -> encode s = Ok e ->
  decodeURIComponent (plus_to_space e) = Ok s.
Proof.
  intros Hs He.
  destruct (encode_points s e Hs He) as (ps & Hps & -> & Hsc).
  rewrite (decode_key_points ps Hsc).
  rewrite (units_points (length s) s ps (le_n _) Hs Hps). reflexivity.
Qed.

Lemma key_roundtrip_witness :
  (code_units [97; 32; 43; 233; 8480; 55357; 56832] /\
   encode [97; 32; 43; 233; 8480; 55357; 56832]
   = Ok (str "a+%2B%C3%A9%E2%84%A0%F0%9F%98%80")) /\
  decodeURIComponent (plus_to_space (str "a+%2B%C3%A9%E2%84%A0%F0%9F%98%80"))
  = Ok [97; 32; 43; 233; 8480; 55357; 56832].
Proof.
  assert (H : code_units [97; 32; 43; 233; 8480; 55357; 56832])
    by (repeat constructor; lia).
  split; [split; [exact H | reflexivity]|].
  apply (key_roundtrip [97; 32; 43; 233; 8480; 55357; 56832]
           (str "a+%2B%C3%A9%E2%84%A0%F0%9F%98%80") H).
  reflexivity.
Defined.

(** ** What [encode] writes is a token *)

Lemma unreserved_token c : uriUnescaped c = true -> not_eq_amp c = true.
Proof.
  unfold uriUnescaped, not_eq_amp.
  rewrite !orb_true_iff, !in_range_spec, one_of_spec. intros Hc.
  destruct (one_of "=&" c) eqn:E; [|reflexivity].
  apply one_of_spec in E. simpl in Hc, E. eval_codes. lia.
Qed.

Lemma hexdigit_token : forall n, digit n -> not_eq_amp (hexdigit n) = true.
Proof. each_digit. Qed.

Lemma escaped_text_token e :
  escaped_text e -> Forall (fun c => not_eq_amp c = true) e.
Proof.
  induction 1 as [|c r Hc _ IH|r _ IH|h l r Hh Hl _ IH].
  - constructor.
  - constructor; [apply unreserved_token, Hc | exact IH].
  - constructor; [reflexivity | exact IH].
  - unfold esc. cbn [app]. repeat constructor;
      [apply hexdigit_token, Hh | apply hexdigit_token, Hl | exact IH].
Qed.

Lemma not_eq_amp_not_amp c : not_eq_amp c = true -> not_amp c = true.
Proof.
  unfold not_eq_amp, not_amp, one_of, is_char. cbn [str existsb].
  intros [_ [H _]%orb_false_iff]%negb_true_iff%orb_false_iff.
  rewrite H. reflexivity.
Qed.

Lemma piece_plus_nonempty V : piece_plus V <> [].
Proof.
  unfold piece_plus, piece. destruct (V =? 32); [discriminate|].
  destruct (uriUnescaped V); [discriminate|].
  destruct (escape_point_head V) as [t ->]. discriminate.
Qed.

(** What [encode] makes of a key that is not empty is a key for the
    tokenizer, and what it makes of a value is a value for it. *)
Lemma encode_token s e :
  code_units s -> encode s = Ok e ->
  Forall (fun c => not_eq_amp c = true) e /\ (s <> [] -> e <> []).
Proof.
  intros Hs He. destruct (encode_points s e Hs He) as (ps & Hps & -> & Hsc). split.
  - apply escaped_text_token, pieces_text, Hsc.
  - intros Hne. destruct ps as [|V ps].
    + destruct s as [|C t]; [congruence|]. cbn [points] in Hps.
      destruct (low_surrogate C); [discriminate|].
      destruct (high_surrogate C); simpl in Hps.
      * destruct t as [|k t']; [discriminate|].
        destruct (low_surrogate k); [|discriminate].
        destruct (points t'); discriminate.
      * destruct (points t); discriminate.
    + cbn [flat_map]. intros [E _]%app_eq_nil. exact (piece_plus_nonempty V E).
Qed.

End Codec.

(** ** The contents of a dictionary *)

Lemma values_at_Some h kv e :
  values_at h kv = Some e <-> kv.1 = e.1 /\ h !! kv.2 = Some (ArrV e.2).
Proof.
  unfold values_at. destruct kv as [k l], e as [k' vs]; simpl.
  destruct (h !! l) as [[ws|?|?|? ?]|]; split; intros Hx;
    try discriminate; try (exfalso; destruct Hx; discriminate).
  - injection Hx as -> ->. auto.
  - destruct Hx as [-> [= ->]]. reflexivity.
Qed.

(** The values of a dictionary stay where they are when the store grows and
    when an object that is no array of values is replaced. *)
Lemma values_at_swap h o o' ex ex1 kv e :
  (forall vs, o <> ArrV vs) ->
  values_at (h ++ o :: ex) kv = Some e ->
  values_at (h ++ o' :: ex ++ ex1) kv = Some e.
Proof.
  intros Ho. rewrite !values_at_Some. intros [Hk Hl]. split; [exact Hk|].
  destruct (decide (kv.2 = length h)) as [E|E].
  - rewrite E, list_lookup_middle in Hl by reflexivity.
    injection Hl as Hl. destruct (Ho _ Hl).
  - rewrite app_comm_cons, app_assoc. apply lookup_app_l_Some.
    rewrite <- Hl. clear Hl.
    destruct (decide (kv.2 < length h)%nat).
    + rewrite !lookup_app_l by assumption. reflexivity.
    + rewrite !lookup_app_r by lia.
      destruct (kv.2 - length h)%nat eqn:E'; [lia | reflexivity].
Qed.

Lemma values_at_app h ex kv e :
  values_at h kv = Some e -> values_at (h ++ ex) kv = Some e.
Proof.
  rewrite !values_at_Some. intros [Hk Hl]. split; [exact Hk|].
  apply lookup_app_l_Some, Hl.
Qed.

Lemma values_at_insert h l0 o kv e :
  (forall vs, h !! l0 <> Some (ArrV vs)) ->
  values_at h kv = Some e -> values_at (<[l0:=o]> h) kv = Some e.
Proof.
  intros Hl0. rewrite !values_at_Some. intros [Hk Hl]. split; [exact Hk|].
  rewrite list_lookup_insert_ne; [exact Hl|].
  intros E. rewrite E in Hl0. exact (Hl0 _ Hl).
Qed.

Lemma set_own_fresh ps k l : k ∉ ps.*1 -> set_own ps k l = ps ++ [(k, l)].
Proof.
  induction ps as [|[k' l'] ps IH]; simpl; [reflexivity|].
  rewrite not_elem_of_cons. intros [Hne Hk].
  destruct (decide (k' = k)); [congruence|]. rewrite IH by assumption. reflexivity.
Qed.

Lemma own_is_Some ps k : is_Some (own ps k) <-> k ∈ ps.*1.
Proof.
  unfold own. induction ps as [|[k' l'] ps IH]; simpl.
  - split; [intros [? [=]] | intros Hx; inversion Hx].
  - rewrite elem_of_cons. case_bool_decide as E; simpl in *.
    + split; [intros _; left; congruence | eauto].
    + rewrite IH. split; [auto | intros [?|?]; [congruence | assumption]].
Qed.

Lemma own_None ps k : own ps k = None <-> k ∉ ps.*1.
Proof.
  split.
  - intros E Hx. apply own_is_Some in Hx. rewrite E in Hx. destruct Hx as [? [=]].
  - intros Hx. destruct (own ps k) eqn:E; [|reflexivity].
    destruct Hx. apply own_is_Some. eauto.
Qed.

Lemma content_keys h ps D :
  Forall2 (fun kv e => values_at h kv = Some e) ps D -> ps.*1 = D.*1.
Proof.
  induction 1 as [|kv e ps D Hx _ IH]; [reflexivity|].
  apply values_at_Some in Hx as [Hx _]. rewrite !fmap_cons, IH, Hx. reflexivity.
Qed.

Lemma mapDict_content fkv g h d ps0 :
  callback_pure fkv g ->
  h !! d = Some (Obj ps0) -> own ps0 (str "hasOwnProperty") = None ->
  forall rest Drest acc Dacc ex,
    (forall kv, kv ∈ rest -> kv.1 ∈ ps0.*1) ->
    Forall2 (fun kv e => values_at h kv = Some e) rest Drest ->
    Forall2 (fun kv e => values_at (h ++ Obj acc :: ex) kv = Some e) acc Dacc ->
    NoDup (acc.*1 ++ rest.*1) -> str "__proto__" ∉ rest.*1 ->
    exists acc' ex',
      for_each rest (fun kv =>
        has ← hasOwnProperty d kv.1;
        if negb has then mret tt
        else
          replace ← fkv kv.1 kv.2;
          match replace with
          | Some r => set_prop (length h) kv.1 r
          | None => mret tt
          end) (h ++ Obj acc :: ex)
      = Ret tt (h ++ Obj acc' :: ex') /\
      Forall2 (fun kv e => values_at (h ++ Obj acc' :: ex') kv = Some e)
        acc' (Dacc ++ map_dict g Drest) /\
      (forall kv, kv ∈ acc -> kv ∈ acc') /\
      (forall kv, kv ∈ rest -> keeps fkv kv -> kv ∈ acc').
Proof.
  intros Hcb Hd Hsh. induction rest as [|[k l] rest IH];
    intros Drest acc Dacc ex Hin Hrest Hacc Hnd Hproto.
  - inversion Hrest; subst. simpl. rewrite app_nil_r. exists acc, ex.
    split; [reflexivity|]. split; [exact Hacc|]. split; [auto|].
    intros kv Hkv. inversion Hkv.
  - inversion Hrest as [|? e ? Drest' He Hrest']; subst.
    apply values_at_Some in He as [Hk Hl]. simpl in Hk, Hl. destruct e as [k' vs].
    simpl in Hk, Hl. subst k'.
    rewrite fmap_cons in Hnd, Hproto. cbn [fst] in Hnd, Hproto.
    apply not_elem_of_cons in Hproto as [Hkp Hproto].
    apply NoDup_app in Hnd as (Hnd1 & Hnd2 & Hnd3).
    apply NoDup_cons in Hnd3 as [Hk3 Hnd3].
    assert (Hkacc : k ∉ acc.*1).
    { intros Hx. apply (Hnd2 _ Hx). left. }
    simpl for_each.
    rewrite bind_run. cbn beta. cbn [fst snd].
    rewrite bind_run, (hasOwnProperty_run _ d ps0) by (apply lookup_app_l_Some, Hd).
    rewrite Hsh.
    rewrite bool_decide_eq_true_2; cycle 1.
    { apply own_is_Some. apply (Hin (k, l)). left. }
    cbn [negb].
    destruct (Hcb k l (h ++ Obj acc :: ex) vs) as (r & ex1 & Hrun & Hr).
    { apply lookup_app_l_Some, Hl. }
    rewrite bind_run, Hrun.
    assert (Hshape : (h ++ Obj acc :: ex) ++ ex1 = h ++ Obj acc :: (ex ++ ex1))
      by (rewrite <- app_assoc; reflexivity).
    rewrite Hshape in *.
    unfold map_dict. simpl omap. fold (map_dict g Drest').
    destruct (g k vs) as [vs'|]; simpl.
    + destruct Hr as (l' & -> & Hl').
      unfold set_prop.
      rewrite (bind_ret _ _ _ _ _ (props_run _ _ acc (list_lookup_middle _ _ _ _ eq_refl))).
      destruct (decide (k = str "__proto__")); [congruence|].
      erewrite put_run by (apply list_lookup_middle; reflexivity).
      rewrite insert_middle, set_own_fresh by assumption.
      destruct (IH Drest' (acc ++ [(k, l')]) (Dacc ++ [(k, vs')]) (ex ++ ex1))
        as (acc' & ex' & Hloop & Hres & Hsub & Hkeep).
      * intros kv Hkv. apply Hin. right. exact Hkv.
      * exact Hrest'.
      * apply Forall2_app.
        -- eapply Forall2_impl; [exact Hacc|]. intros kv e He.
           apply (values_at_swap h (Obj acc) _ ex ex1); [discriminate | exact He].
        -- constructor; [|constructor]. apply values_at_Some. split; [reflexivity|].
           simpl. assert (l' <> length h).
           { intros ->. rewrite list_lookup_middle in Hl' by reflexivity. discriminate. }
           rewrite <- Hl'.
           destruct (decide (l' < length h)%nat).
           ++ rewrite !lookup_app_l by assumption. reflexivity.
           ++ rewrite !lookup_app_r by lia.
              destruct (l' - length h)%nat eqn:E'; [lia | reflexivity].
      * rewrite fmap_app. simpl. rewrite <- app_assoc. simpl.
        apply NoDup_app. split; [exact Hnd1|]. split.
        -- intros x Hx. apply Hnd2 in Hx. exact Hx.
        -- apply NoDup_cons. split; assumption.
      * exact Hproto.
      * exists acc', ex'. split; [exact Hloop|].
        rewrite <- app_assoc in Hres. split; [exact Hres|].
        split; [intros kv Hkv; apply Hsub, elem_of_app; left; exact Hkv|].
        intros kv [->|Hkv]%elem_of_cons Hk; [|apply Hkeep; assumption].
        specialize (Hk (h ++ Obj acc :: ex)). cbn [fst snd] in Hk.
        rewrite Hk in Hrun. injection Hrun as <- _.
        apply Hsub, elem_of_app. right. apply list_elem_of_singleton. reflexivity.
    + subst r.
      destruct (IH Drest' acc Dacc (ex ++ ex1))
        as (acc' & ex' & Hloop & Hres & Hsub & Hkeep).
      * intros kv Hkv. apply Hin. right. exact Hkv.
      * exact Hrest'.
      * eapply Forall2_impl; [exact Hacc|]. intros kv e He.
        apply (values_at_swap h (Obj acc) _ ex ex1); [discriminate | exact He].
      * apply NoDup_app. split; [exact Hnd1|]. split; [|exact Hnd3].
        intros x Hx Hx'. apply (Hnd2 _ Hx). right. exact Hx'.
      * exact Hproto.
      * exists acc', ex'. split; [exact Hloop|]. split; [exact Hres|].
        split; [exact Hsub|].
        intros kv [->|Hkv]%elem_of_cons Hk; [|apply Hkeep; assumption].
        specialize (Hk (h ++ Obj acc :: ex)). cbn [fst snd] in Hk.
        rewrite Hk in Hrun. discriminate Hrun.
Qed.

Lemma mapDict_pure fkv g h d ps D :
  callback_pure fkv g ->
  h !! d = Some (Obj ps) -> own ps (str "hasOwnProperty") = None ->
  Forall2 (fun kv e => values_at h kv = Some e) ps D ->
  NoDup ps.*1 -> str "__proto__" ∉ ps.*1 ->
  exists ps' ex,
    mapDict d fkv h = Ret (length h) (h ++ Obj ps' :: ex) /\
    Forall2 (fun kv e => values_at (h ++ Obj ps' :: ex) kv = Some e) ps' (map_dict g D) /\
    (forall kv, kv ∈ ps -> keeps fkv kv -> kv ∈ ps').
Proof.
  intros Hcb Hd Hsh Hps Hnd Hproto. unfold mapDict, alloc. rewrite bind_run.
  erewrite bind_ret by (apply props_run, lookup_app_l_Some, Hd).
  destruct (mapDict_content fkv g h d ps Hcb Hd Hsh ps D [] [] [])
    as (acc' & ex' & Hrun & Hres & _ & Hkeep); try assumption.
  - intros kv Hkv. apply list_elem_of_fmap_2, Hkv.
  - constructor.
  - rewrite bind_run, Hrun. eauto.
Qed.

(** ** Instances by their contents *)

Lemma holds_inv h q D al :
  holds h q D al ->
  exists d a ps,
    h !! q = Some (QS d a) /\ h !! d = Some (Obj ps) /\ h !! a = Some (ArrP al) /\
    Forall2 (fun kv e => values_at h kv = Some e) ps D /\
    NoDup ps.*1 /\ str "__proto__" ∉ ps.*1.
Proof.
  intros (Hd & Ha & Hnd & Hp). unfold dict_of, alist_of in *.
  destruct (h !! q) as [[| | |d a]|] eqn:Hq; try discriminate.
  destruct (h !! d) as [[| |ps|]|] eqn:Hd'; try discriminate.
  destruct (h !! a) as [[|al'| |]|] eqn:Ha'; try discriminate. injection Ha as ->.
  apply mapM_Some in Hd. exists d, a, ps. rewrite (content_keys _ _ _ Hd).
  repeat split; assumption.
Qed.

Lemma holds_intro h q d a ps D al :
  h !! q = Some (QS d a) -> h !! d = Some (Obj ps) -> h !! a = Some (ArrP al) ->
  Forall2 (fun kv e => values_at h kv = Some e) ps D ->
  NoDup D.*1 -> str "__proto__" ∉ D.*1 -> holds h q D al.
Proof.
  intros Hq Hd Ha Hps Hnd Hp. unfold holds, dict_of, alist_of.
  rewrite Hq, Hd, Ha. apply mapM_Some in Hps. auto.
Qed.

Lemma holds_instance h q D al : holds h q D al -> instance h q.
Proof.
  intros (d & a & ps & Hq & Hd & Ha & Hps & _)%holds_inv.
  exists d, a, ps, al. repeat (split; [assumption|]).
  apply Forall_forall. intros kv Hkv.
  apply list_elem_of_lookup in Hkv as [i Hi].
  destruct (Forall2_lookup_l _ _ _ _ _ Hps Hi) as (e & _ & He).
  apply values_at_Some in He as [_ He]. eexists. exact He.
Qed.

Lemma own_content h ps D k :
  Forall2 (fun kv e => values_at h kv = Some e) ps D ->
  match own ps k with
  | Some l => exists vs, own_vals D k = Some vs /\ h !! l = Some (ArrV vs)
  | None => own_vals D k = None
  end.
Proof.
  induction 1 as [|[k' l] [k'' vs] ps D Hx _ IH]; [reflexivity|].
  apply values_at_Some in Hx as [Hk Hl]; simpl in Hk, Hl. subst k''.
  unfold own, own_vals in *. simpl. case_bool_decide; simpl.
  - eauto.
  - exact IH.
Qed.

Lemma own_vals_None D k : own_vals D k = None <-> k ∉ D.*1.
Proof.
  unfold own_vals. induction D as [|[k' vs] D IH]; simpl.
  - split; [intros _ Hx; inversion Hx | reflexivity].
  - rewrite not_elem_of_cons. case_bool_decide as E; simpl in *.
    + split; [discriminate | intros [? _]; congruence].
    + rewrite IH. split; [intros ?; split; [congruence | assumption] | intros [_ ?]; assumption].
Qed.

Lemma value_holds h q D al key :
  holds h q D al ->
  value q key h =
  match own_vals D (str "hasOwnProperty") with
  | Some _ => Throw TypeError h
  | None => Ret (own_vals D key ≫= last) h
  end.
Proof.
  intros (d & a & ps & Hq & Hd & Ha & Hps & _)%holds_inv.
  rewrite (value_run h q d a ps key Hq Hd).
  pose proof (own_content h ps D (str "hasOwnProperty") Hps) as Hsh.
  pose proof (own_content h ps D key Hps) as Hk.
  destruct (own ps (str "hasOwnProperty")).
  - destruct Hsh as (vs & -> & _). reflexivity.
  - rewrite Hsh. destruct (own ps key).
    + destruct Hk as (vs & -> & ->). reflexivity.
    + rewrite Hk. reflexivity.
Qed.

Lemma values_of_holds h q D al key :
  holds h q D al ->
  values_of q key h =
  match own_vals D (str "hasOwnProperty") with
  | Some _ => Throw TypeError h
  | None =>
      match own_vals D key with
      | Some vs => Ret vs h
      | None => Ret [] (h ++ [ArrV []])
      end
  end.
Proof.
  intros (d & a & ps & Hq & Hd & Ha & Hps & _)%holds_inv.
  rewrite (values_of_run h q d a ps key Hq Hd).
  pose proof (own_content h ps D (str "hasOwnProperty") Hps) as Hsh.
  pose proof (own_content h ps D key Hps) as Hk.
  destruct (own ps (str "hasOwnProperty")).
  - destruct Hsh as (vs & -> & _). reflexivity.
  - rewrite Hsh. destruct (own ps key).
    + destruct Hk as (vs & -> & ->). reflexivity.
    + rewrite Hk. reflexivity.
Qed.

Lemma keys_holds h q D al :
  holds h q D al ->
  keys q h =
  match own_vals D (str "hasOwnProperty") with
  | Some _ => Throw TypeError h
  | None => Ret D.*1 h
  end.
Proof.
  intros (d & a & ps & Hq & Hd & Ha & Hps & _)%holds_inv.
  rewrite (keys_run h q d a ps Hq Hd).
  pose proof (own_content h ps D (str "hasOwnProperty") Hps) as Hsh.
  destruct (own ps (str "hasOwnProperty")).
  - destruct Hsh as (vs & -> & _). reflexivity.
  - rewrite Hsh, (content_keys _ _ _ Hps). reflexivity.
Qed.

Lemma toString_holds h q D al : holds h q D al -> toString q h = Ret (render al) h.
Proof. intros (_ & Ha & _). apply toString_run, Ha. Qed.

(** ** The callbacks of [plus] and [minus] *)

Lemma callback_plus_pure k (v : val) :
  callback_pure (fun ok ovs =>
    if decide (ok ≠ k) then mret (Some ovs)
    else
      retVs ← slice (A:=val) ovs;
      push retVs v;;
      mret (Some retVs)) (plus_answer k v).
Proof.
  intros ok l h vs E. unfold plus_answer. destruct (decide _).
  - exists (Some l), []. rewrite app_nil_r. split; [reflexivity|]. eauto.
  - exists (Some (length h)), [ArrV (vs ++ [v])].
    rewrite bind_run. rewrite (slice_vals h l vs E).
    rewrite bind_run.
    rewrite (push_vals _ _ vs) by (apply list_lookup_middle; reflexivity).
    rewrite insert_middle. split; [reflexivity|].
    eexists. split; [reflexivity|]. apply list_lookup_middle. reflexivity.
Qed.

Lemma callback_share_pure :
  callback_pure (fun _ vs => mret (Some vs)) (fun _ vs => Some vs).
Proof.
  intros ok l h vs E. exists (Some l), []. rewrite app_nil_r. split; [reflexivity|]. eauto.
Qed.

Lemma callback_minus_pure k (v : option val) :
  callback_pure (fun ok ovs =>
    match v with
    | Some v =>
        vs ← filter ovs (fun el => bool_decide (el ≠ v));
        xs ← elems (A:=val) vs;
        mret (if decide (length xs = 0)%nat then None else Some vs)
    | None => mret (if decide (ok = k) then None else Some ovs)
    end) (minus_answer k v).
Proof.
  intros ok l h vs E. unfold minus_answer. destruct v as [v|].
  - eexists _, [ArrV _]. rewrite bind_run.
    rewrite (filter_vals h l _ vs E).
    erewrite bind_ret by (apply elems_vals, list_lookup_middle; reflexivity).
    split; [reflexivity|].
    destruct (decide _); [reflexivity|].
    eexists. split; [reflexivity|]. apply list_lookup_middle. reflexivity.
  - eexists _, []. rewrite app_nil_r. split; [reflexivity|].
    destruct (decide _); [reflexivity|]. eauto.
Qed.

Lemma map_dict_cons g k vs D :
  map_dict g ((k, vs) :: D)
  = match g k vs with
    | Some vs' => (k, vs') :: map_dict g D
    | None => map_dict g D
    end.
Proof. unfold map_dict. simpl. destruct (g k vs); reflexivity. Qed.

Lemma map_dict_keys g D : forall k, k ∈ (map_dict g D).*1 -> k ∈ D.*1.
Proof.
  intros k (e & -> & He)%list_elem_of_fmap. unfold map_dict in He.
  apply list_elem_of_omap in He as (e0 & He0 & Hg).
  destruct (g e0.1 e0.2); [|discriminate]. injection Hg as <-. simpl.
  apply list_elem_of_fmap_2, He0.
Qed.

Lemma map_dict_NoDup g D : NoDup D.*1 -> NoDup (map_dict g D).*1.
Proof.
  induction D as [|[k vs] D IH]; [intros _; constructor|].
  rewrite fmap_cons. cbn [fst]. intros [Hk Hnd]%NoDup_cons.
  rewrite map_dict_cons. destruct (g k vs); [|auto].
  rewrite fmap_cons. cbn [fst]. apply NoDup_cons. split; [|auto].
  intros Hx. apply Hk. eapply map_dict_keys, Hx.
Qed.

Lemma own_vals_cons k' vs D k :
  own_vals ((k', vs) :: D) k = if decide (k' = k) then Some vs else own_vals D k.
Proof.
  unfold own_vals. simpl. destruct (decide (k' = k)).
  - rewrite bool_decide_eq_true_2 by assumption. reflexivity.
  - rewrite bool_decide_eq_false_2 by assumption. reflexivity.
Qed.

Lemma map_dict_own g D k :
  NoDup D.*1 ->
  own_vals (map_dict g D) k = own_vals D k ≫= g k.
Proof.
  induction D as [|[k' vs] D IH]; [reflexivity|].
  rewrite fmap_cons. cbn [fst]. intros [Hk Hnd]%NoDup_cons.
  rewrite map_dict_cons, own_vals_cons. destruct (decide (k' = k)) as [->|E].
  - simpl. destruct (g k vs).
    + rewrite own_vals_cons. destruct (decide (k = k)); [reflexivity | congruence].
    + apply own_vals_None. intros Hx. apply Hk. eapply map_dict_keys, Hx.
  - rewrite <- IH by assumption. destruct (g k' vs); [|reflexivity].
    rewrite own_vals_cons. destruct (decide (k' = k)); [congruence | reflexivity].
Qed.

Lemma map_dict_id D : map_dict (fun _ vs => Some vs) D = D.
Proof.
  induction D as [|[k vs] D IH]; [reflexivity|].
  rewrite map_dict_cons, IH. reflexivity.
Qed.

Lemma push_key_None D k v : push_key D k v = None <-> k ∉ D.*1.
Proof.
  induction D as [|[k' vs] D IH]; simpl.
  - split; [intros _ Hx; inversion Hx | reflexivity].
  - rewrite not_elem_of_cons. destruct (decide (k' = k)).
    + split; [discriminate | intros [? _]; congruence].
    + destruct (push_key D k v); simpl.
      * split; [discriminate | intros [_ Hx]; apply IH in Hx; discriminate].
      * split; [intros _; split; [congruence | apply IH; reflexivity] | reflexivity].
Qed.

Lemma push_key_map D k v :
  NoDup D.*1 -> k ∈ D.*1 -> push_key D k v = Some (map_dict (plus_answer k v) D).
Proof.
  induction D as [|[k' vs] D IH]; [intros _ Hx; inversion Hx|].
  rewrite fmap_cons. cbn [fst]. intros [Hk Hnd]%NoDup_cons Hin.
  rewrite map_dict_cons. unfold plus_answer at 1. simpl push_key.
  destruct (decide (k' = k)) as [->|E].
  - destruct (decide (k ≠ k)); [congruence|]. f_equal. f_equal.
    clear IH Hin Hnd. induction D as [|[k2 vs2] D IH]; [reflexivity|].
    rewrite fmap_cons in Hk. cbn [fst] in Hk. apply not_elem_of_cons in Hk as [Hk1 Hk2].
    rewrite map_dict_cons. unfold plus_answer at 1.
    destruct (decide (k2 ≠ k)) as [_|Hn]; [|destruct Hn; congruence].
    rewrite <- IH by assumption. reflexivity.
  - apply elem_of_cons in Hin as [Hin|Hin]; [congruence|].
    rewrite IH by assumption. simpl.
    destruct (decide (k' ≠ k)) as [_|Hn]; [reflexivity | destruct Hn; exact E].
Qed.

Lemma add_key_keys D k v :
  (add_key D k v).*1
  = if bool_decide (k ∈ D.*1) then D.*1
    else if decide (k = str "__proto__") then D.*1 else D.*1 ++ [k].
Proof.
  unfold add_key. case_bool_decide as E.
  - destruct (push_key D k v) as [D'|] eqn:Hp.
    + clear E. revert D' Hp. induction D as [|[k' vs] D IH]; intros D' Hp; [discriminate|].
      simpl in Hp. destruct (decide (k' = k)).
      * injection Hp as <-. reflexivity.
      * destruct (push_key D k v) as [D2|]; [|discriminate]. injection Hp as <-.
        rewrite !fmap_cons, (IH D2) by reflexivity. reflexivity.
    + apply push_key_None in Hp. contradiction.
  - apply (push_key_None D k v) in E. rewrite E. destruct (decide _); [reflexivity|].
    rewrite fmap_app. reflexivity.
Qed.

Lemma add_key_wf D k v :
  NoDup D.*1 -> str "__proto__" ∉ D.*1 ->
  NoDup (add_key D k v).*1 /\ str "__proto__" ∉ (add_key D k v).*1.
Proof.
  intros Hnd Hp. rewrite add_key_keys. case_bool_decide; [auto|].
  destruct (decide _); [auto|]. split.
  - apply NoDup_app. split; [exact Hnd|]. split; [|apply NoDup_singleton].
    intros x Hx ->%list_elem_of_singleton. contradiction.
  - rewrite elem_of_app, list_elem_of_singleton. intros [?|?]; [contradiction | congruence].
Qed.

(** ** The runs of [plus] and [minus] *)

Lemma build_dict fkv g h1 d ps D r d0 a0 :
  callback_pure fkv g ->
  h1 !! d = Some (Obj ps) -> own ps (str "hasOwnProperty") = None ->
  Forall2 (fun kv e => values_at h1 kv = Some e) ps D ->
  NoDup ps.*1 -> str "__proto__" ∉ ps.*1 ->
  h1 !! r = Some (QS d0 a0) ->
  exists ps' ex,
    (nd ← mapDict d fkv; set_dict r nd) h1
    = Ret tt (<[r:=QS (length h1) a0]> (h1 ++ Obj ps' :: ex)) /\
    Forall2 (fun kv e =>
        values_at (<[r:=QS (length h1) a0]> (h1 ++ Obj ps' :: ex)) kv = Some e)
      ps' (map_dict g D) /\
    (forall kv, kv ∈ ps -> keeps fkv kv -> kv ∈ ps').
Proof.
  intros Hcb Hd Hsh Hps Hnd Hp Hr.
  destruct (mapDict_pure fkv g h1 d ps D Hcb Hd Hsh Hps Hnd Hp)
    as (ps' & ex & Hrun & Hres & Hkeep).
  exists ps', ex. rewrite bind_run, Hrun.
  rewrite (set_dict_run _ r d0 a0) by (apply lookup_app_l_Some, Hr).
  split; [reflexivity|]. split; [|exact Hkeep].
  eapply Forall2_impl; [exact Hres|]. intros kv e. apply values_at_insert.
  intros vs. rewrite (lookup_app_l_Some _ _ _ _ Hr). discriminate.
Qed.

Lemma own_Some_in ps k l : own ps k = Some l -> (k, l) ∈ ps.
Proof.
  unfold own. destruct (List.find _ ps) as [[k' l']|] eqn:E; [|discriminate].
  intros [= <-]. apply find_some in E as [E Hk]. apply bool_decide_eq_true in Hk.
  simpl in Hk. subst k'. apply list_elem_of_In, E.
Qed.

Lemma own_in ps k l : NoDup ps.*1 -> (k, l) ∈ ps -> own ps k = Some l.
Proof.
  induction ps as [|[k' l'] ps IH]; [intros _ Hx; inversion Hx|].
  rewrite fmap_cons. cbn [fst]. intros [Hk Hnd]%NoDup_cons [[= -> ->]|Hin]%elem_of_cons.
  - unfold own. simpl. rewrite bool_decide_eq_true_2 by reflexivity. reflexivity.
  - unfold own. simpl. rewrite bool_decide_eq_false_2.
    + apply IH; assumption.
    + simpl. intros ->. apply Hk. apply (list_elem_of_fmap_2 fst) in Hin. exact Hin.
Qed.

Lemma own_loc_run h q d a ps k :
  h !! q = Some (QS d a) -> h !! d = Some (Obj ps) -> own_loc h q k = own ps k.
Proof. intros Hq Hd. unfold own_loc. rewrite Hq, Hd. reflexivity. Qed.

Lemma ends_impl {A} h (good good' : A -> store -> Prop) bad o :
  ends h good bad o -> (forall a h', good a h' -> good' a h') -> ends h good' bad o.
Proof. destruct o; simpl; [intros [? ?] Hi; auto | auto | auto]. Qed.

(** The instance [r] once its array of pairs is replaced by a new one. *)
Lemma holds_fresh_alist Hm r nd a0 ps' D' (al' : list pair) :
  Hm !! r = Some (QS nd a0) ->
  Hm !! nd = Some (Obj ps') ->
  Forall2 (fun kv e => values_at Hm kv = Some e) ps' D' ->
  NoDup D'.*1 -> str "__proto__" ∉ D'.*1 ->
  holds (<[r:=QS nd (length Hm)]> (Hm ++ [ArrP al'])) r D' al'.
Proof.
  intros Hr Hnd Hps' HndD HpD.
  pose proof (lookup_lt_Some _ _ _ Hr) as Hlr.
  apply (holds_intro _ r nd (length Hm) ps'); try assumption.
  - apply list_lookup_insert_eq; rewrite length_app; lia.
  - rewrite list_lookup_insert_ne by congruence. apply lookup_app_l_Some, Hnd.
  - rewrite list_lookup_insert_ne by lia. apply list_lookup_middle. reflexivity.
  - eapply Forall2_impl; [exact Hps'|]. intros kv e He.
    apply values_at_insert.
    + intros vs. rewrite (lookup_app_l_Some _ _ _ _ Hr). discriminate.
    + apply values_at_app, He.
Qed.

Lemma plus_finish h q d a al r nd a0 ps' D' k (v : val) Hm :
  h `prefix_of` Hm -> (length h <= r)%nat ->
  Hm !! q = Some (QS d a) -> Hm !! a = Some (ArrP al) ->
  Hm !! r = Some (QS nd a0) -> Hm !! nd = Some (Obj ps') ->
  Forall2 (fun kv e => values_at Hm kv = Some e) ps' D' ->
  NoDup D'.*1 -> str "__proto__" ∉ D'.*1 ->
  ends h (fun q' h' => exists p, new_pair k v = Ok p /\ holds h' q' D' (al ++ [p]) /\
                                 forall key, own_loc h' q' key = own ps' key)
    (fun e => new_pair k v = Raise e)
    ((a ← get_alist q;
      na ← slice (A:=pair) a;
      set_alist r na;;
      ra ← get_alist r;
      ke ← lift (encode k);
      ve ← lift (encode (ToString v));
      push ra (Pair ke k (Str ve) v);;
      mret r) Hm).
Proof.
  intros Hpre Hr0 Hq Ha Hr Hnd Hps' HndD HpD.
  pose proof (lookup_lt_Some _ _ _ Hr) as Hlr.
  pose proof (prefix_length _ _ Hpre) as Hlen.
  rewrite (bind_ret _ _ _ _ _ (get_alist_run _ _ _ _ Hq)).
  rewrite (bind_ret _ _ _ _ _ (slice_pairs _ _ _ Ha)).
  rewrite bind_run.
  rewrite (set_alist_run _ r nd a0) by (apply lookup_app_l_Some, Hr).
  set (H7 := <[r:=QS nd (length Hm)]> (Hm ++ [ArrP al])).
  assert (Hr7 : H7 !! r = Some (QS nd (length Hm))).
  { apply list_lookup_insert_eq. rewrite length_app. lia. }
  assert (Hpre7 : h `prefix_of` H7).
  { apply prefix_insert; [apply prefix_snoc, Hpre | exact Hr0]. }
  rewrite (bind_ret _ _ _ _ _ (get_alist_run _ _ _ _ Hr7)).
  unfold new_pair.
  rewrite bind_run, lift_run. destruct (encode k) as [ke|e]; [|split; [exact Hpre7 | reflexivity]].
  rewrite bind_run, lift_run.
  destruct (encode (ToString v)) as [ve|e]; [|split; [exact Hpre7 | reflexivity]].
  rewrite bind_run.
  erewrite (push_pairs H7 (length Hm) al); cycle 1.
  { unfold H7. rewrite list_lookup_insert_ne by lia. apply list_lookup_middle. reflexivity. }
  simpl. split.
  - apply prefix_insert; [exact Hpre7 | lia].
  - eexists. split; [reflexivity|].
    unfold H7. rewrite list_insert_insert_ne by lia.
    rewrite insert_middle. split.
    + apply (holds_fresh_alist Hm r nd a0 ps'); assumption.
    + intros key. apply (own_loc_run _ r nd (length Hm)).
      * apply list_lookup_insert_eq; rewrite length_app; lia.
      * rewrite list_lookup_insert_ne by congruence. apply lookup_app_l_Some, Hnd.
Qed.

Lemma plus_run location_search h q D al k v st :
  holds h q D al -> parsed location_search = (st, None) ->
  own_vals D (str "hasOwnProperty") = None ->
  ends h (fun q' h' => exists p, new_pair k v = Ok p /\
                                 holds h' q' (add_key D k v) (al ++ [p]) /\
                                 forall key l, key <> k -> own_loc h q key = Some l ->
                                               own_loc h' q' key = Some l)
    (fun e => new_pair k v = Raise e)
    (plus location_search q k v h).
Proof.
  intros Hh Hls Hsh.
  destruct (holds_inv _ _ _ _ Hh) as (d & a & ps & Hq & Hd & Ha & Hps & Hnd & Hp).
  destruct Hh as (_ & _ & HndD & HpD).
  pose proof (own_content h ps D (str "hasOwnProperty") Hps) as Hshp.
  rewrite Hsh in Hshp.
  destruct (own ps (str "hasOwnProperty")) eqn:Hsh'; [destruct Hshp as (? & [=] & _)|].
  clear Hshp.
  pose proof (own_content h ps D k Hps) as Hk.
  destruct (add_key_wf D k v HndD HpD) as [HndD' HpD'].
  unfold plus. rewrite bind_run, QueryString_run. simpl source. rewrite Hls.
  destruct st as [D0 al0]. simpl fst; simpl snd.
  set (n := length h).
  set (H1 := h ++ layout n D0 al0).
  assert (Hpre1 : h `prefix_of` H1) by (apply prefix_app_r; reflexivity).
  assert (Hq1 : H1 !! q = Some (QS d a)) by apply lookup_app_l_Some, Hq.
  assert (Hd1 : H1 !! d = Some (Obj ps)) by apply lookup_app_l_Some, Hd.
  assert (Ha1 : H1 !! a = Some (ArrP al)) by apply lookup_app_l_Some, Ha.
  assert (Hps1 : Forall2 (fun kv e => values_at H1 kv = Some e) ps D).
  { eapply Forall2_impl; [exact Hps|]. intros ? ?. apply values_at_app. }
  assert (Hr1 : H1 !! (n + 2)%nat = Some (QS n (n + 1))).
  { unfold H1, n. rewrite lookup_app_plus. reflexivity. }
  assert (Hlr : (n + 2 < length H1)%nat) by (apply lookup_lt_Some in Hr1; exact Hr1).
  assert (Hqn : (q < n)%nat) by (apply lookup_lt_Some in Hq; exact Hq).
  assert (Hshare : forall ps', NoDup ps'.*1 ->
            (forall kv, kv ∈ ps -> kv.1 <> k -> kv ∈ ps') ->
            forall q' h', (forall key, own_loc h' q' key = own ps' key) ->
            forall key l, key <> k -> own_loc h q key = Some l ->
                          own_loc h' q' key = Some l).
  { intros ps' Hnd' Hsub q' h' Hloc key l Hne Hl.
    rewrite (own_loc_run _ _ _ _ _ key Hq Hd) in Hl. rewrite Hloc.
    apply own_in; [exact Hnd'|]. apply (Hsub (key, l)); [|exact Hne].
    apply own_Some_in, Hl. }
  rewrite (bind_ret _ _ _ _ _ (get_dict_run _ _ _ _ Hq1)).
  rewrite bind_run, (hasOwnProperty_run _ _ _ k Hd1), Hsh'.
  rewrite bind_run.
  destruct (own ps k) as [l|] eqn:Hown.
  - rewrite bool_decide_eq_true_2 by eauto.
    destruct Hk as (vs & Hk & _).
    assert (HkD : k ∈ D.*1).
    { destruct (decide (k ∈ D.*1)) as [|Hn]; [assumption|].
      apply own_vals_None in Hn. congruence. }
    destruct (build_dict _ _ H1 d ps D (n + 2)%nat n (n + 1)%nat
                (callback_plus_pure k v) Hd1 Hsh' Hps1 Hnd Hp Hr1)
      as (ps' & ex & Hrun & Hres & Hkeep).
    rewrite Hrun.
    assert (Hres' : Forall2 (fun kv e =>
              values_at (<[(n + 2)%nat:=QS (length H1) (n + 1)]> (H1 ++ Obj ps' :: ex)) kv
              = Some e) ps' (add_key D k v)).
    { unfold add_key. rewrite (push_key_map D k v HndD HkD). exact Hres. }
    apply (ends_impl h (fun q' h' => exists p, new_pair k v = Ok p /\
              holds h' q' (add_key D k v) (al ++ [p]) /\
              forall key, own_loc h' q' key = own (ps') key)); cycle 1.
    { intros q' h' (p & Hp' & Hh' & Hloc). exists p. split; [exact Hp'|].
        split; [exact Hh'|]. apply (Hshare ps'); [|  |exact Hloc].
        - rewrite (content_keys _ _ _ Hres'). exact HndD'.
        - intros kv Hkv Hne. apply Hkeep; [exact Hkv|]. intros h0.
          destruct (decide (kv.1 ≠ k)); [reflexivity | contradiction]. }
    eapply (plus_finish h q d a al (n + 2) (length H1) (n + 1) ps').
    + apply prefix_insert; [apply prefix_snoc, Hpre1 | lia].
    + lia.
    + rewrite list_lookup_insert_ne by lia. apply lookup_app_l_Some, Hq1.
    + rewrite list_lookup_insert_ne
        by (intros <-; rewrite Hr1 in Ha1; discriminate).
      apply lookup_app_l_Some, Ha1.
    + apply list_lookup_insert_eq. rewrite length_app. lia.
    + rewrite list_lookup_insert_ne by lia.
      apply list_lookup_middle. reflexivity.
    + exact Hres'.
    + exact HndD'.
    + exact HpD'.
  - rewrite bool_decide_eq_false_2 by (intros [? [=]]).
    assert (HkD : k ∉ D.*1) by (apply own_vals_None, Hk).
    destruct (mapDict_pure _ _ H1 d ps D callback_share_pure Hd1 Hsh' Hps1 Hnd Hp)
      as (ps' & ex & Hrun & Hres & Hkeep).
    rewrite map_dict_id in Hres.
    assert (Hsub : forall kv, kv ∈ ps -> kv ∈ ps').
    { intros kv Hkv. apply Hkeep; [exact Hkv|]. intros h0. reflexivity. }
    rewrite bind_run, Hrun.
    rewrite bind_run.
    rewrite (set_dict_run _ (n + 2) n (n + 1)) by (apply lookup_app_l_Some, Hr1).
    set (H3 := <[(n + 2)%nat:=QS (length H1) (n + 1)]> (H1 ++ Obj ps' :: ex)).
    assert (Hr3 : H3 !! (n + 2)%nat = Some (QS (length H1) (n + 1))).
    { apply list_lookup_insert_eq. rewrite length_app. lia. }
    assert (Hnd3 : H3 !! length H1 = Some (Obj ps')).
    { unfold H3. rewrite list_lookup_insert_ne by lia. apply list_lookup_middle. reflexivity. }
    assert (Hps3 : Forall2 (fun kv e => values_at H3 kv = Some e) ps' D).
    { eapply Forall2_impl; [exact Hres|]. intros kv e. apply values_at_insert.
      intros vs. rewrite (lookup_app_l_Some _ _ _ _ Hr1). discriminate. }
    assert (Hpre3 : h `prefix_of` H3).
    { apply prefix_insert; [apply prefix_snoc, Hpre1 | lia]. }
    assert (Hq3 : H3 !! q = Some (QS d a)).
    { unfold H3. rewrite list_lookup_insert_ne by lia. apply lookup_app_l_Some, Hq1. }
    assert (Ha3 : H3 !! a = Some (ArrP al)).
    { unfold H3. rewrite list_lookup_insert_ne
        by (intros <-; rewrite Hr1 in Ha1; discriminate).
      apply lookup_app_l_Some, Ha1. }
    rewrite (bind_ret _ _ _ _ _ (get_dict_run _ _ _ _ Hr3)).
    unfold array, alloc at 1. rewrite bind_run.
    unfold set_prop.
    erewrite bind_ret by (apply props_run, lookup_app_l_Some, Hnd3).
    unfold add_key in *. rewrite (proj2 (push_key_None D k v) HkD) in *.
    destruct (decide (k = str "__proto__")) as [Hkp|Hkp].
    + apply (ends_impl h (fun q' h' => exists p, new_pair k v = Ok p /\
              holds h' q' D (al ++ [p]) /\
              forall key, own_loc h' q' key = own ps' key)); cycle 1.
      { intros q' h' (p & Hp' & Hh' & Hloc). exists p. split; [exact Hp'|].
          split; [exact Hh'|]. apply (Hshare ps'); [| |exact Hloc].
          - rewrite (content_keys _ _ _ Hps3). exact HndD.
          - intros kv Hkv _. apply Hsub, Hkv. }
      eapply (plus_finish h q d a al (n + 2) (length H1) (n + 1) ps').
      * apply prefix_snoc, Hpre3.
      * lia.
      * apply lookup_app_l_Some, Hq3.
      * apply lookup_app_l_Some, Ha3.
      * apply lookup_app_l_Some, Hr3.
      * apply lookup_app_l_Some, Hnd3.
      * eapply Forall2_impl; [exact Hps3|]. intros kv e. apply values_at_app.
      * exact HndD'.
      * exact HpD'.
    + erewrite put_run by (apply lookup_app_l_Some, Hnd3).
      assert (Hnd_lt : (length H1 < length H3)%nat) by (apply lookup_lt_Some in Hnd3; exact Hnd3).
      assert (Hk' : k ∉ ps'.*1) by (rewrite (content_keys _ _ _ Hps3); exact HkD).
      rewrite (set_own_fresh _ _ _ Hk').
      apply (ends_impl h (fun q' h' => exists p, new_pair k v = Ok p /\
              holds h' q' (D ++ [(k, [v])]) (al ++ [p]) /\
              forall key, own_loc h' q' key = own (ps' ++ [(k, length H3)]) key)); cycle 1.
      { intros q' h' (p & Hp' & Hh' & Hloc). exists p. split; [exact Hp'|].
          split; [exact Hh'|]. apply (Hshare (ps' ++ [(k, length H3)])); [| |exact Hloc].
          - rewrite fmap_app in HndD'.
            rewrite fmap_app, (content_keys _ _ _ Hps3). exact HndD'.
          - intros kv Hkv _. apply elem_of_app. left. apply Hsub, Hkv. }
      eapply (plus_finish h q d a al (n + 2) (length H1) (n + 1)
                (ps' ++ [(k, length H3)])).
      * apply prefix_insert; [apply prefix_snoc, Hpre3|].
        apply prefix_length in Hpre1. exact Hpre1.
      * lia.
      * rewrite list_lookup_insert_ne by lia. apply lookup_app_l_Some, Hq3.
      * rewrite list_lookup_insert_ne
          by (intros <-; rewrite Hnd3 in Ha3; discriminate).
        apply lookup_app_l_Some, Ha3.
      * rewrite list_lookup_insert_ne by lia.
        apply lookup_app_l_Some, Hr3.
      * apply list_lookup_insert_eq. rewrite length_app. lia.
      * apply Forall2_app.
        -- eapply Forall2_impl; [exact Hps3|]. intros kv e He. apply values_at_insert.
           ++ intros vs. rewrite (lookup_app_l_Some _ _ _ _ Hnd3). discriminate.
           ++ apply values_at_app, He.
        -- constructor; [|constructor]. apply values_at_Some. split; [reflexivity|].
           simpl. rewrite list_lookup_insert_ne by lia.
           apply list_lookup_middle. reflexivity.
      * exact HndD'.
      * exact HpD'.
Qed.

Lemma minus_run location_search h q D al k v st :
  holds h q D al -> parsed location_search = (st, None) ->
  own_vals D (str "hasOwnProperty") = None ->
  ends h (fun q' h' => holds h' q' (minus_dict D k v) (minus_alist al k v))
    (fun _ => False)
    (minus location_search q k v h).
Proof.
  intros Hh Hls Hsh.
  destruct (holds_inv _ _ _ _ Hh) as (d & a & ps & Hq & Hd & Ha & Hps & Hnd & Hp).
  destruct Hh as (_ & _ & HndD & HpD).
  pose proof (own_content h ps D (str "hasOwnProperty") Hps) as Hshp.
  rewrite Hsh in Hshp.
  destruct (own ps (str "hasOwnProperty")) eqn:Hsh'; [destruct Hshp as (? & [=] & _)|].
  clear Hshp.
  unfold minus. rewrite bind_run, QueryString_run. simpl source. rewrite Hls.
  destruct st as [D0 al0]. simpl fst; simpl snd.
  set (n := length h).
  set (H1 := h ++ layout n D0 al0).
  assert (Hpre1 : h `prefix_of` H1) by (apply prefix_app_r; reflexivity).
  assert (Hq1 : H1 !! q = Some (QS d a)) by apply lookup_app_l_Some, Hq.
  assert (Hd1 : H1 !! d = Some (Obj ps)) by apply lookup_app_l_Some, Hd.
  assert (Ha1 : H1 !! a = Some (ArrP al)) by apply lookup_app_l_Some, Ha.
  assert (Hps1 : Forall2 (fun kv e => values_at H1 kv = Some e) ps D).
  { eapply Forall2_impl; [exact Hps|]. intros ? ?. apply values_at_app. }
  assert (Hr1 : H1 !! (n + 2)%nat = Some (QS n (n + 1))).
  { unfold H1, n. rewrite lookup_app_plus. reflexivity. }
  assert (Hlr : (n + 2 < length H1)%nat) by (apply lookup_lt_Some in Hr1; exact Hr1).
  assert (Hqn : (q < n)%nat) by (apply lookup_lt_Some in Hq; exact Hq).
  rewrite (bind_ret _ _ _ _ _ (get_dict_run _ _ _ _ Hq1)).
  destruct (mapDict_pure _ _ H1 d ps D (callback_minus_pure k v) Hd1 Hsh' Hps1 Hnd Hp)
    as (ps' & ex & Hrun & Hres & _).
  rewrite bind_run, Hrun.
  rewrite bind_run.
  rewrite (set_dict_run _ (n + 2) n (n + 1)) by (apply lookup_app_l_Some, Hr1).
  set (H3 := <[(n + 2)%nat:=QS (length H1) (n + 1)]> (H1 ++ Obj ps' :: ex)).
  assert (Hr3 : H3 !! (n + 2)%nat = Some (QS (length H1) (n + 1))).
  { apply list_lookup_insert_eq. rewrite length_app. lia. }
  assert (Hnd3 : H3 !! length H1 = Some (Obj ps')).
  { unfold H3. rewrite list_lookup_insert_ne by lia. apply list_lookup_middle. reflexivity. }
  assert (Hps3 : Forall2 (fun kv e => values_at H3 kv = Some e) ps' (minus_dict D k v)).
  { eapply Forall2_impl; [exact Hres|]. intros kv e. apply values_at_insert.
    intros vs. rewrite (lookup_app_l_Some _ _ _ _ Hr1). discriminate. }
  assert (Hpre3 : h `prefix_of` H3).
  { apply prefix_insert; [apply prefix_snoc, Hpre1 | lia]. }
  assert (Hq3 : H3 !! q = Some (QS d a)).
  { unfold H3. rewrite list_lookup_insert_ne by lia. apply lookup_app_l_Some, Hq1. }
  assert (Ha3 : H3 !! a = Some (ArrP al)).
  { unfold H3. rewrite list_lookup_insert_ne
      by (intros <-; rewrite Hr1 in Ha1; discriminate).
    apply lookup_app_l_Some, Ha1. }
  rewrite (bind_ret _ _ _ _ _ (get_alist_run _ _ _ _ Hq3)).
  rewrite (bind_ret _ _ _ _ _ (filter_pairs _ _ _ _ Ha3)).
  rewrite bind_run.
  rewrite (set_alist_run _ (n + 2) (length H1) (n + 1)) by (apply lookup_app_l_Some, Hr3).
  simpl. split.
  - apply prefix_insert; [apply prefix_snoc, Hpre3 | lia].
  - apply (holds_fresh_alist H3 (n + 2) (length H1) (n + 1) ps'); try assumption.
    + apply map_dict_NoDup, HndD.
    + intros Hx. apply HpD. eapply map_dict_keys, Hx.
Qed.

(** ** The dictionary and the pairs *)

Lemma own_vals_app D D' k :
  own_vals (D ++ D') k
  = match own_vals D k with Some vs => Some vs | None => own_vals D' k end.
Proof.
  induction D as [|[k' vs] D IH]; [reflexivity|].
  rewrite <- app_comm_cons, !own_vals_cons. destruct (decide _); [reflexivity | exact IH].
Qed.

Lemma add_key_own D k v k2 :
  NoDup D.*1 -> k <> str "__proto__" ->
  own_vals (add_key D k v) k2
  = if decide (k2 = k) then Some (default [] (own_vals D k) ++ [v]) else own_vals D k2.
Proof.
  intros Hnd Hkp. unfold add_key.
  destruct (decide (k ∈ D.*1)) as [Hin|Hin].
  - rewrite (push_key_map D k v Hnd Hin), map_dict_own by assumption.
    unfold plus_answer. destruct (decide (k2 = k)) as [->|Hne].
    + destruct (own_vals D k) as [vs|] eqn:E.
      * simpl. destruct (decide (k ≠ k)); [congruence | reflexivity].
      * apply own_vals_None in E. contradiction.
    + destruct (own_vals D k2); simpl; [|reflexivity].
      destruct (decide (k2 ≠ k)) as [_|Hn]; [reflexivity | destruct Hn; exact Hne].
  - rewrite (proj2 (push_key_None D k v) Hin).
    destruct (decide (k = str "__proto__")); [contradiction|].
    rewrite own_vals_app, own_vals_cons.
    pose proof (proj2 (own_vals_None D k) Hin) as E.
    destruct (decide (k2 = k)) as [->|Hne].
    + rewrite E. destruct (decide (k = k)); [reflexivity | congruence].
    + destruct (own_vals D k2); [reflexivity|].
      destruct (decide (k = k2)); [congruence | reflexivity].
Qed.

Lemma project_snoc al p k :
  project (al ++ [p]) k = project al k ++ (if decide (key_dec p = k) then [val_dec p] else []).
Proof.
  unfold project. rewrite List.filter_app, fmap_app. f_equal. simpl.
  destruct (decide (key_dec p = k)).
  - rewrite bool_decide_eq_true_2 by assumption. reflexivity.
  - rewrite bool_decide_eq_false_2 by assumption. reflexivity.
Qed.

Lemma grouped_values D al k : grouped D al -> default [] (own_vals D k) = project al k.
Proof.
  intros G. rewrite (G k). destruct (decide _) as [E|]; [rewrite E|]; reflexivity.
Qed.

Lemma grouped_add D al p :
  NoDup D.*1 -> key_dec p <> str "__proto__" -> grouped D al ->
  grouped (add_key D (key_dec p) (val_dec p)) (al ++ [p]).
Proof.
  intros Hnd Hkp G k2. rewrite add_key_own, project_snoc by assumption.
  rewrite (grouped_values _ _ _ G).
  destruct (decide (k2 = key_dec p)) as [->|Hne].
  - destruct (decide (key_dec p = key_dec p)); [|congruence].
    destruct (decide _) as [E|]; [|reflexivity].
    apply app_eq_nil in E as [_ [=]].
  - destruct (decide (key_dec p = k2)); [congruence|]. rewrite app_nil_r. apply G.
Qed.

Lemma grouped_nil : grouped [] [].
Proof. intros k. reflexivity. Qed.

(** ** The loop of the constructor *)

Lemma proto_inherited : str "__proto__" ∈ Object_prototype.
Proof.
  unfold Object_prototype. apply list_elem_of_fmap_2' with (x := "__proto__"%string);
    [|reflexivity].
  repeat first [apply list_elem_of_here | apply list_elem_of_further].
Qed.

Lemma add_pure_Ok D al m st' :
  add_pure (D, al) m = Ok st' ->
  (forall k, k ∈ D.*1 -> k ∉ Object_prototype) ->
  exists p,
    tok_of p = m /\
    decodeURIComponent (plus_to_space (key_enc p)) = Ok (key_dec p) /\
    val_dec p = match val_enc p with Null => Null | Str s => Str (decode s) end /\
    (key_dec p ∉ Object_prototype) /\
    st' = (add_key D (key_dec p) (val_dec p), al ++ [p]).
Proof.
  unfold add_pure. cbn [fst snd]. intros Hrun HD.
  destruct (decodeURIComponent (plus_to_space m.1)) as [key|e] eqn:Hkey; [|discriminate Hrun].
  cbn [mbind res_bind] in Hrun.
  set (ve := match m.2 with None => Null | Some s => Str s end) in *.
  set (vd := match ve with Null => Null | Str s => Str (decode s) end) in *.
  exists (Pair m.1 key ve vd). cbn [key_enc key_dec val_enc val_dec].
  assert (Htok : tok_of (Pair m.1 key ve vd) = m).
  { unfold tok_of, ve. cbn [key_enc val_enc]. destruct m as [k [s|]]; reflexivity. }
  unfold add_key.
  destruct (push_key D key vd) as [D'|] eqn:Hp.
  - injection Hrun as <-.
    split; [exact Htok|]. split; [exact Hkey|]. split; [reflexivity|].
    split; [|reflexivity]. apply HD.
    destruct (decide (key ∈ D.*1)) as [|Hn]; [assumption|].
    apply (push_key_None D key vd) in Hn. congruence.
  - case_bool_decide as Hop; [discriminate Hrun|]. injection Hrun as <-.
    destruct (decide (key = str "__proto__")) as [->|].
    { destruct Hop. apply proto_inherited. }
    split; [exact Htok|]. split; [exact Hkey|]. split; [reflexivity|].
    split; [exact Hop | reflexivity].
Qed.

Lemma shadow_inherited : str "hasOwnProperty" ∈ Object_prototype.
Proof.
  unfold Object_prototype. apply list_elem_of_fmap_2' with (x := "hasOwnProperty"%string);
    [|reflexivity].
  repeat first [apply list_elem_of_here | apply list_elem_of_further].
Qed.

Lemma add_pure_inv st m st' :
  add_pure st m = Ok st' -> wf_tok m -> parsed_inv st -> parsed_inv st'.
Proof.
  destruct st as [D al]. intros Hrun Hm (Hnd & HD & G & Hst). cbn [fst snd] in *.
  destruct (add_pure_Ok D al m st' Hrun HD) as (p & Htok & Hk & Hv & Hop & ->).
  assert (Hkp : key_dec p <> str "__proto__").
  { intros E. apply Hop. rewrite E. apply proto_inherited. }
  assert (HpD : str "__proto__" ∉ D.*1).
  { intros Hx. apply (HD _ Hx), proto_inherited. }
  split; [apply add_key_wf; assumption|]. cbn [fst snd].
  split.
  { intros k. rewrite add_key_keys. case_bool_decide; [apply HD|].
    destruct (decide _); [apply HD|].
    rewrite elem_of_app, list_elem_of_singleton. intros [?| ->]; auto. }
  split; [apply grouped_add; assumption|].
  apply Forall_app. split; [exact Hst|]. constructor; [|constructor].
  split; [rewrite Htok; exact Hm|]. split; assumption.
Qed.

Lemma build_inv ms : forall st,
  Forall wf_tok ms -> parsed_inv st -> parsed_inv (build st ms).1.
Proof.
  induction ms as [|m ms IH]; intros st Hms Hinv; simpl; [exact Hinv|].
  inversion Hms as [|? ? Hm Hms']; subst.
  destruct (add_pure st m) as [st'|e] eqn:E; [|exact Hinv].
  apply IH; [exact Hms'|]. eapply add_pure_inv; eassumption.
Qed.

Lemma parsed_inv_parsed qs : parsed_inv (parsed qs).1.
Proof.
  unfold parsed. apply build_inv; [apply exec_all_wf|].
  split; [constructor|]. split; [intros k Hk; inversion Hk|].
  split; [apply grouped_nil | constructor].
Qed.

Lemma add_pure_error D al m :
  (forall k, k ∈ D.*1 -> k ∉ Object_prototype) ->
  match key_error m with
  | Some e => add_pure (D, al) m = Raise e
  | None => exists st', add_pure (D, al) m = Ok st'
  end.
Proof.
  intros HD. unfold key_error, add_pure. cbn [fst snd].
  destruct (decodeURIComponent (plus_to_space m.1)) as [key|e]; [|reflexivity].
  cbn [mbind res_bind].
  case_bool_decide as Hop.
  - assert (Hn : key ∉ D.*1) by (intros Hx; exact (HD _ Hx Hop)).
    rewrite (proj2 (push_key_None D key _) Hn). reflexivity.
  - destruct (push_key D key _); eauto.
Qed.

Lemma build_error ms : forall st,
  parsed_inv st -> Forall wf_tok ms -> (build st ms).2 = head (omap key_error ms).
Proof.
  induction ms as [|m ms IH]; intros [D al] Hinv Hms; [reflexivity|].
  inversion Hms as [|? ? Hm Hms']; subst.
  pose proof (add_pure_error D al m (proj1 (proj2 Hinv))) as Hm'.
  simpl. destruct (key_error m) as [e|].
  - rewrite Hm'. reflexivity.
  - destruct Hm' as [st' E]. rewrite E. apply IH; [|exact Hms'].
    eapply add_pure_inv; eassumption.
Qed.

Lemma locs_content H D : forall m,
  (forall i k vs, D !! i = Some (k, vs) -> H !! (m + i)%nat = Some (ArrV vs)) ->
  Forall2 (fun kv e => values_at H kv = Some e) (locs_from m D) D.
Proof.
  induction D as [|[k vs] D IH]; intros m HD; simpl; constructor.
  - apply values_at_Some. split; [reflexivity|]. simpl.
    rewrite <- (Nat.add_0_r m). apply (HD 0%nat k vs). reflexivity.
  - apply IH. intros i k' vs' Hi. replace (S m + i)%nat with (m + S i)%nat by lia.
    apply (HD (S i) k' vs'). exact Hi.
Qed.

Lemma holds_layout h D al :
  NoDup D.*1 -> str "__proto__" ∉ D.*1 ->
  holds (h ++ layout (length h) D al) (length h + 2) D al.
Proof.
  intros Hnd Hp.
  destruct (layout_instance_lookup h D al) as [Hq Hd].
  apply (holds_intro _ _ (length h) (length h + 1) (locs_from (length h + 3) D));
    try assumption.
  - rewrite lookup_app_plus. reflexivity.
  - apply locs_content. intros i k vs Hi. apply (layout_array_lookup h D al i k vs Hi).
Qed.

(** What the constructor returns holds what it parsed. *)
Lemma QueryString_holds location_search arg h q h' :
  QueryString location_search arg h = Ret q h' ->
  exists D al,
    parsed (source location_search arg) = ((D, al), None) /\
    parsed_inv (D, al) /\ holds h' q D al /\ h `prefix_of` h' /\
    own_vals D (str "hasOwnProperty") = None.
Proof.
  rewrite QueryString_run. intros Hrun.
  pose proof (parsed_inv_parsed (source location_search arg)) as Hinv.
  destruct (parsed _) as [[D al] [e|]]; [discriminate Hrun|].
  injection Hrun as <- <-. cbn [fst snd] in *.
  destruct Hinv as (Hnd & HD & G & Hst).
  exists D, al. split; [reflexivity|]. split; [repeat split; assumption|].
  split.
  { apply holds_layout; [exact Hnd|]. intros Hx. apply (HD _ Hx), proto_inherited. }
  split; [apply prefix_app_r; reflexivity|].
  apply own_vals_None. intros Hx. apply (HD _ Hx), shadow_inherited.
Qed.

Lemma values_grouped h q D al key :
  holds h q D al -> grouped D al -> own_vals D (str "hasOwnProperty") = None ->
  result (values_of q key h) = Some (inr (project al key)) /\
  result (value q key h) = Some (inr (last (project al key))).
Proof.
  intros Hh G Hsh.
  rewrite (values_of_holds h q D al key Hh), (value_holds h q D al key Hh), Hsh.
  rewrite <- (grouped_values D al key G).
  destruct (own_vals D key) as [vs|] eqn:E; simpl; split; reflexivity.
Qed.

Lemma plus_then location_search h q D al k v p :
  holds h q D al -> (parsed location_search).2 = None ->
  own_vals D (str "hasOwnProperty") = None -> new_pair k v = Ok p ->
  exists q' h', plus location_search q k v h = Ret q' h' /\
    h `prefix_of` h' /\ holds h' q' (add_key D k v) (al ++ [p]) /\
    forall key l, key <> k -> own_loc h q key = Some l -> own_loc h' q' key = Some l.
Proof.
  intros Hh Hls Hsh Hp.
  destruct (parsed location_search) as [st o] eqn:E. simpl in Hls. subst o.
  pose proof (plus_run location_search h q D al k v st Hh E Hsh) as Hrun.
  destruct (plus location_search q k v h) as [q' h'|e h'|]; simpl in Hrun.
  - destruct Hrun as (Hpre & p' & Hp' & Hh' & Hloc). rewrite Hp in Hp'.
    injection Hp' as <-. eauto 6.
  - destruct Hrun as [_ Hp']. congruence.
  - destruct Hrun.
Qed.

Lemma minus_then location_search h q D al k v :
  holds h q D al -> (parsed location_search).2 = None ->
  own_vals D (str "hasOwnProperty") = None ->
  exists q' h', minus location_search q k v h = Ret q' h' /\
    h `prefix_of` h' /\ holds h' q' (minus_dict D k v) (minus_alist al k v).
Proof.
  intros Hh Hls Hsh.
  destruct (parsed location_search) as [st o] eqn:E. simpl in Hls. subst o.
  pose proof (minus_run location_search h q D al k v st Hh E Hsh) as Hrun.
  destruct (minus location_search q k v h) as [q' h'|e h'|]; simpl in Hrun.
  - destruct Hrun as (Hpre & Hh'). eauto.
  - destruct Hrun as [_ []].
  - destruct Hrun.
Qed.

Lemma project_nil al k : project al k = [] <-> k ∉ key_dec <$> al.
Proof.
  unfold project. induction al as [|p al IH].
  - split; [intros _ Hx; inversion Hx | reflexivity].
  - cbn [List.filter]. rewrite fmap_cons, not_elem_of_cons. case_bool_decide as E.
    + rewrite fmap_cons. split; [discriminate | intros [? _]; congruence].
    + rewrite IH. split; [intros ?; split; [congruence | assumption] | intros [_ ?]; assumption].
Qed.

Lemma grouped_keys D al k : grouped D al -> k ∈ D.*1 <-> k ∈ key_dec <$> al.
Proof.
  intros G. specialize (G k).
  destruct (decide (k ∈ D.*1)) as [Hin|Hin]; destruct (decide (project al k = [])) as [E|E].
  - apply own_vals_None in G. contradiction.
  - split; [intros _|auto].
    destruct (decide (k ∈ key_dec <$> al)) as [|Hn]; [assumption|].
    apply project_nil in Hn. contradiction.
  - split; [contradiction|]. intros Hx. apply project_nil in E. contradiction.
  - apply own_vals_None in Hin. congruence.
Qed.

(** ** The constructor *)

Ltac not_member :=
  let Hx := fresh in
  intros Hx;
  repeat (apply elem_of_cons in Hx as [Hx|Hx]; [discriminate Hx|]);
  inversion Hx.

Lemma small_store_holds : holds small_store 2 small_dict small_pairs.
Proof.
  split; [reflexivity|]. split; [reflexivity|]. split.
  - apply NoDup_cons. split; [not_member|]. apply NoDup_singleton.
  - not_member.
Qed.

Lemma small_store_parsed : QueryString [] (Some (str "?a=b&c")) [] = Ret 2 small_store.
Proof. reflexivity. Qed.

(** X1: whether the constructor returns is decided by the keys of the text
    alone.  It throws at the first match of the tokenizer whose key
    [decodeURIComponent] rejects (URIError) or whose decoded key names a
    property of [Object.prototype] (TypeError); when there is no such match
    it returns. *)
Theorem constructor_outcome location_search arg h :
  match head (omap key_error (tokens (source location_search arg))) with
  | Some e => exists h', QueryString location_search arg h = Throw e h'
  | None => exists q h', QueryString location_search arg h = Ret q h'
  end.
Proof.
  rewrite QueryString_run. unfold tokens.
  pose proof (build_error (exec_all re_pair (strip_question (source location_search arg)))
                ([], [])) as Herr.
  unfold parsed. rewrite <- Herr.
  - destruct (build _ _) as [st [e|]]; simpl; eauto.
  - split; [constructor|]. split; [intros k Hk; inversion Hk|].
    split; [apply grouped_nil | constructor].
  - apply exec_all_wf.
Qed.

(** X2: on an instance that the constructor returns, [values(key)] is the
    list of the decoded values of the pairs with that decoded key, in the
    order of the text, and [value(key)] is the last of them, or [undefined]
    when no pair has the key. *)
Theorem constructor_projection location_search arg h q h' :
  QueryString location_search arg h = Ret q h' ->
  exists al,
    alist_of h' q = Some al /\
    forall key,
      result (values_of q key h') = Some (inr (project al key)) /\
      result (value q key h') = Some (inr (last (project al key))).
Proof.
  intros Hrun.
  destruct (QueryString_holds _ _ _ _ _ Hrun) as (D & al & _ & Hinv & Hh & _ & Hsh).
  exists al. split; [apply Hh|]. intros key.
  apply (values_grouped h' q D al key Hh); [apply Hinv | exact Hsh].
Qed.

Lemma constructor_projection_witness :
  QueryString [] (Some (str "?a=b&c")) [] = Ret 2 small_store /\
  exists al,
    alist_of small_store 2 = Some al /\
    forall key,
      result (values_of 2 key small_store) = Some (inr (project al key)) /\
      result (value 2 key small_store) = Some (inr (last (project al key))).
Proof.
  split; [reflexivity|].
  apply (constructor_projection [] (Some (str "?a=b&c")) [] 2 small_store).
  reflexivity.
Defined.

(** X3: on an instance that the constructor returns, [keys()] lists each
    decoded key of the pairs exactly once. *)
Theorem constructor_keys location_search arg h q h' :
  QueryString location_search arg h = Ret q h' ->
  exists al ks,
    alist_of h' q = Some al /\ keys q h' = Ret ks h' /\
    NoDup ks /\ forall k, k ∈ ks <-> k ∈ key_dec <$> al.
Proof.
  intros Hrun.
  destruct (QueryString_holds _ _ _ _ _ Hrun) as (D & al & _ & Hinv & Hh & _ & Hsh).
  exists al, D.*1. split; [apply Hh|].
  rewrite (keys_holds h' q D al Hh), Hsh. split; [reflexivity|].
  split; [apply Hinv|]. intros k. apply grouped_keys, Hinv.
Qed.

Lemma constructor_keys_witness :
  QueryString [] (Some (str "?a=b&c")) [] = Ret 2 small_store /\
  exists al ks,
    alist_of small_store 2 = Some al /\ keys 2 small_store = Ret ks small_store /\
    NoDup ks /\ forall k, k ∈ ks <-> k ∈ key_dec <$> al.
Proof.
  split; [reflexivity|].
  apply (constructor_keys [] (Some (str "?a=b&c")) [] 2 small_store).
  reflexivity.
Defined.

(** X4: every pair of an instance that the constructor returns is stored as
    it was parsed: its encoded key is not empty and holds neither [=] nor
    [&], its encoded value holds no [&], its decoded key is what
    [decodeURIComponent] makes of the encoded key with [+] read as a space,
    and its decoded value is [QueryString.decode] of the encoded value
    ([null] for [null]). *)
Theorem constructor_stores location_search arg h q h' :
  QueryString location_search arg h = Ret q h' ->
  exists al, alist_of h' q = Some al /\ Forall stored al.
Proof.
  intros Hrun.
  destruct (QueryString_holds _ _ _ _ _ Hrun) as (D & al & _ & Hinv & Hh & _ & Hsh).
  exists al. split; [apply Hh | apply Hinv].
Qed.

Lemma constructor_stores_witness :
  QueryString [] (Some (str "?a=b&c")) [] = Ret 2 small_store /\
  exists al, alist_of small_store 2 = Some al /\ Forall stored al.
Proof.
  split; [reflexivity|].
  apply (constructor_stores [] (Some (str "?a=b&c")) [] 2 small_store).
  reflexivity.
Defined.

(** ** The builders *)

(** In the theorems on [plus] and [minus] the receiver [q] is an instance
    with the dictionary [D] and the pairs [al] ([holds]), and [D] has no own
    key [hasOwnProperty], which the builders call on it.  Both builders
    begin with [new QueryString()], so [location.search] is taken to be a
    text on which the constructor returns ([parsed] gives no exception);
    what happens otherwise is shown after them. *)

Lemma encodeURIComponent_raises n : forall s e,
  (length s <= n)%nat -> encodeURIComponent s = Raise e -> e = URIError.
Proof.
  induction n as [|n IH]; intros [|C t] e Hlen; simpl; try discriminate;
    simpl in Hlen; try lia.
  destruct (uriUnescaped C).
  { destruct (encodeURIComponent t) eqn:E; simpl; [discriminate|].
    intros [= <-]. apply (IH t); [lia | exact E]. }
  destruct (low_surrogate C); [intros [= <-]; reflexivity|].
  destruct (high_surrogate C); simpl.
  - destruct t as [|kChar t']; [intros [= <-]; reflexivity|].
    destruct (low_surrogate kChar); [|intros [= <-]; reflexivity].
    destruct (encodeURIComponent t') eqn:E; simpl; [discriminate|].
    intros [= <-]. apply (IH t'); [simpl in Hlen; lia | exact E].
  - destruct (encodeURIComponent t) eqn:E; simpl; [discriminate|].
    intros [= <-]. apply (IH t); [lia | exact E].
Qed.

Lemma encode_raises s e : encode s = Raise e -> e = URIError.
Proof.
  unfold encode. destruct (encodeURIComponent s) eqn:E; simpl; [discriminate|].
  intros [= <-]. apply (encodeURIComponent_raises (length s) s); [lia | exact E].
Qed.

Lemma new_pair_raises k v e : new_pair k v = Raise e -> e = URIError.
Proof.
  unfold new_pair. destruct (encode k) eqn:Ek; simpl.
  - destruct (encode (ToString v)) eqn:Ev; simpl; [discriminate|].
    intros [= <-]. apply (encode_raises _ _ Ev).
  - intros [= <-]. apply (encode_raises _ _ Ek).
Qed.

Lemma new_pair_Ok k v p :
  new_pair k v = Ok p ->
  exists ke ve, encode k = Ok ke /\ encode (ToString v) = Ok ve /\ p = Pair ke k (Str ve) v.
Proof.
  unfold new_pair. destruct (encode k) as [ke|]; simpl; [|discriminate].
  destruct (encode (ToString v)) as [ve|]; simpl; [|discriminate].
  intros [= <-]. eauto.
Qed.

Lemma new_pair_key k v p : new_pair k v = Ok p -> key_dec p = k /\ val_dec p = v.
Proof. intros (ke & ve & _ & _ & ->)%new_pair_Ok. auto. Qed.

Lemma add_key_shadow D k v :
  NoDup D.*1 -> own_vals D (str "hasOwnProperty") = None ->
  k <> str "hasOwnProperty" ->
  own_vals (add_key D k v) (str "hasOwnProperty") = None.
Proof.
  intros Hnd Hsh Hk. apply own_vals_None. rewrite add_key_keys.
  apply own_vals_None in Hsh.
  case_bool_decide; [exact Hsh|]. destruct (decide _); [exact Hsh|].
  rewrite elem_of_app, list_elem_of_singleton. intros [?|?]; [contradiction | congruence].
Qed.

(** X5: [plus(k, v)] adds [v] at the end of the values of [k] and leaves
    the values of every other key as they are; on the result, [value(k)] is
    [v].  The keys [__proto__] and [hasOwnProperty] are excepted. *)
Theorem plus_values location_search h q D al k v p key :
  holds h q D al -> (parsed location_search).2 = None ->
  own_vals D (str "hasOwnProperty") = None -> new_pair k v = Ok p ->
  k <> str "__proto__" -> k <> str "hasOwnProperty" ->
  result ((q' ← plus location_search q k v; values_of q' key) h)
  = Some (inr (default [] (own_vals D key) ++ if decide (key = k) then [v] else [])) /\
  result ((q' ← plus location_search q k v; value q' k) h) = Some (inr (Some v)).
Proof.
  intros Hh Hls Hsh Hp Hkp Hks.
  destruct (plus_then _ _ _ _ _ _ _ _ Hh Hls Hsh Hp) as (q' & h' & Hrun & _ & Hh' & _).
  destruct Hh as (_ & _ & Hnd & _).
  rewrite !bind_run, Hrun.
  rewrite (values_of_holds h' q' _ _ key Hh'), (value_holds h' q' _ _ k Hh').
  rewrite (add_key_shadow D k v Hnd Hsh Hks).
  rewrite !add_key_own by assumption.
  destruct (decide (k = k)); [|congruence]. split.
  - destruct (decide (key = k)) as [->|]; [reflexivity|].
    rewrite app_nil_r. destruct (own_vals D key); reflexivity.
  - simpl. rewrite last_snoc. reflexivity.
Qed.

Lemma plus_values_witness :
  (holds small_store 2 small_dict small_pairs /\
   (parsed []).2 = None /\ own_vals small_dict (str "hasOwnProperty") = None /\
   new_pair (str "a") (Str (str "x"))
   = Ok (Pair (str "a") (str "a") (Str (str "x")) (Str (str "x"))) /\
   str "a" <> str "__proto__" /\ str "a" <> str "hasOwnProperty") /\
  result ((q' ← plus [] 2 (str "a") (Str (str "x")); values_of q' (str "a")) small_store)
  = Some (inr (default [] (own_vals small_dict (str "a"))
               ++ if decide (str "a" = str "a") then [Str (str "x")] else [])) /\
  result ((q' ← plus [] 2 (str "a") (Str (str "x")); value q' (str "a")) small_store)
  = Some (inr (Some (Str (str "x")))).
Proof.
  split.
  { split; [exact small_store_holds|]. repeat (split; [reflexivity|]).
    split; discriminate. }
  apply (plus_values [] small_store 2 small_dict small_pairs (str "a") (Str (str "x"))
           (Pair (str "a") (str "a") (Str (str "x")) (Str (str "x"))) (str "a"));
    first [exact small_store_holds | reflexivity | discriminate].
Defined.

Lemma join_amp_snoc x xs y :
  join_amp ((x :: xs) ++ [y]) = join_amp (x :: xs) ++ str "&" ++ y.
Proof.
  revert x. induction xs as [|x' xs IH]; intros x; [reflexivity|].
  rewrite <- !app_comm_cons, join_amp_cons, app_comm_cons, IH.
  rewrite (join_amp_cons x x' xs), <- !app_assoc. reflexivity.
Qed.

Lemma render_snoc al p :
  render (al ++ [p])
  = (if decide (al = []) then str "?" else render al ++ str "&") ++ item p.
Proof.
  destruct al as [|p0 al]; [reflexivity|].
  destruct (decide _) as [|_]; [discriminate|].
  change (render ((p0 :: al) ++ [p]))
    with (str "?" ++ join_amp (item <$> ((p0 :: al) ++ [p]))).
  change (render (p0 :: al)) with (str "?" ++ join_amp (item <$> (p0 :: al))).
  rewrite fmap_app, fmap_cons. change (item <$> [p]) with [item p].
  rewrite join_amp_snoc, <- !app_assoc. reflexivity.
Qed.

(** X6: [plus(k, v)] serializes as the receiver does, followed by the
    encoded key, [=] and the encoded value, after [&], or after [?] when the
    receiver has no pair. *)
Theorem plus_toString location_search h q D al k v ke ve :
  holds h q D al -> (parsed location_search).2 = None ->
  own_vals D (str "hasOwnProperty") = None ->
  encode k = Ok ke -> encode (ToString v) = Ok ve ->
  result ((q' ← plus location_search q k v; toString q') h)
  = Some (inr ((if decide (al = []) then str "?" else render al ++ str "&")
               ++ ke ++ str "=" ++ ve)) /\
  result (toString q h) = Some (inr (render al)).
Proof.
  intros Hh Hls Hsh Hke Hve.
  assert (Hp : new_pair k v = Ok (Pair ke k (Str ve) v)).
  { unfold new_pair. rewrite Hke, Hve. reflexivity. }
  destruct (plus_then _ _ _ _ _ _ _ _ Hh Hls Hsh Hp) as (q' & h' & Hrun & _ & Hh' & _).
  rewrite bind_run, Hrun, (toString_holds _ _ _ _ Hh'), (toString_holds _ _ _ _ Hh).
  split; [|reflexivity]. simpl. rewrite render_snoc. reflexivity.
Qed.

Lemma plus_toString_witness :
  (holds small_store 2 small_dict small_pairs /\
   (parsed []).2 = None /\ own_vals small_dict (str "hasOwnProperty") = None /\
   encode (str "k y") = Ok (str "k+y") /\
   encode (ToString (Str (str "="))) = Ok (str "%3D")) /\
  result ((q' ← plus [] 2 (str "k y") (Str (str "=")); toString q') small_store)
  = Some (inr ((if decide (small_pairs = []) then str "?"
                else render small_pairs ++ str "&")
               ++ str "k+y" ++ str "=" ++ str "%3D")) /\
  result (toString 2 small_store) = Some (inr (render small_pairs)).
Proof.
  split.
  { split; [exact small_store_holds|]. repeat split; reflexivity. }
  apply (plus_toString [] small_store 2 small_dict small_pairs (str "k y") (Str (str "="))
           (str "k+y") (str "%3D"));
    first [exact small_store_holds | reflexivity].
Defined.

(** X7: [plus] keeps the dictionary the projection of the pairs: when the
    values of the receiver are those of its pairs grouped by key, so are
    those of the instance that [plus(k, v)] returns, for every key [k] but
    [__proto__]; the only exception [plus] then throws is the URIError of
    [encode]. *)
Theorem plus_keeps_projection location_search h q D al k v :
  holds h q D al -> grouped D al -> (parsed location_search).2 = None ->
  own_vals D (str "hasOwnProperty") = None -> k <> str "__proto__" ->
  ends h (fun q' h' => exists D' al', holds h' q' D' al' /\ grouped D' al')
    (fun e => e = URIError)
    (plus location_search q k v h).
Proof.
  intros Hh G Hls Hsh Hkp.
  destruct (parsed location_search) as [st o] eqn:E. simpl in Hls. subst o.
  pose proof (plus_run location_search h q D al k v st Hh E Hsh) as Hrun.
  destruct (plus location_search q k v h) as [q' h'|e h'|]; simpl in *.
  - destruct Hrun as (Hpre & p & Hp & Hh' & _). split; [exact Hpre|].
    exists (add_key D k v), (al ++ [p]). split; [exact Hh'|].
    destruct (new_pair_key _ _ _ Hp) as [<- <-].
    apply grouped_add; [apply Hh | assumption | exact G].
  - destruct Hrun as [Hpre Hp]. split; [exact Hpre|]. apply (new_pair_raises _ _ _ Hp).
  - exact Hrun.
Qed.

Lemma small_grouped : grouped small_dict small_pairs.
Proof.
  intros k. unfold small_dict, small_pairs, project.
  rewrite !own_vals_cons. cbn [List.filter key_dec].
  destruct (decide (str "a" = k)) as [<-|Ha].
  - reflexivity.
  - rewrite (bool_decide_eq_false_2 _ Ha).
    destruct (decide (str "c" = k)) as [<-|Hc]; [reflexivity|].
    rewrite (bool_decide_eq_false_2 _ Hc). reflexivity.
Qed.

Lemma plus_keeps_projection_witness :
  (holds small_store 2 small_dict small_pairs /\ grouped small_dict small_pairs /\
   (parsed []).2 = None /\ own_vals small_dict (str "hasOwnProperty") = None /\
   str "a" <> str "__proto__") /\
  ends small_store (fun q' h' => exists D' al', holds h' q' D' al' /\ grouped D' al')
    (fun e => e = URIError)
    (plus [] 2 (str "a") (Str (str "x")) small_store).
Proof.
  split.
  { split; [exact small_store_holds|]. split; [exact small_grouped|].
    repeat (split; [reflexivity|]). discriminate. }
  apply (plus_keeps_projection [] small_store 2 small_dict small_pairs (str "a")
           (Str (str "x")));
    first [exact small_store_holds | exact small_grouped | reflexivity | discriminate].
Defined.

Lemma minus_alist_key al k :
  minus_alist al k None = List.filter (fun p => negb (bool_decide (key_dec p = k))) al.
Proof.
  unfold minus_alist, matches. apply List.filter_ext. intros p.
  rewrite andb_true_r. reflexivity.
Qed.

Lemma minus_alist_pair al k v :
  minus_alist al k (Some v)
  = List.filter (fun p => negb (bool_decide (key_dec p = k) && bool_decide (val_dec p = v))) al.
Proof.
  unfold minus_alist, matches. apply List.filter_ext. intros p.
  f_equal. f_equal. simpl. apply bool_decide_ext. split; congruence.
Qed.

Lemma minus_dict_shadow D k v :
  own_vals D (str "hasOwnProperty") = None ->
  own_vals (minus_dict D k v) (str "hasOwnProperty") = None.
Proof.
  rewrite !own_vals_None. intros Hsh Hx. apply Hsh. eapply map_dict_keys, Hx.
Qed.

(** X8: [minus(k)], with one argument, removes the key [k]: the result has
    no value for [k], the values of every other key are those of the
    receiver, and it serializes as the pairs of the receiver whose decoded
    key is not [k]. *)
Theorem minus_key_values location_search h q D al k key :
  holds h q D al -> (parsed location_search).2 = None ->
  own_vals D (str "hasOwnProperty") = None ->
  result ((q' ← minus location_search q k None; values_of q' key) h)
  = Some (inr (if decide (key = k) then [] else default [] (own_vals D key))) /\
  result ((q' ← minus location_search q k None; value q' k) h) = Some (inr None) /\
  result ((q' ← minus location_search q k None; toString q') h)
  = Some (inr (render (List.filter (fun p => negb (bool_decide (key_dec p = k))) al))).
Proof.
  intros Hh Hls Hsh.
  destruct (minus_then _ _ _ _ _ k None Hh Hls Hsh) as (q' & h' & Hrun & _ & Hh').
  destruct Hh as (_ & _ & Hnd & _).
  rewrite !bind_run, Hrun.
  rewrite (values_of_holds h' q' _ _ key Hh'), (value_holds h' q' _ _ k Hh').
  rewrite (toString_holds _ _ _ _ Hh'), minus_dict_shadow by exact Hsh.
  unfold minus_dict. rewrite !map_dict_own by exact Hnd. unfold minus_answer.
  split; [|split].
  - destruct (own_vals D key) as [vs|]; simpl.
    + destruct (decide (key = k)); reflexivity.
    + destruct (decide (key = k)); reflexivity.
  - destruct (own_vals D k) as [vs|]; simpl; [|reflexivity].
    destruct (decide (k = k)); [reflexivity | congruence].
  - rewrite <- minus_alist_key. reflexivity.
Qed.

Lemma minus_key_values_witness :
  (holds small_store 2 small_dict small_pairs /\
   (parsed []).2 = None /\ own_vals small_dict (str "hasOwnProperty") = None) /\
  result ((q' ← minus [] 2 (str "a") None; values_of q' (str "c")) small_store)
  = Some (inr (if decide (str "c" = str "a") then []
               else default [] (own_vals small_dict (str "c")))) /\
  result ((q' ← minus [] 2 (str "a") None; value q' (str "a")) small_store)
  = Some (inr None) /\
  result ((q' ← minus [] 2 (str "a") None; toString q') small_store)
  = Some (inr (render (List.filter (fun p => negb (bool_decide (key_dec p = str "a")))
                         small_pairs))).
Proof.
  split.
  { split; [exact small_store_holds|]. split; reflexivity. }
  apply (minus_key_values [] small_store 2 small_dict small_pairs (str "a") (str "c"));
    first [exact small_store_holds | reflexivity].
Defined.

Lemma project_filter_key al k key :
  project (List.filter (fun p => negb (bool_decide (key_dec p = k))) al) key
  = if decide (key = k) then [] else project al key.
Proof.
  unfold project. induction al as [|p al IH]; [destruct (decide _); reflexivity|].
  cbn [List.filter]. destruct (decide (key_dec p = k)) as [Hk|Hk].
  - rewrite (bool_decide_eq_true_2 _ Hk). cbn [negb]. rewrite IH.
    destruct (decide (key = k)) as [->|Hne]; [reflexivity|].
    rewrite bool_decide_eq_false_2 by congruence. reflexivity.
  - rewrite (bool_decide_eq_false_2 _ Hk). cbn [negb List.filter].
    destruct (decide (key_dec p = key)) as [Hkey|Hkey].
    + rewrite (bool_decide_eq_true_2 _ Hkey), !fmap_cons, IH.
      destruct (decide (key = k)); [congruence | reflexivity].
    + rewrite (bool_decide_eq_false_2 _ Hkey). exact IH.
Qed.

(** X9: [minus(k)], with one argument, keeps the dictionary the projection
    of the pairs, and throws nothing. *)
Theorem minus_key_keeps_projection location_search h q D al k :
  holds h q D al -> grouped D al -> (parsed location_search).2 = None ->
  own_vals D (str "hasOwnProperty") = None ->
  ends h (fun q' h' => exists D' al', holds h' q' D' al' /\ grouped D' al')
    (fun _ => False)
    (minus location_search q k None h).
Proof.
  intros Hh G Hls Hsh.
  destruct (parsed location_search) as [st o] eqn:E. simpl in Hls. subst o.
  pose proof (minus_run location_search h q D al k None st Hh E Hsh) as Hrun.
  destruct (minus location_search q k None h) as [q' h'|e h'|]; simpl in *;
    [|exact Hrun..].
  destruct Hrun as (Hpre & Hh'). split; [exact Hpre|].
  exists (minus_dict D k None), (minus_alist al k None). split; [exact Hh'|].
  intros key. unfold minus_dict. rewrite map_dict_own by apply Hh.
  rewrite minus_alist_key, project_filter_key, (G key). unfold minus_answer.
  destruct (decide (key = k)) as [->|Hne].
  - destruct (decide (project al k = [])); simpl.
    + destruct (decide (@nil val = [])); [reflexivity | congruence].
    + destruct (decide (k = k)); [|congruence].
      destruct (decide (@nil val = [])); [reflexivity | congruence].
  - destruct (decide (project al key = [])); simpl; [reflexivity|].
    destruct (decide (key = k)); [congruence | reflexivity].
Qed.

Lemma minus_key_keeps_projection_witness :
  (holds small_store 2 small_dict small_pairs /\ grouped small_dict small_pairs /\
   (parsed []).2 = None /\ own_vals small_dict (str "hasOwnProperty") = None) /\
  ends small_store (fun q' h' => exists D' al', holds h' q' D' al' /\ grouped D' al')
    (fun _ => False)
    (minus [] 2 (str "a") None small_store).
Proof.
  split.
  { split; [exact small_store_holds|]. split; [exact small_grouped|]. split; reflexivity. }
  apply (minus_key_keeps_projection [] small_store 2 small_dict small_pairs (str "a"));
    first [exact small_store_holds | exact small_grouped | reflexivity].
Defined.

(** X10: [minus(k, v)], with two arguments, serializes as the pairs of the
    receiver that do not have both the decoded key [k] and the decoded value
    [v], and its values for [k] are those of the receiver other than [v]. *)
Theorem minus_pair_pairs location_search h q D al k v :
  holds h q D al -> (parsed location_search).2 = None ->
  own_vals D (str "hasOwnProperty") = None ->
  result ((q' ← minus location_search q k (Some v); toString q') h)
  = Some (inr (render (List.filter
       (fun p => negb (bool_decide (key_dec p = k) && bool_decide (val_dec p = v))) al))) /\
  result ((q' ← minus location_search q k (Some v); values_of q' k) h)
  = Some (inr (List.filter (fun el => bool_decide (el ≠ v))
                 (default [] (own_vals D k)))).
Proof.
  intros Hh Hls Hsh.
  destruct (minus_then _ _ _ _ _ k (Some v) Hh Hls Hsh) as (q' & h' & Hrun & _ & Hh').
  destruct Hh as (_ & _ & Hnd & _).
  rewrite !bind_run, Hrun.
  rewrite (values_of_holds h' q' _ _ k Hh').
  rewrite (toString_holds _ _ _ _ Hh'), minus_dict_shadow by exact Hsh.
  unfold minus_dict. rewrite !map_dict_own by exact Hnd. unfold minus_answer.
  split.
  - rewrite <- minus_alist_pair. reflexivity.
  - destruct (own_vals D k) as [vs|]; simpl; [|reflexivity].
    destruct (decide _) as [E|E]; [|reflexivity].
    apply length_zero_iff_nil in E. rewrite E. reflexivity.
Qed.

Lemma minus_pair_pairs_witness :
  (holds small_store 2 small_dict small_pairs /\
   (parsed []).2 = None /\ own_vals small_dict (str "hasOwnProperty") = None) /\
  result ((q' ← minus [] 2 (str "a") (Some (Str (str "b"))); toString q') small_store)
  = Some (inr (render (List.filter
       (fun p => negb (bool_decide (key_dec p = str "a")
                       && bool_decide (val_dec p = Str (str "b")))) small_pairs))) /\
  result ((q' ← minus [] 2 (str "a") (Some (Str (str "b"))); values_of q' (str "a"))
            small_store)
  = Some (inr (List.filter (fun el => bool_decide (el ≠ Str (str "b")))
                 (default [] (own_vals small_dict (str "a"))))).
Proof.
  split.
  { split; [exact small_store_holds|]. split; reflexivity. }
  apply (minus_pair_pairs [] small_store 2 small_dict small_pairs (str "a")
           (Str (str "b")));
    first [exact small_store_holds | reflexivity].
Defined.

Lemma ends_bind {A B} h (m : M A) (f : A -> M B) good good' bad :
  ends h good bad (m h) ->
  (forall a h', h `prefix_of` h' -> good a h' -> ends h' good' bad (f a h')) ->
  ends h good' bad ((m ≫= f) h).
Proof.
  intros Hm Hf. rewrite bind_run. destruct (m h) as [a h'|e h'|]; simpl in *.
  - destruct Hm as [Hpre Hg]. specialize (Hf a h' Hpre Hg).
    destruct (f a h') as [b h''|e h''|]; simpl in *.
    + destruct Hf as [Hpre' Hg']. split; [etrans; eassumption | exact Hg'].
    + destruct Hf as [Hpre' Hb]. split; [etrans; eassumption | exact Hb].
    + exact Hf.
  - exact Hm.
  - exact Hm.
Qed.

Lemma map_dict_app g D D' : map_dict g (D ++ D') = map_dict g D ++ map_dict g D'.
Proof.
  induction D as [|[k vs] D IH]; [reflexivity|].
  rewrite <- app_comm_cons, !map_dict_cons, IH. destruct (g k vs); reflexivity.
Qed.

Lemma drop_absent D k : k ∉ D.*1 -> minus_dict D k None = D.
Proof.
  unfold minus_dict. induction D as [|[k' vs] D IH]; [reflexivity|].
  rewrite fmap_cons, not_elem_of_cons. cbn [fst]. intros [Hne Hk].
  rewrite map_dict_cons, IH by assumption. unfold minus_answer.
  destruct (decide (k' = k)); [congruence | reflexivity].
Qed.

Lemma filter_all {X} (f : X -> bool) xs :
  Forall (fun x => f x = true) xs -> List.filter f xs = xs.
Proof.
  induction 1 as [|x xs Hx _ IH]; [reflexivity|]. simpl. rewrite Hx, IH. reflexivity.
Qed.

(** X11: removing a key that was just added gives the receiver back: when
    no pair of [q] has the decoded key [k], [q.plus(k, v).minus(k)] has the
    dictionary and the pairs of [q]. *)
Theorem plus_minus_cancel location_search h q D al k v p :
  holds h q D al -> (parsed location_search).2 = None ->
  own_vals D (str "hasOwnProperty") = None -> new_pair k v = Ok p ->
  k ∉ D.*1 -> Forall (fun p => key_dec p <> k) al -> k <> str "hasOwnProperty" ->
  ends h (fun q'' h'' => holds h'' q'' D al) (fun _ => False)
    ((q' ← plus location_search q k v; minus location_search q' k None) h).
Proof.
  intros Hh Hls Hsh Hp HkD Hkal Hks.
  destruct (parsed location_search) as [st o] eqn:E. simpl in Hls. subst o.
  pose proof (plus_run location_search h q D al k v st Hh E Hsh) as Hrun.
  eapply ends_bind with
    (good := fun q' h' => holds h' q' (add_key D k v) (al ++ [p])).
  - destruct (plus location_search q k v h) as [q' h'|e h'|]; simpl in *.
    + destruct Hrun as (Hpre & p' & Hp' & Hh' & _). split; [exact Hpre|]. congruence.
    + destruct Hrun as [_ Hp']. congruence.
    + exact Hrun.
  - intros q' h' _ Hh'.
    pose proof (minus_run location_search h' q' _ _ k None st Hh' E) as Hrun'.
    assert (Hsh' : own_vals (add_key D k v) (str "hasOwnProperty") = None).
    { apply add_key_shadow; [apply Hh | exact Hsh | exact Hks]. }
    specialize (Hrun' Hsh').
    assert (HD : minus_dict (add_key D k v) k None = D).
    { unfold add_key. rewrite (proj2 (push_key_None D k v) HkD).
      destruct (decide _); [apply drop_absent, HkD|].
      unfold minus_dict. rewrite map_dict_app. fold (minus_dict D k None).
      rewrite (drop_absent D k HkD), map_dict_cons. unfold minus_answer.
      destruct (decide (k = k)); [|congruence]. apply app_nil_r. }
    assert (Hal : minus_alist (al ++ [p]) k None = al).
    { rewrite minus_alist_key, List.filter_app. simpl.
      destruct (new_pair_key _ _ _ Hp) as [Hkp _].
      rewrite (bool_decide_eq_true_2 _ Hkp). simpl. rewrite app_nil_r.
      apply filter_all. eapply Forall_impl; [exact Hkal|]. intros x Hx. simpl in Hx.
      rewrite bool_decide_eq_false_2 by exact Hx. reflexivity. }
    rewrite HD, Hal in Hrun'. exact Hrun'.
Qed.

Lemma plus_minus_cancel_witness :
  (holds small_store 2 small_dict small_pairs /\
   (parsed []).2 = None /\ own_vals small_dict (str "hasOwnProperty") = None /\
   new_pair (str "k") Null = Ok (Pair (str "k") (str "k") (Str (str "null")) Null) /\
   (str "k" ∉ small_dict.*1) /\ Forall (fun p => key_dec p <> str "k") small_pairs /\
   str "k" <> str "hasOwnProperty") /\
  ends small_store (fun q'' h'' => holds h'' q'' small_dict small_pairs) (fun _ => False)
    ((q' ← plus [] 2 (str "k") Null; minus [] q' (str "k") None) small_store).
Proof.
  assert (H1 : str "k" ∉ small_dict.*1) by not_member.
  assert (H2 : Forall (fun p => key_dec p <> str "k") small_pairs)
    by (repeat constructor; discriminate).
  split.
  { split; [exact small_store_holds|]. repeat (split; [reflexivity|]).
    split; [exact H1|]. split; [exact H2 | discriminate]. }
  apply (plus_minus_cancel [] small_store 2 small_dict small_pairs (str "k") Null
           (Pair (str "k") (str "k") (Str (str "null")) Null));
    first [exact small_store_holds | exact H1 | exact H2 | reflexivity | discriminate].
Defined.

(** X12: [plus] and [minus] begin with [new QueryString()], which parses
    [location.search]: when the constructor throws on that text, so do they,
    whatever the receiver and the arguments. *)
Theorem builders_need_location location_search h q k v ov st e :
  parsed location_search = (st, Some e) ->
  result (plus location_search q k v h) = Some (inl e) /\
  result (minus location_search q k ov h) = Some (inl e).
Proof.
  intros E. unfold plus, minus.
  rewrite !bind_run, !QueryString_run. simpl source. rewrite E. split; reflexivity.
Qed.

Lemma builders_need_location_witness :
  parsed (str "?%zz=1") = (([], []), Some URIError) /\
  result (plus (str "?%zz=1") 2 (str "k") (Str (str "v")) small_store)
  = Some (inl URIError) /\
  result (minus (str "?%zz=1") 2 (str "k") None small_store) = Some (inl URIError).
Proof.
  split; [reflexivity|].
  apply (builders_need_location (str "?%zz=1") small_store 2 (str "k") (Str (str "v"))
           None ([], []) URIError).
  reflexivity.
Defined.

Lemma shadow_throws location_search h q D al vs st :
  holds h q D al -> own_vals D (str "hasOwnProperty") = Some vs ->
  parsed location_search = (st, None) ->
  (forall key, result (value q key h) = Some (inl TypeError)) /\
  (forall key, result (values_of q key h) = Some (inl TypeError)) /\
  result (keys q h) = Some (inl TypeError) /\
  (forall k v, result (plus location_search q k v h) = Some (inl TypeError)) /\
  (forall k ov, result (minus location_search q k ov h) = Some (inl TypeError)).
Proof.
  intros Hh Hsh Hls.
  split; [intros key; rewrite (value_holds _ _ _ _ key Hh), Hsh; reflexivity|].
  split; [intros key; rewrite (values_of_holds _ _ _ _ key Hh), Hsh; reflexivity|].
  split; [rewrite (keys_holds _ _ _ _ Hh), Hsh; reflexivity|].
  destruct (holds_inv _ _ _ _ Hh) as (d & a & ps & Hq & Hd & Ha & Hps & Hnd & Hp).
  pose proof (own_content h ps D (str "hasOwnProperty") Hps) as Hshp.
  rewrite Hsh in Hshp.
  destruct (own ps (str "hasOwnProperty")) as [l0|] eqn:Hsh'; [|discriminate Hshp].
  destruct st as [D0 al0].
  set (H1 := h ++ layout (length h) D0 al0).
  assert (Hq1 : H1 !! q = Some (QS d a)) by apply lookup_app_l_Some, Hq.
  assert (Hd1 : H1 !! d = Some (Obj ps)) by apply lookup_app_l_Some, Hd.
  split.
  - intros k v. unfold plus. rewrite bind_run, QueryString_run. simpl source.
    rewrite Hls. simpl fst; simpl snd. fold H1.
    rewrite (bind_ret _ _ _ _ _ (get_dict_run _ _ _ _ Hq1)).
    rewrite bind_run, (hasOwnProperty_run _ _ _ k Hd1), Hsh'. reflexivity.
  - intros k ov. unfold minus. rewrite bind_run, QueryString_run. simpl source.
    rewrite Hls. simpl fst; simpl snd. fold H1.
    rewrite (bind_ret _ _ _ _ _ (get_dict_run _ _ _ _ Hq1)).
    assert (Hps1 : Forall (fun kv => is_arr H1 kv.2) ps).
    { apply Forall_forall. intros kv Hkv.
      apply list_elem_of_lookup in Hkv as [i Hi].
      destruct (Forall2_lookup_l _ _ _ _ _ Hps Hi) as (e & _ & He).
      apply values_at_Some in He as [_ He]. eexists. apply lookup_app_l_Some, He. }
    pose proof (mapDict_run _ H1 d ps (callback_minus k ov) Hd1 Hps1) as Hmd.
    rewrite Hsh' in Hmd. rewrite bind_run, Hmd. reflexivity.
Qed.

(** X13: a dictionary with an own key [hasOwnProperty] disables the
    instance.  [plus("hasOwnProperty", v)] returns an instance on which
    [value], [values], [keys], [plus] and [minus] all throw a TypeError:
    they call [this.dict.hasOwnProperty], which is then an array. *)
Theorem shadowed_dictionary location_search h q D al v ve key k2 v2 ov :
  holds h q D al -> (parsed location_search).2 = None ->
  own_vals D (str "hasOwnProperty") = None -> encode (ToString v) = Ok ve ->
  let shadowed := plus location_search q (str "hasOwnProperty") v in
  result ((q' ← shadowed; value q' key) h) = Some (inl TypeError) /\
  result ((q' ← shadowed; values_of q' key) h) = Some (inl TypeError) /\
  result ((q' ← shadowed; keys q') h) = Some (inl TypeError) /\
  result ((q' ← shadowed; plus location_search q' k2 v2) h) = Some (inl TypeError) /\
  result ((q' ← shadowed; minus location_search q' k2 ov) h) = Some (inl TypeError).
Proof.
  intros Hh Hls Hsh Hve shadowed. unfold shadowed.
  assert (Hp : new_pair (str "hasOwnProperty") v
               = Ok (Pair (str "hasOwnProperty") (str "hasOwnProperty") (Str ve) v)).
  { unfold new_pair. rewrite Hve. reflexivity. }
  destruct (plus_then _ _ _ _ _ _ _ _ Hh Hls Hsh Hp) as (q' & h' & Hrun & _ & Hh' & _).
  destruct (parsed location_search) as [st o] eqn:E. simpl in Hls. subst o.
  assert (Hsh' : own_vals (add_key D (str "hasOwnProperty") v) (str "hasOwnProperty")
                 = Some (default [] (own_vals D (str "hasOwnProperty")) ++ [v])).
  { rewrite add_key_own; [|apply Hh | discriminate].
    destruct (decide _); [reflexivity | congruence]. }
  destruct (shadow_throws location_search h' q' _ _ _ st Hh' Hsh' E)
    as (H1 & H2 & H3 & H4 & H5).
  rewrite !bind_run, Hrun. auto.
Qed.

Lemma shadowed_dictionary_witness :
  (holds small_store 2 small_dict small_pairs /\
   (parsed []).2 = None /\ own_vals small_dict (str "hasOwnProperty") = None /\
   encode (ToString (Str (str "v"))) = Ok (str "v")) /\
  let shadowed := plus [] 2 (str "hasOwnProperty") (Str (str "v")) in
  result ((q' ← shadowed; value q' (str "a")) small_store) = Some (inl TypeError) /\
  result ((q' ← shadowed; values_of q' (str "a")) small_store) = Some (inl TypeError) /\
  result ((q' ← shadowed; keys q') small_store) = Some (inl TypeError) /\
  result ((q' ← shadowed; plus [] q' (str "k") Null) small_store) = Some (inl TypeError) /\
  result ((q' ← shadowed; minus [] q' (str "k") None) small_store) = Some (inl TypeError).
Proof.
  split.
  { split; [exact small_store_holds|]. repeat split; reflexivity. }
  apply (shadowed_dictionary [] small_store 2 small_dict small_pairs (Str (str "v"))
           (str "v") (str "a") (str "k") Null None);
    first [exact small_store_holds | reflexivity].
Defined.

(** X14: the key [__proto__] is never entered in the dictionary.
    [plus("__proto__", v)] adds the pair, which [toString] then writes, but
    the assignment [retQS.dict[k] = [v]] creates no own property, so
    [value("__proto__")] of the result is [undefined]. *)
Theorem proto_key_not_stored location_search h q D al v p :
  holds h q D al -> (parsed location_search).2 = None ->
  own_vals D (str "hasOwnProperty") = None -> new_pair (str "__proto__") v = Ok p ->
  result ((q' ← plus location_search q (str "__proto__") v; value q' (str "__proto__")) h)
  = Some (inr None) /\
  result ((q' ← plus location_search q (str "__proto__") v; toString q') h)
  = Some (inr (render (al ++ [p]))).
Proof.
  intros Hh Hls Hsh Hp.
  destruct (plus_then _ _ _ _ _ _ _ _ Hh Hls Hsh Hp) as (q' & h' & Hrun & _ & Hh' & _).
  destruct Hh as (_ & _ & Hnd & HpD).
  rewrite !bind_run, Hrun.
  rewrite (value_holds h' q' _ _ _ Hh'), (toString_holds _ _ _ _ Hh').
  assert (E : add_key D (str "__proto__") v = D).
  { unfold add_key. rewrite (proj2 (push_key_None D _ v) HpD).
    destruct (decide _); [reflexivity | congruence]. }
  rewrite E, Hsh, (proj2 (own_vals_None D _) HpD). split; reflexivity.
Qed.

Lemma proto_key_not_stored_witness :
  (holds small_store 2 small_dict small_pairs /\
   (parsed []).2 = None /\ own_vals small_dict (str "hasOwnProperty") = None /\
   new_pair (str "__proto__") (Str (str "v"))
   = Ok (Pair (str "__proto__") (str "__proto__") (Str (str "v")) (Str (str "v")))) /\
  result ((q' ← plus [] 2 (str "__proto__") (Str (str "v")); value q' (str "__proto__"))
            small_store)
  = Some (inr None) /\
  result ((q' ← plus [] 2 (str "__proto__") (Str (str "v")); toString q') small_store)
  = Some (inr (render (small_pairs
        ++ [Pair (str "__proto__") (str "__proto__") (Str (str "v")) (Str (str "v"))]))).
Proof.
  split.
  { split; [exact small_store_holds|]. repeat split; reflexivity. }
  apply (proto_key_not_stored [] small_store 2 small_dict small_pairs (Str (str "v")));
    first [exact small_store_holds | reflexivity].
Defined.

Lemma values_run h q d a ps key l :
  h !! q = Some (QS d a) -> h !! d = Some (Obj ps) ->
  own ps (str "hasOwnProperty") = None -> own ps key = Some l ->
  values q key h = Ret l h.
Proof.
  intros Hq Hd Hsh Hown. unfold values.
  rewrite (bind_ret _ _ _ _ _ (get_dict_run _ _ _ _ Hq)).
  rewrite bind_run, (hasOwnProperty_run _ _ _ key Hd), Hsh, Hown.
  rewrite bool_decide_eq_true_2 by eauto.
  rewrite (bind_ret _ _ _ _ _ (props_run _ _ _ Hd)), Hown. reflexivity.
Qed.

(** Reading [key] from [q] once [x] is pushed on the array [l] of that key. *)
Lemma push_then_value h q d a ps key l vs (x : val) :
  h !! q = Some (QS d a) -> h !! d = Some (Obj ps) ->
  own ps (str "hasOwnProperty") = None -> own ps key = Some l ->
  h !! l = Some (ArrV vs) ->
  (push l x;; value q key) h = Ret (Some x) (<[l:=ArrV (vs ++ [x])]> h).
Proof.
  intros Hq Hd Hsh Hown Hl.
  rewrite bind_run, (push_vals _ _ _ x Hl).
  assert (Hlq : l <> q) by (intros ->; rewrite Hq in Hl; discriminate).
  assert (Hld : l <> d) by (intros ->; rewrite Hd in Hl; discriminate).
  rewrite (value_run _ q d a ps key)
    by (rewrite list_lookup_insert_ne by assumption; assumption).
  rewrite Hsh, Hown, list_lookup_insert_eq by (apply lookup_lt_Some in Hl; exact Hl).
  rewrite last_snoc. reflexivity.
Qed.

(** X15: [values(key)] hands out the array of the dictionary itself, not a
    copy: a [push] on the array it returned for a key that is present
    changes what [value(key)] answers afterwards. *)
Theorem values_exposes_array h q D al key vs x :
  holds h q D al -> own_vals D (str "hasOwnProperty") = None ->
  own_vals D key = Some vs ->
  result ((l ← values q key; push l x;; value q key) h) = Some (inr (Some x)) /\
  result (value q key h) = Some (inr (last vs)).
Proof.
  intros Hh Hsh Hk. split; [|rewrite (value_holds _ _ _ _ key Hh), Hsh, Hk; reflexivity].
  destruct (holds_inv _ _ _ _ Hh) as (d & a & ps & Hq & Hd & Ha & Hps & Hnd & Hp).
  pose proof (own_content h ps D (str "hasOwnProperty") Hps) as Hshp.
  rewrite Hsh in Hshp.
  destruct (own ps (str "hasOwnProperty")) eqn:Hsh'; [destruct Hshp as (? & [=] & _)|].
  pose proof (own_content h ps D key Hps) as Hkp. rewrite Hk in Hkp.
  destruct (own ps key) as [l|] eqn:Hown; [|discriminate Hkp].
  destruct Hkp as (vs' & [= <-] & Hl).
  rewrite bind_run, (values_run h q d a ps key l Hq Hd Hsh' Hown).
  rewrite (push_then_value h q d a ps key l vs x Hq Hd Hsh' Hown Hl). reflexivity.
Qed.

Lemma values_exposes_array_witness :
  (holds small_store 2 small_dict small_pairs /\
   own_vals small_dict (str "hasOwnProperty") = None /\
   own_vals small_dict (str "a") = Some [Str (str "b")]) /\
  result ((l ← values 2 (str "a"); push l Null;; value 2 (str "a")) small_store)
  = Some (inr (Some Null)) /\
  result (value 2 (str "a") small_store) = Some (inr (last [Str (str "b")])).
Proof.
  split.
  { split; [exact small_store_holds|]. split; reflexivity. }
  apply (values_exposes_array small_store 2 small_dict small_pairs (str "a")
           [Str (str "b")] Null);
    first [exact small_store_holds | reflexivity].
Defined.

(** X16: [plus] shares the arrays of the other keys with its receiver: a
    [push] on the array that [values(key)] returns from [q.plus(k, v)], for
    a key of [q] other than [k], changes what [q.value(key)] answers. *)
Theorem plus_shares_arrays location_search h q D al k v p key vs x :
  holds h q D al -> (parsed location_search).2 = None ->
  own_vals D (str "hasOwnProperty") = None -> new_pair k v = Ok p ->
  k <> str "hasOwnProperty" -> key <> k -> own_vals D key = Some vs ->
  result ((q' ← plus location_search q k v;
           l ← values q' key;
           push l x;;
           value q key) h)
  = Some (inr (Some x)) /\
  result (value q key h) = Some (inr (last vs)).
Proof.
  intros Hh Hls Hsh Hp Hks Hne Hkey.
  split; [|rewrite (value_holds _ _ _ _ key Hh), Hsh, Hkey; reflexivity].
  destruct (plus_then _ _ _ _ _ _ _ _ Hh Hls Hsh Hp) as (q' & h' & Hrun & Hpre & Hh' & Hloc).
  destruct (holds_inv _ _ _ _ Hh) as (d & a & ps & Hq & Hd & Ha & Hps & Hnd & Hpp).
  destruct (holds_inv _ _ _ _ Hh') as (d' & a' & ps' & Hq' & Hd' & Ha' & Hps' & Hnd' & Hpp').
  pose proof (own_content h ps D (str "hasOwnProperty") Hps) as Hshp.
  rewrite Hsh in Hshp.
  destruct (own ps (str "hasOwnProperty")) eqn:Hsh1; [destruct Hshp as (? & [=] & _)|].
  pose proof (own_content h' ps' _ (str "hasOwnProperty") Hps') as Hshp'.
  rewrite (add_key_shadow D k v (proj1 (proj2 (proj2 Hh))) Hsh Hks) in Hshp'.
  destruct (own ps' (str "hasOwnProperty")) eqn:Hsh2; [destruct Hshp' as (? & [=] & _)|].
  pose proof (own_content h ps D key Hps) as Hkp. rewrite Hkey in Hkp.
  destruct (own ps key) as [l|] eqn:Hown; [|discriminate Hkp].
  destruct Hkp as (vs' & [= <-] & Hl).
  assert (Hown' : own ps' key = Some l).
  { rewrite <- (own_loc_run h' q' d' a' ps' key Hq' Hd'). apply Hloc; [exact Hne|].
    rewrite (own_loc_run h q d a ps key Hq Hd). exact Hown. }
  rewrite bind_run, Hrun.
  rewrite bind_run, (values_run h' q' d' a' ps' key l Hq' Hd' Hsh2 Hown').
  rewrite (push_then_value h' q d a ps key l vs x); [reflexivity|..]; try assumption.
  - eapply prefix_lookup_Some; eassumption.
  - eapply prefix_lookup_Some; eassumption.
  - eapply prefix_lookup_Some; eassumption.
Qed.

Lemma plus_shares_arrays_witness :
  (holds small_store 2 small_dict small_pairs /\
   (parsed []).2 = None /\ own_vals small_dict (str "hasOwnProperty") = None /\
   new_pair (str "k") (Str (str "v"))
   = Ok (Pair (str "k") (str "k") (Str (str "v")) (Str (str "v"))) /\
   str "k" <> str "hasOwnProperty" /\ str "a" <> str "k" /\
   own_vals small_dict (str "a") = Some [Str (str "b")]) /\
  result ((q' ← plus [] 2 (str "k") (Str (str "v"));
           l ← values q' (str "a");
           push l Null;;
           value 2 (str "a")) small_store)
  = Some (inr (Some Null)) /\
  result (value 2 (str "a") small_store) = Some (inr (last [Str (str "b")])).
Proof.
  split.
  { split; [exact small_store_holds|]. repeat (split; [reflexivity|]).
    split; [discriminate|]. split; [discriminate | reflexivity]. }
  apply (plus_shares_arrays [] small_store 2 small_dict small_pairs (str "k")
           (Str (str "v")) (Pair (str "k") (str "k") (Str (str "v")) (Str (str "v")))
           (str "a") [Str (str "b")] Null);
    first [exact small_store_holds | reflexivity | discriminate].
Defined.

(** ** The static helpers *)

(** X17: [QueryString.filter] leaves its argument as it is and returns a
    new array with the elements that the test accepts, in their order. *)
Theorem filter_copies `{Elem A} h arr (fe : A -> bool) xs :
  h !! arr = Some (to_obj xs) ->
  filter arr fe h = Ret (length h) (h ++ [to_obj (List.filter fe xs)]) /\
  (h ++ [to_obj (List.filter fe xs)]) !! arr = Some (to_obj xs).
Proof.
  intros E. split; [|apply lookup_app_l_Some, E].
  unfold filter, array, alloc. rewrite bind_run.
  erewrite bind_ret by (apply elems_run, lookup_app_l_Some, E).
  rewrite bind_run, (filter_loop h fe xs []). reflexivity.
Qed.

Lemma filter_copies_witness :
  small_store !! 3%nat = Some (to_obj [Str (str "b")]) /\
  filter 3 (fun el => bool_decide (el ≠ Null)) small_store
  = Ret (length small_store)
      (small_store ++ [to_obj (List.filter (fun el => bool_decide (el ≠ Null))
                                 [Str (str "b")])]) /\
  (small_store ++ [to_obj (List.filter (fun el => bool_decide (el ≠ Null))
                             [Str (str "b")])]) !! 3%nat
  = Some (to_obj [Str (str "b")]).
Proof.
  split; [reflexivity|].
  apply (filter_copies small_store 3 (fun el => bool_decide (el ≠ Null)) [Str (str "b")]).
  reflexivity.
Defined.

Lemma mapDict_effect_free fkv (g : jsstring -> loc -> option loc) h d ps0 :
  (forall k l h', fkv k l h' = Ret (g k l) h') ->
  h !! d = Some (Obj ps0) -> own ps0 (str "hasOwnProperty") = None ->
  forall rest acc,
    (forall kv, kv ∈ rest -> kv.1 ∈ ps0.*1) ->
    NoDup (acc.*1 ++ rest.*1) -> str "__proto__" ∉ rest.*1 ->
    for_each rest (fun kv =>
      has ← hasOwnProperty d kv.1;
      if negb has then mret tt
      else
        replace ← fkv kv.1 kv.2;
        match replace with
        | Some r => set_prop (length h) kv.1 r
        | None => mret tt
        end) (h ++ [Obj acc])
    = Ret tt (h ++ [Obj (acc ++ omap (fun kv => (fun r => (kv.1, r)) <$> g kv.1 kv.2) rest)]).
Proof.
  intros Hfkv Hd Hsh. induction rest as [|[k l] rest IH]; intros acc Hin Hnd Hproto.
  - simpl. rewrite app_nil_r. reflexivity.
  - rewrite fmap_cons in Hnd, Hproto. cbn [fst] in Hnd, Hproto.
    apply not_elem_of_cons in Hproto as [Hkp Hproto].
    apply NoDup_app in Hnd as (Hnd1 & Hnd2 & Hnd3).
    apply NoDup_cons in Hnd3 as [Hk3 Hnd3].
    assert (Hkacc : k ∉ acc.*1).
    { intros Hx. apply (Hnd2 _ Hx). left. }
    simpl for_each.
    rewrite bind_run. cbn beta. cbn [fst snd].
    rewrite bind_run, (hasOwnProperty_run _ d ps0) by (apply lookup_app_l_Some, Hd).
    rewrite Hsh.
    rewrite bool_decide_eq_true_2; cycle 1.
    { apply own_is_Some. apply (Hin (k, l)). left. }
    cbn [negb]. rewrite bind_run, Hfkv.
    simpl omap. destruct (g k l) as [r|]; simpl.
    + unfold set_prop.
      rewrite (bind_ret _ _ _ _ _ (props_run _ _ acc (list_lookup_middle _ _ _ _ eq_refl))).
      destruct (decide (k = str "__proto__")); [congruence|].
      erewrite put_run by (apply list_lookup_middle; reflexivity).
      rewrite insert_middle, set_own_fresh by assumption.
      rewrite IH.
      * rewrite <- app_assoc. reflexivity.
      * intros kv Hkv. apply Hin. right. exact Hkv.
      * rewrite fmap_app. simpl. rewrite <- app_assoc. simpl.
        apply NoDup_app. split; [exact Hnd1|]. split.
        -- intros x Hx. apply Hnd2 in Hx. exact Hx.
        -- apply NoDup_cons. split; assumption.
      * exact Hproto.
    + apply IH.
      * intros kv Hkv. apply Hin. right. exact Hkv.
      * apply NoDup_app. split; [exact Hnd1|]. split; [|exact Hnd3].
        intros x Hx Hx'. apply (Hnd2 _ Hx). right. exact Hx'.
      * exact Hproto.
Qed.

(** X18: for a callback without effect, [QueryString.mapDict] leaves the
    dictionary [d] as it is and returns a new object that has, in the order
    of [d], the keys of [d] for which the callback answers a value, each
    with that answer; the keys answered [undefined] are left out. *)
Theorem mapDict_maps fkv (g : jsstring -> loc -> option loc) h d ps :
  (forall k l h', fkv k l h' = Ret (g k l) h') ->
  h !! d = Some (Obj ps) -> own ps (str "hasOwnProperty") = None ->
  NoDup ps.*1 -> str "__proto__" ∉ ps.*1 ->
  mapDict d fkv h
  = Ret (length h)
      (h ++ [Obj (omap (fun kv => (fun r => (kv.1, r)) <$> g kv.1 kv.2) ps)]).
Proof.
  intros Hfkv Hd Hsh Hnd Hp. unfold mapDict, alloc. rewrite bind_run.
  erewrite bind_ret by (apply props_run, lookup_app_l_Some, Hd).
  rewrite bind_run, (mapDict_effect_free fkv g h d ps Hfkv Hd Hsh ps []);
    [reflexivity | | assumption..].
  intros kv Hkv. apply list_elem_of_fmap_2, Hkv.
Qed.

Lemma mapDict_maps_witness :
  ((forall k l h', (fun k l => mret (drop_a k l) : M (option nat)) k l h'
                   = Ret (drop_a k l) h') /\
   small_store !! 0%nat = Some (Obj [(str "a", 3%nat); (str "c", 4%nat)]) /\
   own [(str "a", 3%nat); (str "c", 4%nat)] (str "hasOwnProperty") = None /\
   NoDup [(str "a", 3%nat); (str "c", 4%nat)].*1 /\
   (str "__proto__" ∉ [(str "a", 3%nat); (str "c", 4%nat)].*1)) /\
  mapDict 0 (fun k l => mret (drop_a k l)) small_store
  = Ret (length small_store)
      (small_store ++ [Obj (omap (fun kv => (fun r => (kv.1, r)) <$> drop_a kv.1 kv.2)
                              [(str "a", 3%nat); (str "c", 4%nat)])]).
Proof.
  assert (H1 : NoDup [(str "a", 3%nat); (str "c", 4%nat)].*1).
  { apply NoDup_cons. split; [not_member|]. apply NoDup_singleton. }
  assert (H2 : str "__proto__" ∉ [(str "a", 3%nat); (str "c", 4%nat)].*1) by not_member.
  split.
  { split; [reflexivity|]. split; [reflexivity|]. split; [reflexivity|].
    split; [exact H1 | exact H2]. }
  apply (mapDict_maps (fun k l => mret (drop_a k l)) drop_a
           small_store 0 [(str "a", 3%nat); (str "c", 4%nat)]);
    first [exact H1 | exact H2 | reflexivity].
Defined.

(** ** Parsing what was built *)

Lemma stored_tok p p' :
  stored p -> stored p' -> tok_of p' = tok_of p -> p' = p.
Proof.
  intros (_ & Hk & Hv) (_ & Hk' & Hv') Ht.
  destruct p as [ke kd ve vd], p' as [ke' kd' ve' vd']. unfold tok_of in Ht.
  cbn [key_enc key_dec val_enc val_dec] in *.
  injection Ht as -> Hve.
  assert (ve' = ve) as ->.
  { destruct ve, ve'; try discriminate; [reflexivity | congruence]. }
  rewrite Hk in Hk'. injection Hk' as ->. rewrite Hv, Hv'. reflexivity.
Qed.

Lemma key_error_stored p :
  stored p -> key_dec p ∉ Object_prototype -> key_error (tok_of p) = None.
Proof.
  intros (_ & Hk & _) Hop. unfold key_error, tok_of. cbn [fst].
  rewrite Hk. rewrite bool_decide_eq_false_2 by exact Hop. reflexivity.
Qed.

(** The loop of the constructor over the tokens of stored pairs gives the
    pairs back. *)
Lemma build_stored al' : forall st,
  parsed_inv st -> Forall stored al' ->
  Forall (fun p => key_dec p ∉ Object_prototype) al' ->
  exists D', build st (tok_of <$> al') = ((D', st.2 ++ al'), None)
             /\ parsed_inv (D', st.2 ++ al').
Proof.
  induction al' as [|p al' IH]; intros [D al] Hinv Hst Hop.
  - exists D. cbn [fst snd fmap list_fmap build]. rewrite app_nil_r. auto.
  - inversion Hst as [|? ? Hp Hst']; subst. inversion Hop as [|? ? Hk Hop']; subst.
    rewrite fmap_cons. cbn [build].
    pose proof (add_pure_error D al (tok_of p) (proj1 (proj2 Hinv))) as Herr.
    rewrite (key_error_stored p Hp Hk) in Herr. destruct Herr as [st' Hrun].
    rewrite Hrun.
    assert (Hwf : wf_tok (tok_of p)) by apply Hp.
    pose proof (add_pure_inv _ _ _ Hrun Hwf Hinv) as Hinv'.
    destruct (add_pure_Ok D al (tok_of p) st' Hrun (proj1 (proj2 Hinv)))
      as (p' & Htok & Hk' & Hv' & _ & ->).
    assert (Hp' : stored p').
    { split; [rewrite Htok; exact Hwf|]. split; assumption. }
    rewrite (stored_tok p p' Hp Hp' Htok) in *.
    destruct (IH _ Hinv' Hst' Hop') as (D' & Hb & Hinv'').
    cbn [fst snd] in *. rewrite <- app_assoc in Hb, Hinv''. eauto.
Qed.

Lemma parsed_stored al :
  Forall stored al -> Forall (fun p => key_dec p ∉ Object_prototype) al ->
  exists D, parsed (render al) = ((D, al), None) /\ parsed_inv (D, al).
Proof.
  intros Hst Hop. unfold parsed. rewrite strip_render, exec_join.
  - apply (build_stored al ([], [])); try assumption.
    split; [constructor|]. split; [intros k Hk; inversion Hk|].
    split; [apply grouped_nil | constructor].
  - apply Forall_fmap. eapply Forall_impl; [exact Hst|]. intros p Hp. apply Hp.
Qed.

Lemma new_pair_stored k s p :
  new_pair k (Str s) = Ok p -> k <> [] -> code_units k -> Forall bmp s -> stored p.
Proof.
  intros (ke & ve & Hke & Hve & ->)%new_pair_Ok Hne Hk Hs.
  cbn [ToString] in Hve.
  destruct (encode_token k ke Hk Hke) as [Hkt Hkn].
  assert (Hsu : code_units s) by (apply bmp_range, Hs).
  destruct (encode_token s ve Hsu Hve) as [Hvt _].
  split; [|split].
  - unfold tok_of, wf_tok. cbn [key_enc val_enc fst snd].
    split; [apply Hkn, Hne|]. split; [exact Hkt|].
    eapply Forall_impl; [exact Hvt|]. intros c. apply not_eq_amp_not_amp.
  - cbn [key_enc key_dec].
    destruct (encode_points k ke Hk Hke) as (ps & Hps & -> & Hsc).
    rewrite (decode_key_points ps Hsc).
    rewrite (units_points (length k) k ps (le_n _) Hk Hps). reflexivity.
  - cbn [val_enc val_dec]. rewrite (encode_bmp s Hs) in Hve. injection Hve as <-.
    rewrite (decode_pieces s Hsu). reflexivity.
Qed.

(** X25: what [plus] builds, the constructor reads back.  When the pairs
    of [q] are stored as parsed, with no key that names a property of
    [Object.prototype], then for a key [k] that is not empty and names no
    such property either, and a value [s] without surrogates, the text
    that [q.plus(k, s).toString()] writes is parsed by the constructor to
    the pairs of [q] followed by the pair that [plus] added, decoded forms
    included. *)
Theorem plus_parse_roundtrip location_search h q D al k s p :
  holds h q D al -> own_vals D (str "hasOwnProperty") = None ->
  Forall stored al -> Forall (fun p => key_dec p ∉ Object_prototype) al ->
  (parsed location_search).2 = None -> new_pair k (Str s) = Ok p ->
  k <> [] -> code_units k -> k ∉ Object_prototype -> Forall bmp s ->
  ends h (fun q'' h'' => alist_of h'' q'' = Some (al ++ [p])) (fun _ => False)
    ((q' ← plus location_search q k (Str s);
      t ← toString q';
      QueryString location_search (Some t)) h).
Proof.
  intros Hh Hsh Hst Hop Hls Hp Hne Hk Hkop Hs.
  destruct (plus_then _ _ _ _ _ _ _ _ Hh Hls Hsh Hp) as (q' & h' & Hrun & Hpre & Hh' & _).
  rewrite bind_run, Hrun, bind_run, (toString_holds _ _ _ _ Hh').
  destruct (parsed_stored (al ++ [p])) as (D' & Hparsed & _).
  - apply Forall_app. split; [exact Hst|]. constructor; [|constructor].
    eapply new_pair_stored; eassumption.
  - apply Forall_app. split; [exact Hop|]. constructor; [|constructor].
    destruct (new_pair_key _ _ _ Hp) as [-> _]. exact Hkop.
  - rewrite QueryString_run. cbn [source]. rewrite Hparsed. cbn [fst snd ends].
    split; [etrans; [exact Hpre | apply prefix_app_r; reflexivity]|].
    apply alist_of_layout.
Qed.

Lemma small_pairs_stored : Forall stored small_pairs.
Proof.
  repeat constructor; try discriminate; reflexivity.
Qed.

Lemma plus_parse_roundtrip_witness :
  (holds small_store 2 small_dict small_pairs /\
   own_vals small_dict (str "hasOwnProperty") = None /\
   Forall stored small_pairs /\
   Forall (fun p => key_dec p ∉ Object_prototype) small_pairs /\
   (parsed []).2 = None /\
   new_pair (str "k y") (Str [233%Z])
   = Ok (Pair (str "k+y") (str "k y") (Str (str "%C3%A9")) (Str [233%Z])) /\
   str "k y" <> [] /\ code_units (str "k y") /\ (str "k y" ∉ Object_prototype) /\
   Forall bmp [233%Z]) /\
  ends small_store
    (fun q'' h'' =>
       alist_of h'' q''
       = Some (small_pairs
               ++ [Pair (str "k+y") (str "k y") (Str (str "%C3%A9")) (Str [233%Z])]))
    (fun _ => False)
    ((q' ← plus [] 2 (str "k y") (Str [233%Z]);
      t ← toString q';
      QueryString [] (Some t)) small_store).
Proof.
  assert (H1 : Forall (fun p => key_dec p ∉ Object_prototype) small_pairs).
  { repeat constructor; not_member. }
  assert (H2 : code_units (str "k y")) by (repeat constructor; vm_compute; congruence).
  assert (H3 : str "k y" ∉ Object_prototype) by not_member.
  assert (H4 : Forall bmp [233%Z]) by (repeat constructor; lia).
  split.
  { split; [exact small_store_holds|]. split; [reflexivity|].
    split; [exact small_pairs_stored|]. split; [exact H1|].
    split; [reflexivity|]. split; [reflexivity|]. split; [discriminate|].
    split; [exact H2|]. split; [exact H3 | exact H4]. }
  apply (plus_parse_roundtrip [] small_store 2 small_dict small_pairs (str "k y") [233%Z]
           (Pair (str "k+y") (str "k y") (Str (str "%C3%A9")) (Str [233%Z])));
    first [exact small_store_holds | exact small_pairs_stored | exact H1 | exact H2
          | exact H3 | exact H4 | reflexivity | discriminate].
Defined.

(** ** The tokenizer *)

(** X26: the tokenizer splits the text at each [&] and each segment at its
    first [=]: for keys that are not empty and hold neither [=] nor [&],
    and values without [&], the text made of the tokens [key] or
    [key=value] joined by [&], after a [?], is matched as exactly these
    tokens, in order. *)
Theorem tokens_of_join toks :
  Forall wf_tok toks -> tokens (str "?" ++ join_amp (text <$> toks)) = toks.
Proof.
  intros Hwf. unfold tokens.
  change (strip_question (str "?" ++ join_amp (text <$> toks)))
    with (join_amp (text <$> toks)).
  apply exec_join, Hwf.
Qed.

Lemma tokens_of_join_witness :
  Forall wf_tok [(str "mult", Some (str "iple=equals")); (str "blank", Some []);
                 (str "missing", None)] /\
  tokens (str "?" ++ join_amp (text <$> [(str "mult", Some (str "iple=equals"));
                                         (str "blank", Some []); (str "missing", None)]))
  = [(str "mult", Some (str "iple=equals")); (str "blank", Some []); (str "missing", None)].
Proof.
  assert (H : Forall wf_tok [(str "mult", Some (str "iple=equals"));
                             (str "blank", Some []); (str "missing", None)]).
  { repeat constructor; try discriminate; reflexivity. }
  split; [exact H|]. apply (tokens_of_join _ H).
Defined.

Lemma separators_no_match s :
  Forall (fun c => one_of "=&" c = true) s -> exec_all re_pair s = [].
Proof.
  unfold exec_all. induction 1 as [|c t Hc _ IH]; [reflexivity|].
  rewrite scan_miss; [exact IH|].
  unfold re_pair, not_eq_amp. cbn [span]. rewrite Hc. reflexivity.
Qed.

(** X27: a text that holds nothing but [=] and [&] after its optional [?]
    gives no pair: the constructor returns an instance without pairs and
    without keys, which serializes as the empty string. *)
Theorem separators_only location_search t h :
  Forall (fun c => one_of "=&" c = true) (strip_question t) ->
  exists q h',
    QueryString location_search (Some t) h = Ret q h' /\
    alist_of h' q = Some [] /\ toString q h' = Ret [] h' /\ keys q h' = Ret [] h'.
Proof.
  intros Ht. rewrite QueryString_run. cbn [source]. unfold parsed.
  rewrite (separators_no_match _ Ht). cbn [build fst snd].
  eexists _, _. split; [reflexivity|].
  pose proof (holds_layout h [] [] (NoDup_nil_2) ltac:(intros Hx; inversion Hx)) as Hh.
  split; [apply Hh|]. split.
  - apply (toString_holds _ _ _ _ Hh).
  - rewrite (keys_holds _ _ _ _ Hh). reflexivity.
Qed.

Lemma separators_only_witness :
  Forall (fun c => one_of "=&" c = true) (strip_question (str "?&=&&==")) /\
  exists q h',
    QueryString [] (Some (str "?&=&&==")) [] = Ret q h' /\
    alist_of h' q = Some [] /\ toString q h' = Ret [] h' /\ keys q h' = Ret [] h'.
Proof.
  assert (H : Forall (fun c => one_of "=&" c = true) (strip_question (str "?&=&&==")))
    by (repeat constructor).
  split; [exact H|]. apply (separators_only [] (str "?&=&&==") [] H).
Defined.

(** ** Removing twice *)

Lemma minus_alist_twice al k : minus_alist (minus_alist al k None) k None = minus_alist al k None.
Proof.
  rewrite !minus_alist_key. apply filter_all.
  apply Forall_forall. intros p Hp. apply list_elem_of_In, filter_In in Hp. apply Hp.
Qed.

Lemma minus_dict_twice D k :
  minus_dict (minus_dict D k None) k None = minus_dict D k None.
Proof.
  apply drop_absent. unfold minus_dict.
  induction D as [|[k' vs] D IH]; [intros Hx; inversion Hx|].
  rewrite map_dict_cons. unfold minus_answer at 1.
  destruct (decide (k' = k)); [exact IH|].
  rewrite fmap_cons, not_elem_of_cons. cbn [fst]. split; [congruence | exact IH].
Qed.

(** X28: [minus(k)] is idempotent: removing the key [k] a second time
    gives an instance with the dictionary and the pairs of the first
    removal. *)
Theorem minus_key_idempotent location_search h q D al k :
  holds h q D al -> (parsed location_search).2 = None ->
  own_vals D (str "hasOwnProperty") = None ->
  ends h (fun q'' h'' => holds h'' q'' (minus_dict D k None) (minus_alist al k None))
    (fun _ => False)
    ((q' ← minus location_search q k None; minus location_search q' k None) h).
Proof.
  intros Hh Hls Hsh.
  destruct (parsed location_search) as [st o] eqn:E. simpl in Hls. subst o.
  eapply ends_bind.
  - apply (minus_run location_search h q D al k None st Hh E Hsh).
  - intros q' h' _ Hh'.
    pose proof (minus_run location_search h' q' _ _ k None st Hh' E
                  (minus_dict_shadow D k None Hsh)) as Hrun.
    rewrite minus_dict_twice, minus_alist_twice in Hrun. exact Hrun.
Qed.

Lemma minus_key_idempotent_witness :
  (holds small_store 2 small_dict small_pairs /\
   (parsed []).2 = None /\ own_vals small_dict (str "hasOwnProperty") = None) /\
  ends small_store
    (fun q'' h'' => holds h'' q'' (minus_dict small_dict (str "a") None)
                      (minus_alist small_pairs (str "a") None))
    (fun _ => False)
    ((q' ← minus [] 2 (str "a") None; minus [] q' (str "a") None) small_store).
Proof.
  split.
  { split; [exact small_store_holds|]. split; reflexivity. }
  apply (minus_key_idempotent [] small_store 2 small_dict small_pairs (str "a"));
    first [exact small_store_holds | reflexivity].
Defined.
